(* ===== verification/_CoqProject ===== *)
-Q . S2P
Prelude.v
Store.v
Codec.v
UserGet.v
AccountStatus.v
ModifyAccount.v
AddPermissions.v
ClearPermissions.v
System.v
Interleave.v
Races.v
Locality.v
Independence.v
Progress.v
