(* ===== verification/Prelude.v ===== *)
(** * Verification of scuttlespace-service-auth

    The repository is a small TypeScript service that keeps the accounts of a
    naming service and the permissions one identity delegates to another.
    Every operation is a short read-then-write sequence of SQL statements
    against a PostgreSQL pool; there is no in-process state.  This library
    models the store as an explicit value and every exported function as a
    computation over it.

    ** Parts of the program and how they interact

    - Relational store ([Store.v]).  The four tables the sources touch:
      [account] (src/modify-account.ts, src/add-permissions.ts,
      src/account/get-status.ts), [scuttlespace_user] (src/user/get.ts),
      [account_permissions] (src/add-permissions.ts) and [user_permissions]
      (src/permissions/clear.ts).  A table is a [list] of rows, so the row
      counts the code branches on (0, 1, more) are observable; SELECT is
      [filter], UPDATE is a [map] over the matching rows, INSERT appends,
      DELETE filters out.  [Store.Table] is the interface (a record of a
      getter and a setter with its laws) through which every component reaches
      a table.  Programs run in the monad [M] of [Store.v]: state passing of
      the whole database plus exceptions, where the database at the point of
      a throw is kept (the pool is not transactional).  The store is the
      external collaborator of specification section 6 (the pg pool): these
      definitions are an abstraction of that library, not a translation of
      code of the repository.  Likewise [exception], [errors.singleOrNone]
      and the [ValidResult]/[ErrorResult] classes of the libraries the code
      imports stand as a thrown exception, an integrity error on more than
      one row and a two-constructor result; [parseServiceResult] is
      modelled from the specification.
    - Permission codec ([Codec.v]).  The canonical encoding of a permission
      list that src/permissions/clear.ts writes inline
      ([filter], [map] to ["module:permission"], [sort], [join(",")]) and the
      decoder of src/permissions/get.ts (not under src/, modelled from the
      specification: split on [","], split each token on the first [":"]).
      JavaScript's default [sort] is modelled by an insertion sort on
      [String.leb] (code-unit order, which is byte order on ASCII strings)
      and the lemma [Codec.js_sort_unique] shows that any sorted permutation
      is that one, so the choice of algorithm does not matter.
    - Account registry ([UserGet.v], [AccountStatus.v]): [findUser],
      [getUserByExternalId], [getUserByDomain], [getUserByUsername] of
      src/user/get.ts and [getUsernameAvailability] of
      src/account/get-status.ts.
    - Account lifecycle guard ([ModifyAccount.v]): [ensureAccountExists],
      [editAbout], [editDomain], [editUsername], [enable], [disable],
      [destroy] of src/modify-account.ts.
    - Permission store ([AddPermissions.v], [ClearPermissions.v]):
      [addPermissions] of src/add-permissions.ts and [clearPermissions] of
      src/permissions/clear.ts, which calls [findUser] and
      [getPermissionsForUser].
    - The whole service ([System.v]): every exported operation as a
      constructor of [System.Op], a step relation on databases, and the
      invariants that every reachable database keeps.
    - Interleavings ([Interleave.v]): [clearPermissions],
      [addPermissions], [destroy] and the five editors as programs whose
      nodes are single store round trips
      (one per [await] of the source), [run_prog] running one without
      interruption, and [istep] letting two programs advance in any order
      on one database.
    - Races ([Races.v]): the races the code allows, each as a schedule of
      two programs of [Interleave.v] proved on every database where the
      race can happen.
    - Locality ([Locality.v]): Section [Footprint], over abstract
      footprints (what a statement may read, [agrees], and the one write
      it may issue, [applies]), an independence relation on footprints and
      an equivalence of databases: statements and programs local to one
      footprint, and the commutation of two programs on independent
      footprints.  Section [Table] makes the keys of one table footprints
      (the rows of a key and a view of the rest of the database; a
      key-preserving UPDATE, DELETE or INSERT on the rows of the key);
      Section [InPlace] discharges the hypotheses for different keys with
      UPDATEs and DELETEs and equality, Section [KeyWise] with INSERTs and
      the equivalence [keywise] (same rows key by key, same other tables),
      an [Equivalence] instance, since two INSERTs leave rows in the order
      they ran; Section [Pair] combines two footprint systems whose writes
      the other does not read, such as two tables, with footprints
      [K1 + K2].
    - Independence ([Independence.v]): the instances for the handlers:
      [user_permissions] by relationship, [account] by network id and
      [account_permissions] by (username, assignee), and the pairs
      ([user_permissions], [account_permissions]) and ([user_permissions],
      [account]).
    - Progress ([Progress.v]): the writing handlers gathered as [Call]s
      with one reply type, the number of round trips each makes
      ([within]), counted interleavings ([isteps]) and the converse of
      [istep] as a relation whose accessibility is termination.

    ** What the theorems show

    - Permission store ([ClearPermissions.v], [AddPermissions.v]).
      [clear_refines] (C1) is the refinement theorem: with an assigner
      account and one stored row decoding to [ps], the row afterwards
      decodes to [clear_spec m ps] up to order, the other relationships and
      tables are untouched, and the assigner's username is returned.
      [clear_idempotent], [clear_no_row], [clear_no_account],
      [clear_corrupt] cover the other branches and [clear_scenario] runs the
      specification's scenario.  [add_stores], [add_twice], [add_refused]
      cover every row count of [addPermissions]; [add_stores] pins the
      stored string to [permissions.join(",")], which replaces the stored
      list instead of merging into it (the example
      [add_overwrites_unsorted] shows it on one input).
    - Codec ([Codec.v]): round trip [decode_encode] (the decoded list is
      a permutation of the input in the sorted order of its tokens),
      canonicity [encode_canonical] (equal encodings exactly for
      permutations), fixed point [encode_decode_fixpoint].  The
      instance [encode_Proper] lets [rewrite] move along [Permutation]
      under [encode] (used in [clear_idempotent]).
    - Registry ([UserGet.v], [AccountStatus.v]): [findUser_spec] (priority
      of selectors, INVALID_ARGS, read only, first matching row, so a
      duplicated id answers the first row and raises nothing),
      [findUser_by_external_id]; [availability_cases] (the three
      outcomes are exactly the three cases of the specification) and
      [availability_duplicate].
    - Lifecycle ([ModifyAccount.v]): [guard_missing], [edit_present]
      (row by row, the operation's column takes the new value and every
      other column and row is kept), [destroy_active], [destroy_disabled],
      [destroy_no_undefined].
    - System ([System.v]): [reachable_wf] proves by induction on
      reachability that key uniqueness of the four tables is an invariant;
      [edit_username_checked] shows username uniqueness survives
      [editUsername] after an availability check that answered AVAILABLE
      (asked with any identity; the OWN answer compares the
      [external_id] column of get-status.ts, which the model merges with
      [network_id], so it is left out), and the example [edit_username_unchecked_duplicates] that
      it does not without it.  [reachable_decodable] shows that every permission
      string stored in [user_permissions] stays decodable by
      [getPermissionsForUser] (the column's type), since
      [clearPermissions], its only writer, stores canonical encodings.
      [run_ops_size] bounds the growth of the database: after any
      sequence of calls it holds at most one more row per
      [addPermissions] call, the only operation that inserts.
    - Interleavings and races ([Interleave.v], [Races.v]): the
      round-trip programs run without interruption are the atomic handlers
      ([clear_prog_run], [add_prog_run], [destroy_prog_run],
      [edit_prog_run]).  Each race theorem holds on every database where
      the race can happen, names its schedule, and sets the outcome against
      the sequential runs: [clear_lost_update] (two clears that both read
      before either writes end in the state of the second alone, so the
      first module survives; specification section 5),
      [add_race_duplicates] (two first grants both INSERT, breaking the key
      invariant of [System.v], after which every call for the key raises),
      [destroy_race_undefined] (two destroys of a disabled account: the
      second reads past its empty re-read, which [destroy_no_undefined]
      excludes for sequential runs) and [enable_destroy_race] ([enable] and
      [destroy] both report success and the account is gone, an outcome of
      neither sequential order).
    - Locality and independence ([Locality.v], [Independence.v]):
      [local_interleavings] proves, by induction on the interleaving and a
      step-by-step commutation lemma [run_comm], that every complete
      interleaving of two programs local to different keys ends in the
      sequential result up to the equivalence; [clear_independent]
      instantiates it with [clearPermissions] and [account_independent]
      with the editors and [destroy] (exactly), [add_independent] with
      [addPermissions] (the same results, and the same rows key by key),
      so the lost update, the duplicate INSERT and the check-then-act
      races above are confined to calls on one key.  [pair_interleavings]
      proves the same, exactly, for programs on two tables that do not see
      each other's writes: [clear_add_independent] for a
      [clearPermissions] and an [addPermissions] call and
      [clear_account_independent] for a [clearPermissions] call and an
      account operation, whatever their keys.  An [addPermissions] call
      and an account operation are not independent: the ownership check
      reads [account], which [editUsername] and [destroy] write.
    - Progress ([Progress.v]): the lemma [calls_terminate] bounds every
      interleaving of two calls by the sum of their round trips (three for
      [clearPermissions], [addPermissions] and [destroy], two for an
      editor), and [completes] shows any configuration can be run to one
      where both calls have finished.

    ** Choices of the model

    Strings are [String.string] of the Standard Library (ASCII; the code
    unit order of JavaScript's [sort] is the byte order there).  Store calls
    never fail in the model (connection errors are out of scope), and
    [ICallContext] only carries tracing data and is not modelled.  Nothing
    needs fuel: every function is structurally recursive, and every handler
    is a finite composition of statements, so each one returns on every
    input (the monad is total by construction).  A handler that raises
    leaves the database of the point of the throw; in every handler the
    throws precede the writes, which the theorems above state for each
    branch.  [System.v] treats each call as atomic; [Interleave.v] drops
    that assumption for every handler that writes.  The bound of
    [Progress.v] is the count of awaited store calls on the longest path of
    each handler, read off the source: no handler loops or retries.

    ** Not modelled

    The transport layer, authentication of the caller and the connection
    pool (src/pool is not part of the snapshot); store failures; the
    decoder of src/permissions/get.ts beyond the specification's
    description; interleavings of more than two calls (the semantics
    [istep] is of two programs; the commutation lemmas are stated for two)
    and of the read-only registry handlers (each is a single round trip,
    so it is atomic already); the interference of [addPermissions] with a
    concurrent [editUsername] or [destroy] of the owner, which is a
    genuine dependence and not a commutation.

    ** Further work

    1. Interleavings of more than two concurrent calls, as a list of
       programs with a step on any one of them.
    2. The specification's [grant] as an abstract operation on a map from
       module to level, and the precise gap between it and
       [addPermissions] (the code replaces the stored list, see
       [add_overwrites_unsorted]).
    3. Invariants of [System.v] decided on concrete databases by the
       boolean [unique_keyb] (its reflection lemma is in [Store.v]).

    This file holds what the components share: the notation scope, the
    decidable key equality class, the string order, a generic insertion sort
    with its correctness and uniqueness, list lemmas and the hint database. *)

From Stdlib Require Import String Ascii List Bool Arith Lia NArith.
From Stdlib Require Import Sorting.Permutation Sorting.Sorted.
Import ListNotations.

Declare Scope auth_scope.
Delimit Scope auth_scope with auth.
Open Scope string_scope.

Create HintDb auth.
Create Rewrite HintDb auth_rw.

(** ** Decidable equality of keys *)

Class KeyEq (K : Type) := {
  key_eqb : K -> K -> bool;
  key_eqb_spec : forall a b, reflect (a = b) (key_eqb a b)
}.
Arguments key_eqb {K _} _ _.

Infix "==?" := key_eqb (at level 70) : auth_scope.
Open Scope auth_scope.

#[export] Instance KeyEq_string : KeyEq string :=
  { key_eqb := String.eqb; key_eqb_spec := String.eqb_spec }.

#[export] Instance KeyEq_bool : KeyEq bool :=
  { key_eqb := Bool.eqb; key_eqb_spec := Bool.eqb_spec }.

Lemma prod_eqb_spec {A B} `{KeyEq A} `{KeyEq B} (x y : A * B) :
  reflect (x = y) ((fst x ==? fst y) && (snd x ==? snd y)).
Proof.
  destruct x as [x1 x2], y as [y1 y2]; simpl.
  destruct (key_eqb_spec x1 y1), (key_eqb_spec x2 y2); constructor; congruence.
Qed.

#[export] Instance KeyEq_prod {A B} `{KeyEq A} `{KeyEq B} : KeyEq (A * B) :=
  { key_eqb := fun x y => (fst x ==? fst y) && (snd x ==? snd y);
    key_eqb_spec := prod_eqb_spec }.

Definition option_eqb {A} `{KeyEq A} (x y : option A) : bool :=
  match x, y with
  | Some a, Some b => a ==? b
  | None, None => true
  | _, _ => false
  end.

Lemma option_eqb_spec {A} `{KeyEq A} (x y : option A) : reflect (x = y) (option_eqb x y).
Proof.
  destruct x as [a|], y as [b|]; simpl; try (constructor; congruence).
  destruct (key_eqb_spec a b); constructor; congruence.
Qed.

#[export] Instance KeyEq_option {A} `{KeyEq A} : KeyEq (option A) :=
  { key_eqb := option_eqb; key_eqb_spec := option_eqb_spec }.

Lemma key_eqb_refl {K} `{KeyEq K} (k : K) : (k ==? k) = true.
Proof. destruct (key_eqb_spec k k); congruence. Qed.

Lemma key_eqb_true {K} `{KeyEq K} (a b : K) : (a ==? b) = true <-> a = b.
Proof. destruct (key_eqb_spec a b); split; congruence. Qed.

Lemma key_eqb_false {K} `{KeyEq K} (a b : K) : (a ==? b) = false <-> a <> b.
Proof. destruct (key_eqb_spec a b); split; congruence. Qed.

#[export] Hint Rewrite @key_eqb_refl : auth_rw.

(** [destr_key a b] cases on a key comparison of the goal and substitutes. *)
Ltac destr_key a b :=
  destruct (key_eqb_spec a b); subst; simpl in *.

(** [inv H] inverts and cleans. *)
Ltac inv H := inversion H; subst; clear H.

(** ** The order of JavaScript's default [sort] on ASCII strings

    [Array.prototype.sort] without a comparator compares UTF-16 code units;
    on ASCII strings this is [String.compare] of the Standard Library. *)

Lemma string_leb_trans (a b c : string) :
  (a <=? b)%string = true -> (b <=? c)%string = true -> (a <=? c)%string = true.
Proof.
  unfold String.leb; revert b c.
  induction a as [|x a IH]; intros [|y b] [|z c]; simpl; try easy.
  unfold Ascii.compare.
  destruct (N.compare_spec (N_of_ascii x) (N_of_ascii y)),
           (N.compare_spec (N_of_ascii y) (N_of_ascii z)),
           (N.compare_spec (N_of_ascii x) (N_of_ascii z)); try easy; try lia.
  apply IH.
Qed.

Lemma string_leb_total (a b : string) :
  (a <=? b)%string = false -> (b <=? a)%string = true.
Proof. destruct (String.leb_total a b); congruence. Qed.

(** ** Insertion sort, and uniqueness of a sorted permutation *)

Section Sorting.
Context {A : Type} (le : A -> A -> bool).
Hypothesis le_total : forall a b, le a b = false -> le b a = true.
Hypothesis le_trans : forall a b c, le a b = true -> le b c = true -> le a c = true.
Hypothesis le_antisym : forall a b, le a b = true -> le b a = true -> a = b.

Fixpoint insert (x : A) (l : list A) : list A :=
  match l with
  | [] => [x]
  | y :: l' => if le x y then x :: y :: l' else y :: insert x l'
  end.

Fixpoint isort (l : list A) : list A :=
  match l with
  | [] => []
  | x :: l' => insert x (isort l')
  end.

Definition leP a b : Prop := le a b = true.

Lemma insert_perm x l : Permutation (x :: l) (insert x l).
Proof.
  induction l as [|y l IH]; simpl; [auto|].
  destruct (le x y); [auto|].
  eapply perm_trans; [apply perm_swap | auto].
Qed.

Lemma isort_perm l : Permutation l (isort l).
Proof.
  induction l as [|x l IH]; simpl; [auto|].
  eapply perm_trans; [apply perm_skip, IH | apply insert_perm].
Qed.

Lemma insert_sorted x l : Sorted leP l -> Sorted leP (insert x l).
Proof.
  induction 1 as [|y l Hs IH Hhd]; simpl; [repeat constructor|].
  destruct (le x y) eqn:E; [repeat constructor; auto|].
  constructor; [exact IH|].
  destruct l as [|z l]; simpl; [constructor; apply le_total, E|].
  inv Hhd. destruct (le x z); constructor; [apply le_total, E | assumption].
Qed.

Lemma isort_sorted l : Sorted leP (isort l).
Proof. induction l; simpl; [constructor | apply insert_sorted; auto]. Qed.

Lemma sorted_perm_unique l1 l2 :
  Sorted leP l1 -> Sorted leP l2 -> Permutation l1 l2 -> l1 = l2.
Proof.
  assert (Htr : Relations_1.Transitive leP) by (intros ? ? ?; apply le_trans).
  intros H1 H2; apply Sorted_StronglySorted in H1; [|exact Htr].
  apply Sorted_StronglySorted in H2; [|exact Htr].
  revert l2 H2; induction H1 as [|a l1 _ IH Ha]; intros l2 H2 Hp.
  - symmetry; apply Permutation_nil, Hp.
  - destruct H2 as [|b l2 H2 Hb]; [apply Permutation_sym, Permutation_nil in Hp; discriminate|].
    assert (a = b) as <-.
    { assert (In a (b :: l2)) as [->|Ina] by (eapply Permutation_in; [exact Hp | left; auto]); [auto|].
      assert (In b (a :: l1)) as [->|Inb] by (eapply Permutation_in; [symmetry; exact Hp | left; auto]); [auto|].
      rewrite Forall_forall in Ha, Hb.
      apply le_antisym; [apply (Ha b Inb) | apply (Hb a Ina)]. }
    f_equal; apply IH; [exact H2 | eapply Permutation_cons_inv; exact Hp].
Qed.

Corollary isort_unique l l' : Sorted leP l' -> Permutation l l' -> isort l = l'.
Proof.
  intros Hs Hp; apply sorted_perm_unique; [apply isort_sorted | exact Hs |].
  eapply perm_trans; [symmetry; apply isort_perm | exact Hp].
Qed.

Corollary isort_perm_eq l l' : Permutation l l' -> isort l = isort l'.
Proof.
  intros Hp; apply isort_unique; [apply isort_sorted|].
  eapply perm_trans; [exact Hp | apply isort_perm].
Qed.
End Sorting.

(** ** Generic list lemmas shared by the components *)

Lemma filter_ext_in {A} (f g : A -> bool) l :
  (forall x, In x l -> f x = g x) -> filter f l = filter g l.
Proof.
  induction l as [|x l IH]; simpl; intros H; [reflexivity|].
  rewrite (H x (or_introl eq_refl)), IH; auto.
Qed.

Lemma filter_all_false {A} (f : A -> bool) l :
  (forall x, In x l -> f x = false) -> filter f l = [].
Proof.
  induction l as [|x l IH]; simpl; intros H; [reflexivity|].
  rewrite (H x (or_introl eq_refl)); auto.
Qed.

Lemma filter_filter_and {A} (f g : A -> bool) l :
  filter f (filter g l) = filter (fun x => g x && f x) l.
Proof.
  induction l as [|x l IH]; simpl; [reflexivity|].
  destruct (g x); simpl; [destruct (f x)|]; rewrite ?IH; reflexivity.
Qed.

Lemma filter_all_true {A} (f : A -> bool) l :
  (forall x, In x l -> f x = true) -> filter f l = l.
Proof.
  induction l as [|x l IH]; simpl; intros H; [reflexivity|].
  rewrite (H x (or_introl eq_refl)), IH by (intros; apply H; right; assumption); reflexivity.
Qed.

Lemma filter_idem {A} (f : A -> bool) l : filter f (filter f l) = filter f l.
Proof.
  induction l as [|x l IH]; simpl; [reflexivity|].
  destruct (f x) eqn:E; simpl; rewrite ?E, IH; reflexivity.
Qed.

#[export] Hint Rewrite @filter_idem @filter_filter_and : auth_rw.
