(* ===== verification/Store.v ===== *)
(** * The relational store and the effects of the service

    The rows of the four tables the sources query, the database as a record
    of tables, the [Table] interface through which the components read and
    write one table, the SQL statements the code issues (SELECT, UPDATE,
    INSERT, DELETE with equality predicates), the state-and-exception monad
    [M] the handlers run in, and the helpers of the repository that are not
    under src/: [exception] (src/exception.ts), [errors.singleOrNone]
    (src/errors.ts), [parseServiceResult], [ValidResult] and [ErrorResult]
    (scuttlespace-service-common), modelled from the specification. *)

From Stdlib Require Import String List Bool Arith Lia.
From S2P Require Import Prelude.
Import ListNotations.

(** ** Rows and the database *)

(** A row of [account] (src/modify-account.ts, src/add-permissions.ts,
    src/account/get-status.ts) and of [scuttlespace_user] (src/user/get.ts).
    The identity column is called [network_id] in the first two files and
    [external_id] in the last two; both are the field [network_id]. *)
Record AccountRow := mkAccountRow {
  network_id : string;
  username : string;
  domain : option string;
  about : string;
  enabled : bool
}.

(** A row of [account_permissions] (src/add-permissions.ts). *)
Record AccountPermissionRow := mkAccountPermissionRow {
  ap_network_id : string;
  ap_username : string;
  ap_permissions : string
}.

(** A row of [user_permissions] (src/permissions/clear.ts). *)
Record UserPermissionRow := mkUserPermissionRow {
  assignee_external_id : string;
  assigner_external_id : string;
  up_permissions : string
}.

Record DB := mkDB {
  account : list AccountRow;
  scuttlespace_user : list AccountRow;
  account_permissions : list AccountPermissionRow;
  user_permissions : list UserPermissionRow
}.

(** ** The table interface

    A table is reached through a getter and a setter on the database that
    obey the three lens laws. *)
Record Table (R : Type) := {
  tget : DB -> list R;
  tset : list R -> DB -> DB;
  tget_tset : forall rows db, tget (tset rows db) = rows;
  tset_tget : forall db, tset (tget db) db = db;
  tset_tset : forall r1 r2 db, tset r2 (tset r1 db) = tset r2 db
}.
Arguments tget {R} _ _.
Arguments tset {R} _ _ _.

(** Two tables are separate when writing one leaves the other as it was. *)
Definition separate {R S} (T1 : Table R) (T2 : Table S) : Prop :=
  forall rows db, tget T2 (tset T1 rows db) = tget T2 db.

Definition account_tbl : Table AccountRow.
Proof.
  refine {| tget := account;
            tset := fun rows db => mkDB rows (scuttlespace_user db)
                                        (account_permissions db) (user_permissions db) |};
  intros; destruct db; reflexivity.
Defined.

Definition scuttlespace_user_tbl : Table AccountRow.
Proof.
  refine {| tget := scuttlespace_user;
            tset := fun rows db => mkDB (account db) rows
                                        (account_permissions db) (user_permissions db) |};
  intros; destruct db; reflexivity.
Defined.

Definition account_permissions_tbl : Table AccountPermissionRow.
Proof.
  refine {| tget := account_permissions;
            tset := fun rows db => mkDB (account db) (scuttlespace_user db)
                                        rows (user_permissions db) |};
  intros; destruct db; reflexivity.
Defined.

Definition user_permissions_tbl : Table UserPermissionRow.
Proof.
  refine {| tget := user_permissions;
            tset := fun rows db => mkDB (account db) (scuttlespace_user db)
                                        (account_permissions db) rows |};
  intros; destruct db; reflexivity.
Defined.

#[export] Hint Rewrite tget_tset tset_tget tset_tset : auth_rw.

(** ** Effects: state passing with exceptions

    A handler maps the database to its outcome and the database after it.
    An exception keeps the database of the point where it was thrown: the
    code runs its statements on a pool, not in a transaction. *)
Inductive Exn :=
| ServiceException (code message : string)   (** [exception(code, message, trace)] *)
| SingleOrNoneViolation (count : nat)        (** [errors.singleOrNone(rows)] on more than one row *)
| ErrorResultRaised (code message : string)  (** [parseServiceResult] of an [ErrorResult] *)
| MalformedPermissionToken (token : string)  (** a stored token without [module:level] shape *)
| UndefinedRow.                              (** reading a field of [rows[0]] when [rows] is empty *)

Definition M (A : Type) : Type := DB -> (Exn + A) * DB.

Definition ret {A} (a : A) : M A := fun db => (inr a, db).
Definition throw {A} (e : Exn) : M A := fun db => (inl e, db).
Definition bind {A B} (m : M A) (k : A -> M B) : M B :=
  fun db => match m db with
            | (inl e, db') => (inl e, db')
            | (inr a, db') => k a db'
            end.

Notation "x <- m ;; k" := (bind m (fun x => k))
  (at level 61, m at next level, right associativity) : auth_scope.
Notation "m ;; k" := (bind m (fun _ => k))
  (at level 61, right associativity) : auth_scope.

Lemma bind_ret {A B} (a : A) (k : A -> M B) db : bind (ret a) k db = k a db.
Proof. reflexivity. Qed.

Lemma bind_throw {A B} e (k : A -> M B) db : bind (throw e) k db = (inl e, db).
Proof. reflexivity. Qed.

Lemma bind_assoc {A B C} (m : M A) (f : A -> M B) (g : B -> M C) db :
  bind (bind m f) g db = bind m (fun a => bind (f a) g) db.
Proof. unfold bind; destruct (m db) as [[e|a] db']; reflexivity. Qed.

Lemma bind_inr {A B} (m : M A) (k : A -> M B) db a db' :
  m db = (inr a, db') -> bind m k db = k a db'.
Proof. intros H; unfold bind; rewrite H; reflexivity. Qed.

Lemma bind_inl {A B} (m : M A) (k : A -> M B) db e db' :
  m db = (inl e, db') -> bind m k db = (inl e, db').
Proof. intros H; unfold bind; rewrite H; reflexivity. Qed.

#[export] Hint Rewrite @bind_ret @bind_throw @bind_assoc : auth_rw.

(** ** SQL statements with equality predicates *)

Definition update_rows {R} (p : R -> bool) (f : R -> R) (rows : list R) : list R :=
  map (fun r => if p r then f r else r) rows.

Definition delete_rows {R} (p : R -> bool) (rows : list R) : list R :=
  filter (fun r => negb (p r)) rows.

(** [SELECT * FROM t WHERE p] *)
Definition select {R} (T : Table R) (p : R -> bool) : M (list R) :=
  fun db => (inr (filter p (tget T db)), db).

(** [UPDATE t SET ... WHERE p] *)
Definition update {R} (T : Table R) (p : R -> bool) (f : R -> R) : M unit :=
  fun db => (inr tt, tset T (update_rows p f (tget T db)) db).

(** [INSERT INTO t (...) VALUES (...)] *)
Definition insert_row {R} (T : Table R) (r : R) : M unit :=
  fun db => (inr tt, tset T (tget T db ++ [r]) db).

(** [DELETE FROM t WHERE p] *)
Definition delete {R} (T : Table R) (p : R -> bool) : M unit :=
  fun db => (inr tt, tset T (delete_rows p (tget T db)) db).

(** ** Helpers of the repository outside src/ *)

Inductive ServiceResult (A : Type) :=
| ValidResult (data : A)
| ErrorResult (code message : string).
Arguments ValidResult {A} _.
Arguments ErrorResult {A} _ _.

(** [exception(code, message)] throws. *)
Definition exception {A} (code message : string) : M A :=
  throw (ServiceException code message).

(** [errors.singleOrNone(rows)]: the row when there is at most one, a
    thrown integrity error otherwise. *)
Definition singleOrNone {R} (rows : list R) : M (option R) :=
  match rows with
  | [] => ret None
  | [r] => ret (Some r)
  | _ => throw (SingleOrNoneViolation (length rows))
  end.

(** [errors.singleOrNone(rows)] where the caller has already seen more
    than one row: it throws. *)
Definition singleOrNone_many {A R} (rows : list R) : M A :=
  throw (SingleOrNoneViolation (length rows)).

Lemma singleOrNone_many_spec {R} (rows : list R) db :
  1 < length rows -> singleOrNone rows db = singleOrNone_many rows db.
Proof. destruct rows as [|r [|r' rows]]; simpl; intros H; [lia | lia | reflexivity]. Qed.

(** [parseServiceResult(p)]: the data of a [ValidResult]; an [ErrorResult]
    is rethrown. *)
Definition parseServiceResult {A} (m : M (ServiceResult A)) : M A :=
  r <- m ;;
  match r with
  | ValidResult a => ret a
  | ErrorResult c msg => throw (ErrorResultRaised c msg)
  end.

(** ** What UPDATE does to the rows *)

Section Rows.
Context {R : Type}.

Lemma update_rows_none (p : R -> bool) f rows :
  (forall r, In r rows -> p r = false) -> update_rows p f rows = rows.
Proof.
  intros Hp; induction rows as [|r rows IH]; simpl; [reflexivity|].
  rewrite (Hp r (or_introl eq_refl)), IH by (intros; apply Hp; right; assumption).
  reflexivity.
Qed.

Lemma filter_update_rows_same (p : R -> bool) f rows :
  (forall r, p r = true -> p (f r) = true) ->
  filter p (update_rows p f rows) = map f (filter p rows).
Proof.
  intros Hf; induction rows as [|r rows IH]; simpl; [reflexivity|].
  destruct (p r) eqn:E; simpl; rewrite ?Hf, ?E, IH; auto.
Qed.

Lemma filter_update_rows_other (p q : R -> bool) f rows :
  (forall r, q r = true -> p r = false) ->
  (forall r, p r = true -> q (f r) = false) ->
  filter q (update_rows p f rows) = filter q rows.
Proof.
  intros Hqp Hf; induction rows as [|r rows IH]; simpl; [reflexivity|].
  destruct (p r) eqn:E.
  - rewrite Hf by exact E. destruct (q r) eqn:Eq; [rewrite Hqp in E; congruence | exact IH].
  - destruct (q r); rewrite IH; reflexivity.
Qed.

Lemma update_rows_idem (p : R -> bool) f rows :
  (forall r, p r = true -> p (f r) = true) -> (forall r, f (f r) = f r) ->
  update_rows p f (update_rows p f rows) = update_rows p f rows.
Proof.
  intros Hp Hf; induction rows as [|r rows IH]; simpl; [reflexivity|].
  rewrite IH; destruct (p r) eqn:E; [rewrite Hp, Hf by exact E | rewrite E]; reflexivity.
Qed.

(** A second UPDATE of the same rows that overwrites what the first
    wrote hides the first. *)
Lemma update_rows_absorb (p : R -> bool) f g rows :
  (forall r, p r = true -> p (f r) = true) -> (forall r, g (f r) = g r) ->
  update_rows p g (update_rows p f rows) = update_rows p g rows.
Proof.
  intros Hp Hg; induction rows as [|r rows IH]; simpl; [reflexivity|].
  rewrite IH; destruct (p r) eqn:E; [rewrite Hp, Hg by exact E | rewrite E]; reflexivity.
Qed.

(** An UPDATE after a DELETE with the same predicate matches no row. *)
Lemma update_rows_delete (p : R -> bool) f rows :
  update_rows p f (delete_rows p rows) = delete_rows p rows.
Proof.
  apply update_rows_none; intros r Hr; apply filter_In in Hr as [_ Hr].
  destruct (p r); [discriminate | reflexivity].
Qed.

(** UPDATE relates each written row to its image and keeps the others. *)
Lemma update_rows_Forall2 (p : R -> bool) f (Q : R -> R -> Prop) rows :
  (forall r, p r = true -> Q r (f r)) ->
  Forall2 (fun r r' => if p r then Q r r' else r' = r) rows (update_rows p f rows).
Proof.
  intros Hq; induction rows as [|r rows IH]; constructor; [|exact IH].
  destruct (p r) eqn:E; [apply Hq, E | reflexivity].
Qed.

Lemma update_rows_id (p : R -> bool) rows : update_rows p (fun r => r) rows = rows.
Proof. induction rows as [|r rows IH]; simpl; [|rewrite IH; destruct (p r)]; reflexivity. Qed.

(** A row property that the UPDATE establishes on the rows it writes holds
    of the whole table afterwards. *)
Lemma forallb_update_rows (P p : R -> bool) f rows :
  forallb P rows = true -> (forall r, p r = true -> P (f r) = true) ->
  forallb P (update_rows p f rows) = true.
Proof.
  intros H Hf; induction rows as [|r rows IH]; simpl in *; [reflexivity|].
  apply andb_true_iff in H as [H1 H2]; destruct (p r) eqn:E; rewrite ?Hf, ?H1, IH; auto.
Qed.

Lemma length_update_rows (p : R -> bool) f rows : length (update_rows p f rows) = length rows.
Proof. apply length_map. Qed.
End Rows.

(** ** Keys of a table and what the statements do to them *)

Section Keys.
Context {R K : Type} `{KeyEq K} (key : R -> K).

(** At most one row per key: the uniqueness constraints the specification
    puts on every table. *)
Definition unique_key (rows : list R) : Prop := NoDup (map key rows).

(** The rows of one key. *)
Definition with_key (k : K) (rows : list R) : list R :=
  filter (fun r => key r ==? k) rows.

(** [SELECT * FROM T WHERE key = k] answers the rows of [k]. *)
Lemma select_with_key (T : Table R) k db rows :
  with_key k (tget T db) = rows -> select T (fun r => key r ==? k) db = (inr rows, db).
Proof. intros E; unfold select; fold (with_key k (tget T db)); rewrite E; reflexivity. Qed.

Lemma update_rows_keys p f rows :
  (forall r, key (f r) = key r) -> map key (update_rows p f rows) = map key rows.
Proof.
  intros Hf; induction rows as [|r rows IH]; simpl; [reflexivity|].
  rewrite IH; destruct (p r); rewrite ?Hf; reflexivity.
Qed.

Lemma unique_key_update p f rows :
  (forall r, key (f r) = key r) -> unique_key rows -> unique_key (update_rows p f rows).
Proof. intros Hf; unfold unique_key; rewrite update_rows_keys; auto. Qed.

Lemma unique_key_filter p rows : unique_key rows -> unique_key (filter p rows).
Proof.
  unfold unique_key; induction rows as [|r rows IH]; simpl; [auto|].
  intros Hnd; inv Hnd; destruct (p r); simpl; [|auto].
  constructor; [|auto]. intros Hin; apply in_map_iff in Hin as (r' & Hk & Hr').
  apply filter_In in Hr' as [Hr' _]. apply H2, in_map_iff; eauto.
Qed.

Lemma with_key_nil k rows : with_key k rows = [] <-> ~ In k (map key rows).
Proof.
  unfold with_key; induction rows as [|r rows IH]; simpl; [tauto|].
  destr_key (key r) k; [split; [discriminate | tauto]|].
  rewrite IH; intuition.
Qed.

Lemma unique_key_insert rows x :
  unique_key rows -> with_key (key x) rows = [] -> unique_key (rows ++ [x]).
Proof.
  unfold unique_key; intros Hnd Hnone; rewrite map_app; simpl.
  apply NoDup_app; [exact Hnd | repeat constructor; simpl; tauto |].
  intros k Hk [<-|[]]; apply with_key_nil in Hnone; contradiction.
Qed.

Lemma in_with_key k rows r : In r (with_key k rows) <-> In r rows /\ key r = k.
Proof. unfold with_key; rewrite filter_In, key_eqb_true; reflexivity. Qed.

Lemma with_key_unique rows r :
  unique_key rows -> In r rows -> with_key (key r) rows = [r].
Proof.
  unfold unique_key, with_key; induction rows as [|r' rows IH]; simpl; [tauto|].
  intros Hnd Hin; inv Hnd; destruct Hin as [<-|Hin].
  - rewrite key_eqb_refl; f_equal; apply with_key_nil; assumption.
  - destr_key (key r') (key r); [|auto].
    exfalso; apply H2; rewrite e; apply in_map; assumption.
Qed.

Lemma with_key_update_same k0 f rows :
  (forall r, key (f r) = key r) ->
  with_key k0 (update_rows (fun r => key r ==? k0) f rows) = map f (with_key k0 rows).
Proof.
  intros Hf; unfold with_key; apply filter_update_rows_same; intros r; rewrite Hf; exact id.
Qed.

Lemma with_key_update_other k0 k f rows :
  (forall r, key (f r) = key r) -> k <> k0 ->
  with_key k (update_rows (fun r => key r ==? k0) f rows) = with_key k rows.
Proof.
  intros Hf Hk; unfold with_key; induction rows as [|r rows IH]; simpl; [reflexivity|].
  rewrite <- IH; destr_key (key r) k0; rewrite ?Hf; destr_key (key r) k; congruence.
Qed.

Lemma with_key_app k rows x :
  with_key k (rows ++ [x])%list = (with_key k rows ++ (if key x ==? k then [x] else []))%list.
Proof. unfold with_key; rewrite filter_app; reflexivity. Qed.

Lemma with_key_length k rows : unique_key rows -> length (with_key k rows) <= 1.
Proof.
  unfold unique_key, with_key; induction rows as [|r rows IH]; simpl; [lia|].
  intros Hnd; inv Hnd; destr_key (key r) k; [|auto].
  enough (filter (fun r0 => key r0 ==? key r) rows = []) as -> by (simpl; lia).
  apply with_key_nil; assumption.
Qed.
Lemma in_update_rows (p : R -> bool) (f : R -> R) (rows : list R) (x : R) :
  In x (update_rows p f rows) <-> exists y, In y rows /\ x = (if p y then f y else y).
Proof.
  unfold update_rows; rewrite in_map_iff; split; intros (y & H1 & H2); exists y; auto.
Qed.

(** An UPDATE of at most one row keeps a key unique when the new value of
    the row clashes with no other row. *)
Lemma unique_key_update_one (p : R -> bool) (f : R -> R) (rows : list R) :
  unique_key rows -> length (filter p rows) <= 1 ->
  (forall r r', In r rows -> In r' rows -> p r = true -> p r' = false -> key (f r) <> key r') ->
  unique_key (update_rows p f rows).
Proof.
  unfold unique_key; induction rows as [|r rows IH]; intros Hnd Hle Hclash; [constructor|].
  inv Hnd; simpl in Hle |- *.
  constructor.
  - rewrite in_map_iff; intros (x & Hkx & Hx); apply in_update_rows in Hx as (y & Hy & ->).
    destruct (p r) eqn:Er; simpl in Hle.
    + assert (Ey : p y = false).
      { destruct (p y) eqn:Ey; [|reflexivity].
        assert (In y (filter p rows)) as Hin by (apply filter_In; auto).
        destruct (filter p rows); [contradiction | simpl in Hle; lia]. }
      rewrite Ey in Hkx; apply (Hclash r y); simpl; auto.
    + destruct (p y) eqn:Ey.
      * apply (Hclash y r); simpl; auto.
      * apply H2, in_map_iff; eauto.
  - apply IH; [assumption | destruct (p r); simpl in Hle; lia |].
    intros x y Hx Hy; apply Hclash; simpl; auto.
Qed.
(** UPDATEs of two different keys commute. *)
Lemma update_rows_comm k k' f g rows :
  k <> k' -> (forall r, key (f r) = key r) -> (forall r, key (g r) = key r) ->
  update_rows (fun r => key r ==? k) f (update_rows (fun r => key r ==? k') g rows) =
  update_rows (fun r => key r ==? k') g (update_rows (fun r => key r ==? k) f rows).
Proof.
  intros Hk Hf Hg; induction rows as [|r rows IH]; simpl; [reflexivity|]; rewrite IH; f_equal.
  destruct (key r ==? k') eqn:B1, (key r ==? k) eqn:B2; simpl; rewrite ?Hf, ?Hg, ?B1, ?B2;
    try reflexivity.
  exfalso; destruct (key_eqb_spec (key r) k'), (key_eqb_spec (key r) k); congruence.
Qed.

(** A DELETE of one key leaves the rows of every other key as they were. *)
Lemma with_key_delete_other k0 k rows :
  k <> k0 -> with_key k (delete_rows (fun r => key r ==? k0) rows) = with_key k rows.
Proof.
  intros Hk; unfold with_key, delete_rows; induction rows as [|r rows IH]; simpl; [reflexivity|].
  destr_key (key r) k0; simpl; rewrite IH; [|reflexivity].
  destr_key (key r) k; congruence.
Qed.

(** After a DELETE of a key no row of it is left. *)
Lemma with_key_delete_rows k rows :
  with_key k (delete_rows (fun r => key r ==? k) rows) = [].
Proof.
  unfold with_key, delete_rows; autorewrite with auth_rw.
  apply filter_all_false; intros r Hr; destruct (key r ==? k); reflexivity.
Qed.

(** DELETEs of two keys commute, and so do a DELETE and a key-preserving
    UPDATE of two different keys. *)
Lemma delete_rows_comm k k' rows :
  delete_rows (fun r => key r ==? k) (delete_rows (fun r => key r ==? k') rows) =
  delete_rows (fun r => key r ==? k') (delete_rows (fun r => key r ==? k) rows).
Proof.
  unfold delete_rows; rewrite !filter_filter_and; apply filter_ext_in; intros r _.
  rewrite andb_comm; reflexivity.
Qed.

Lemma update_delete_comm k k' f rows :
  k <> k' -> (forall r, key (f r) = key r) ->
  update_rows (fun r => key r ==? k) f (delete_rows (fun r => key r ==? k') rows) =
  delete_rows (fun r => key r ==? k') (update_rows (fun r => key r ==? k) f rows).
Proof.
  intros Hk Hf; unfold delete_rows, update_rows; induction rows as [|r rows IH]; [reflexivity|].
  simpl; destruct (key r ==? k) eqn:B2, (key r ==? k') eqn:B1; simpl;
    rewrite ?Hf, ?B1, ?B2; simpl; rewrite ?B2, ?IH; try reflexivity;
    exfalso; destruct (key_eqb_spec (key r) k'), (key_eqb_spec (key r) k); congruence.
Qed.

(** Key uniqueness decided by computation. *)
Fixpoint nodupb (ks : list K) : bool :=
  match ks with
  | [] => true
  | k :: ks' => negb (existsb (key_eqb k) ks') && nodupb ks'
  end.

Definition unique_keyb (rows : list R) : bool := nodupb (map key rows).

Lemma nodupb_spec ks : reflect (NoDup ks) (nodupb ks).
Proof.
  induction ks as [|k ks IH]; simpl; [constructor; constructor|].
  destruct (existsb (key_eqb k) ks) eqn:E; simpl.
  - constructor; intros Hnd; inv Hnd; apply existsb_exists in E as (k' & Hin & Hk).
    destruct (key_eqb_spec k k') as [->|]; [contradiction | discriminate].
  - destruct IH as [Hnd|Hnd].
    + apply ReflectT; constructor; [|exact Hnd]; intros Hin.
      assert (existsb (key_eqb k) ks = true) by (apply existsb_exists; exists k; rewrite key_eqb_refl; auto).
      congruence.
    + apply ReflectF; intros Hc; inv Hc; contradiction.
Qed.

Lemma unique_keyb_spec rows : reflect (unique_key rows) (unique_keyb rows).
Proof. apply nodupb_spec. Qed.
End Keys.

(** [decide_unique] proves or refutes [unique_key] of a concrete table by
    computing [unique_keyb]. *)
Ltac decide_unique :=
  match goal with
  | |- unique_key ?key ?rows => apply (proj2 (reflect_iff _ _ (unique_keyb_spec key rows))); reflexivity
  | |- unique_key ?key ?rows -> False =>
      intros ?Hu; apply (proj1 (reflect_iff _ _ (unique_keyb_spec key rows))) in Hu; discriminate
  | |- ~ unique_key ?key ?rows =>
      intros ?Hu; apply (proj1 (reflect_iff _ _ (unique_keyb_spec key rows))) in Hu; discriminate
  end.

#[export] Hint Resolve unique_key_filter unique_key_update unique_key_insert : auth.


(** Writing one table of the database leaves the other tables unchanged. *)
Ltac solve_separate := intros ? []; reflexivity.

(** The outcome of [parseServiceResult] as a function of the wrapped one. *)
Definition parse_outcome {A} (r : Exn + ServiceResult A) : Exn + A :=
  match r with
  | inl e => inl e
  | inr (ValidResult a) => inr a
  | inr (ErrorResult c msg) => inl (ErrorResultRaised c msg)
  end.

Lemma parse_run {A} (m : M (ServiceResult A)) db :
  parseServiceResult m db = (parse_outcome (fst (m db)), snd (m db)).
Proof. unfold parseServiceResult, bind; destruct (m db) as [[e|[a|c msg]] db']; reflexivity. Qed.

Lemma parse_valid {A} (m : M (ServiceResult A)) db a db' :
  m db = (inr (ValidResult a), db') -> parseServiceResult m db = (inr a, db').
Proof. intros H; unfold parseServiceResult; rewrite (bind_inr _ _ _ _ _ H); reflexivity. Qed.

Lemma parse_exn {A} (m : M (ServiceResult A)) db e db' :
  m db = (inl e, db') -> parseServiceResult m db = (inl e, db').
Proof. intros H; unfold parseServiceResult; rewrite (bind_inl _ _ _ _ _ H); reflexivity. Qed.
