(* ===== verification/Codec.v ===== *)
(** * Permission codec

    A permission list is stored as one string.  src/permissions/clear.ts
    encodes inline: [.map(x => `${x.module}:${x.permission}`).sort().join(",")]
    (lines 41-43).  The decoder lives in src/permissions/get.ts, which is not
    under src/; it is modelled from the specification (section 4.3): an empty
    string is the empty list, otherwise split on [","] and split each token
    on its first [":"]; a token without [":"] or with an empty side is a
    [MalformedPermissionToken].

    The theorems: decoding an encoding returns the list up to permutation
    (round trip), the encoding is invariant under permutation (a [Proper]
    instance), one pass of decode-then-encode is a fixed point, and whatever
    [decode] accepts is well formed. *)

From Stdlib Require Import String Ascii List Bool Arith Lia.
From Stdlib Require Import Sorting.Permutation Sorting.Sorted Morphisms.
From S2P Require Import Prelude Store.
Import ListNotations.
Open Scope string_scope.

(** [interface IPermission { module: string; permission: string }] *)
Record IPermission := mkPermission {
  module : string;
  permission : string
}.

(** ** Encoding *)

(** [`${x.module}:${x.permission}`] *)
Definition token (p : IPermission) : string :=
  module p ++ ":" ++ permission p.

(** [Array.prototype.sort()] on an array of strings. *)
Definition js_sort (l : list string) : list string := isort String.leb l.

(** [Array.prototype.join(sep)]. *)
Definition join (sep : string) (l : list string) : string := String.concat sep l.

(** The canonical form of a permission list. *)
Definition encode (ps : list IPermission) : string :=
  join "," (js_sort (map token ps)).

(** ** Decoding *)

Fixpoint has_char (c : ascii) (s : string) : bool :=
  match s with
  | EmptyString => false
  | String x s' => Ascii.eqb x c || has_char c s'
  end.

(** [String.prototype.split(c)] for a one-character separator: always at
    least one piece. *)
Fixpoint split_on (c : ascii) (s : string) : list string :=
  match s with
  | EmptyString => [EmptyString]
  | String x s' =>
      if Ascii.eqb x c then EmptyString :: split_on c s'
      else match split_on c s' with
           | [] => [String x EmptyString]
           | w :: ws => String x w :: ws
           end
  end.

(** The text before and after the first occurrence of [c]. *)
Fixpoint split_first (c : ascii) (s : string) : option (string * string) :=
  match s with
  | EmptyString => None
  | String x s' =>
      if Ascii.eqb x c then Some (EmptyString, s')
      else match split_first c s' with
           | Some (a, b) => Some (String x a, b)
           | None => None
           end
  end.

Definition parse_token (t : string) : option IPermission :=
  match split_first ":" t with
  | Some (m, l) => if (m =? "") || (l =? "") then None else Some (mkPermission m l)
  | None => None
  end.

Fixpoint parse_tokens (ts : list string) : Exn + list IPermission :=
  match ts with
  | [] => inr []
  | t :: ts' =>
      match parse_token t with
      | None => inl (MalformedPermissionToken t)
      | Some p =>
          match parse_tokens ts' with
          | inl e => inl e
          | inr ps => inr (p :: ps)
          end
      end
  end.

Definition decode (s : string) : Exn + list IPermission :=
  if s =? "" then inr [] else parse_tokens (split_on "," s).

(** A permission whose token decodes back to itself. *)
Definition wf_perm (p : IPermission) : bool :=
  negb (module p =? "") && negb (permission p =? "") &&
  negb (has_char ":" (module p)) && negb (has_char "," (module p)) &&
  negb (has_char "," (permission p)).

(** ** Characters, splitting and joining *)

Section Chars.
Variable c : ascii.

Lemma has_char_app a b : has_char c (a ++ b) = has_char c a || has_char c b.
Proof. induction a as [|x a IH]; simpl; [reflexivity|]. rewrite IH, orb_assoc; reflexivity. Qed.

Lemma split_on_no_char w : has_char c w = false -> split_on c w = [w].
Proof.
  induction w as [|x w IH]; simpl; [reflexivity|].
  destruct (Ascii.eqb_spec x c); simpl; [discriminate|]. intros H; rewrite IH by exact H; reflexivity.
Qed.

Lemma split_on_app w r :
  has_char c w = false -> split_on c (w ++ String c r) = w :: split_on c r.
Proof.
  induction w as [|x w IH]; simpl.
  - rewrite Ascii.eqb_refl; reflexivity.
  - destruct (Ascii.eqb_spec x c); simpl; [discriminate|]. intros H; rewrite IH by exact H; reflexivity.
Qed.

Lemma split_on_concat ws :
  ws <> [] -> Forall (fun w => has_char c w = false) ws ->
  split_on c (String.concat (String c EmptyString) ws) = ws.
Proof.
  induction ws as [|w ws IH]; intros Hne Hf; [congruence|]. inv Hf.
  destruct ws as [|w' ws]; simpl.
  - apply split_on_no_char; assumption.
  - simpl in IH; rewrite split_on_app by assumption; f_equal; apply IH; [discriminate | assumption].
Qed.

(** Every piece of a split is free of the separator, and of any character
    the input is free of. *)
Lemma split_on_pieces s w d :
  In w (split_on c s) -> has_char d w = true -> has_char d s = true /\ d <> c.
Proof.
  revert w; induction s as [|x s IH]; simpl; intros w Hin Hd.
  - destruct Hin as [<-|[]]; discriminate.
  - destruct (Ascii.eqb_spec x c) as [->|Hxc].
    + destruct Hin as [<-|Hin]; [discriminate|].
      destruct (IH w Hin Hd) as [H1 H2]; rewrite H1, ?orb_true_r; auto.
    + destruct (split_on c s) as [|w0 ws] eqn:E.
      * destruct Hin as [<-|[]]; simpl in Hd.
        destruct (Ascii.eqb_spec x d) as [<-|]; [auto | discriminate].
      * destruct Hin as [<-|Hin]; simpl in Hd.
        -- destruct (Ascii.eqb_spec x d) as [<-|]; simpl; [split; auto|].
           destruct (IH w0 (or_introl eq_refl) Hd) as [H1 H2]; rewrite H1, ?orb_true_r; auto.
        -- destruct (IH w (or_intror Hin) Hd) as [H1 H2]; rewrite H1, ?orb_true_r; auto.
Qed.

Lemma split_first_app a b : has_char c a = false -> split_first c (a ++ String c b) = Some (a, b).
Proof.
  induction a as [|x a IH]; simpl.
  - rewrite Ascii.eqb_refl; reflexivity.
  - destruct (Ascii.eqb_spec x c); simpl; [discriminate|]. intros H; rewrite IH by exact H; reflexivity.
Qed.

Lemma split_first_spec s a b :
  split_first c s = Some (a, b) -> s = a ++ String c b /\ has_char c a = false.
Proof.
  revert a; induction s as [|x s IH]; simpl; intros a H; [discriminate|].
  destruct (Ascii.eqb_spec x c) as [->|Hxc]; [inv H; auto|].
  destruct (split_first c s) as [[a' b']|] eqn:E; inv H.
  destruct (IH a' eq_refl) as [-> Ha]; simpl; split; [reflexivity|].
  destruct (Ascii.eqb_spec x c); [contradiction | exact Ha].
Qed.
End Chars.

Lemma concat_nonempty sep ws :
  Forall (fun w => w <> "") ws -> ws <> [] -> String.concat sep ws <> "".
Proof.
  intros Hf Hne; destruct ws as [|w [|w' ws]]; [congruence| |]; inv Hf; simpl; [assumption|].
  destruct w; [congruence | discriminate].
Qed.

(** ** The sort of the encoding *)

(** Any algorithm JavaScript's [sort] may use gives the same array as
    the model's insertion sort: a sorted permutation of a list of strings
    (in code-unit order) is [js_sort] of it. *)
Lemma js_sort_unique (l l' : list string) :
  Sorted (fun a b => String.leb a b = true) l' -> Permutation l l' -> js_sort l = l'.
Proof.
  apply isort_unique; [exact string_leb_total | exact string_leb_trans | exact String.leb_antisym].
Qed.

Lemma js_sort_perm (l : list string) : Permutation l (js_sort l).
Proof. apply isort_perm. Qed.

Lemma js_sort_perm_eq (l l' : list string) : Permutation l l' -> js_sort l = js_sort l'.
Proof.
  apply isort_perm_eq; [exact string_leb_total | exact string_leb_trans | exact String.leb_antisym].
Qed.

(** ** Tokens of well-formed permissions *)

Lemma wf_perm_iff p :
  wf_perm p = true <->
  module p <> "" /\ permission p <> "" /\ has_char ":" (module p) = false /\
  has_char "," (module p) = false /\ has_char "," (permission p) = false.
Proof.
  unfold wf_perm; rewrite !andb_true_iff, !negb_true_iff, !String.eqb_neq; tauto.
Qed.

Lemma parse_token_token p : wf_perm p = true -> parse_token (token p) = Some p.
Proof.
  intros (Hm & Hp & Hc & _)%wf_perm_iff; destruct p as [m l]; simpl in *.
  unfold parse_token, token; simpl; change (":" ++ l) with (String ":" l).
  rewrite split_first_app by exact Hc.
  apply String.eqb_neq in Hm, Hp; simpl; rewrite Hm, Hp; reflexivity.
Qed.

Lemma token_no_comma p : wf_perm p = true -> has_char "," (token p) = false.
Proof.
  intros (_ & _ & _ & Hm & Hp)%wf_perm_iff; unfold token.
  rewrite has_char_app; simpl; rewrite Hm, Hp; reflexivity.
Qed.

Lemma token_nonempty p : token p <> "".
Proof. unfold token; destruct (module p); discriminate. Qed.

Lemma parse_tokens_map ps :
  Forall (fun p => wf_perm p = true) ps -> parse_tokens (map token ps) = inr ps.
Proof.
  induction 1 as [|p ps Hp _ IH]; simpl; [reflexivity|].
  rewrite parse_token_token, IH by exact Hp; reflexivity.
Qed.

Lemma decode_tokens ps :
  Forall (fun p => wf_perm p = true) ps -> decode (join "," (map token ps)) = inr ps.
Proof.
  intros Hwf; destruct ps as [|p ps']; [reflexivity|]; unfold decode, join.
  rewrite (proj2 (String.eqb_neq _ _)).
  2: { apply concat_nonempty; [apply Forall_forall; intros w (q & <- & _)%in_map_iff;
                               apply token_nonempty | discriminate]. }
  rewrite split_on_concat; [apply parse_tokens_map, Hwf | discriminate |].
  apply Forall_map; eapply Forall_impl; [|exact Hwf]; apply token_no_comma.
Qed.

Lemma Forall_perm {A} (P : A -> Prop) l l' : Permutation l l' -> Forall P l -> Forall P l'.
Proof.
  intros Hp; rewrite !Forall_forall; intros H x Hx; apply H.
  eapply Permutation_in; [symmetry; exact Hp | exact Hx].
Qed.

(** ** Decoded permissions are well formed *)

Lemma parse_token_wf t p :
  parse_token t = Some p -> has_char "," t = false -> wf_perm p = true.
Proof.
  unfold parse_token; destruct (split_first ":" t) as [[m l]|] eqn:E; [|discriminate].
  apply split_first_spec in E as [-> Hc].
  destruct ((m =? "") || (l =? "")) eqn:Hne; intros H; [discriminate|]; inv H.
  apply orb_false_iff in Hne as [Hm Hl]; apply String.eqb_neq in Hm, Hl.
  rewrite has_char_app; simpl; intros Hcomma; apply orb_false_iff in Hcomma as [Hm' Hl'].
  apply wf_perm_iff; simpl; tauto.
Qed.

Lemma parse_tokens_wf ts ps :
  parse_tokens ts = inr ps -> Forall (fun t => has_char "," t = false) ts ->
  Forall (fun p => wf_perm p = true) ps.
Proof.
  revert ps; induction ts as [|t ts IH]; simpl; intros ps H Hts; [inv H; constructor|].
  inv Hts. destruct (parse_token t) as [p|] eqn:Ep; [|discriminate].
  destruct (parse_tokens ts) as [e|ps'] eqn:Ets; inv H.
  constructor; [eapply parse_token_wf; eauto | apply IH; auto].
Qed.

(** ** The encoding does not depend on the order of the list *)

Lemma encode_perm ps ps' : Permutation ps ps' -> encode ps = encode ps'.
Proof. intros Hp; unfold encode; f_equal; apply js_sort_perm_eq, Permutation_map, Hp. Qed.

#[export] Instance encode_Proper : Proper (@Permutation IPermission ==> eq) encode.
Proof. intros ps ps' Hp; apply encode_perm, Hp. Qed.

Lemma forallb_wf ps : forallb wf_perm ps = true <-> Forall (fun p => wf_perm p = true) ps.
Proof. rewrite forallb_forall, Forall_forall; reflexivity. Qed.

(** The encoding is the list of tokens of a permutation of the input,
    in sorted order. *)
Lemma encode_tokens ps :
  exists ps', encode ps = join "," (map token ps') /\ Permutation ps ps' /\
              map token ps' = js_sort (map token ps).
Proof.
  destruct (Permutation_map_inv token (l1 := js_sort (map token ps)) ps) as (ps' & Heq & Hp).
  { symmetry; apply js_sort_perm. }
  exists ps'; unfold encode; rewrite Heq; auto.
Qed.

(** ** Round trip *)

(** The round trip on lists of well-formed permissions. *)
Lemma roundtrip ps :
  Forall (fun p => wf_perm p = true) ps ->
  exists ps', decode (encode ps) = inr ps' /\ Permutation ps ps' /\ map token ps' = js_sort (map token ps).
Proof.
  intros Hwf; destruct (encode_tokens ps) as (ps' & Henc & Hp & Hs).
  exists ps'; rewrite Henc; split; [|split; assumption].
  apply decode_tokens; eapply Forall_perm; eauto.
Qed.

(** A stored string that [getPermissionsForUser] can read. *)
Definition decodable (s : string) : bool :=
  match decode s with inr _ => true | inl _ => false end.

Lemma decodable_encode ps : Forall (fun p => wf_perm p = true) ps -> decodable (encode ps) = true.
Proof. intros H; destruct (roundtrip ps H) as (ps' & E & _); unfold decodable; rewrite E; reflexivity. Qed.

(** C2. Decoding the encoding of a list of well-formed permissions gives
    back the same permissions, in the sorted order of their tokens: the
    decoded list is a permutation of the input whose tokens are, in order,
    the sorted tokens of the input; and that list has the same encoding. *)
Theorem decode_encode ps :
  forallb wf_perm ps = true ->
  exists ps', decode (encode ps) = inr ps' /\ Permutation ps ps' /\
              map token ps' = js_sort (map token ps) /\ encode ps' = encode ps.
Proof.
  intros Hwf%forallb_wf; destruct (roundtrip ps Hwf) as (ps' & Hdec & Hp & Hs).
  exists ps'; repeat split; [exact Hdec | exact Hp | exact Hs | symmetry; apply encode_perm, Hp].
Qed.

Lemma decode_encode_witness :
  exists ps', decode (encode [mkPermission "docs" "write"; mkPermission "blog" "read:all"]) = inr ps'
    /\ Permutation [mkPermission "docs" "write"; mkPermission "blog" "read:all"] ps'
    /\ map token ps' = js_sort (map token [mkPermission "docs" "write"; mkPermission "blog" "read:all"])
    /\ encode ps' = encode [mkPermission "docs" "write"; mkPermission "blog" "read:all"].
Proof. apply decode_encode; reflexivity. Defined.

Lemma decoded_wf s ps : decode s = inr ps -> Forall (fun p => wf_perm p = true) ps.
Proof.
  unfold decode; intros H.
  destruct (s =? "") eqn:Es; [inv H; constructor|].
  eapply parse_tokens_wf; [exact H|]; apply Forall_forall; intros w Hw.
  destruct (has_char "," w) eqn:Hc; [|reflexivity].
  destruct (split_on_pieces "," s w "," Hw Hc) as [_ []]; reflexivity.
Qed.

(** Whatever [decode] accepts is well formed: every module and level is
    non-empty, no module holds [":"], and nothing holds [","]. *)
Theorem decode_wf s ps : decode s = inr ps -> forallb wf_perm ps = true.
Proof. intros H; apply forallb_wf, (decoded_wf s ps H). Qed.

(** C23. One pass of decode-then-encode reaches the canonical form: decoding
    the re-encoded list succeeds and re-encoding it changes nothing, whatever
    order the stored string had. *)
Theorem encode_decode_fixpoint s ps :
  decode s = inr ps ->
  exists ps', decode (encode ps) = inr ps' /\ encode ps' = encode ps /\ Permutation ps ps'.
Proof.
  intros H; destruct (roundtrip ps (decoded_wf s ps H)) as (ps' & H1 & H2 & _).
  exists ps'; split; [exact H1 | split; [symmetry; apply encode_perm, H2 | exact H2]].
Qed.

Lemma encode_decode_fixpoint_witness :
  exists ps', decode (encode [mkPermission "docs" "write"; mkPermission "blog" "read"]) = inr ps'
    /\ encode ps' = encode [mkPermission "docs" "write"; mkPermission "blog" "read"]
    /\ Permutation [mkPermission "docs" "write"; mkPermission "blog" "read"] ps'.
Proof. apply (encode_decode_fixpoint "docs:write,blog:read"); reflexivity. Defined.

(** C3. On well-formed lists the encoding is canonical: two lists have the
    same encoding exactly when one is a permutation of the other. *)
Theorem encode_canonical ps1 ps2 :
  forallb wf_perm ps1 = true -> forallb wf_perm ps2 = true ->
  encode ps1 = encode ps2 <-> Permutation ps1 ps2.
Proof.
  intros Hw1 Hw2; split; [|apply encode_perm].
  intros Heq; destruct (encode_tokens ps1) as (q1 & E1 & P1 & _), (encode_tokens ps2) as (q2 & E2 & P2 & _).
  apply forallb_wf in Hw1, Hw2.
  assert (D1 := decode_tokens q1 (Forall_perm _ _ _ P1 Hw1)).
  assert (D2 := decode_tokens q2 (Forall_perm _ _ _ P2 Hw2)).
  rewrite <- E1, Heq, E2, D2 in D1; inv D1.
  eapply perm_trans; [exact P1 | symmetry; exact P2].
Qed.

Lemma encode_canonical_witness :
  encode [mkPermission "b" "x"; mkPermission "a" "y"] = encode [mkPermission "a" "y"; mkPermission "b" "x"].
Proof.
  apply (encode_canonical [mkPermission "b" "x"; mkPermission "a" "y"] [mkPermission "a" "y"; mkPermission "b" "x"]);
    [reflexivity | reflexivity | apply perm_swap].
Defined.
