(* ===== verification/UserGet.v ===== *)
(** * Account registry: src/user/get.ts

    [findUser] dispatches on the first selector that is a non-empty string
    (domain, then username, then external id) to one of three lookups in the
    [scuttlespace_user] table; each lookup returns the first matching row, or
    [undefined].  The theorems: lookups never write, a lookup by a key that
    is unique in the table returns exactly that row, a missing key gives
    [undefined], [findUser] follows its priority and raises INVALID_ARGS when
    no selector is given, and (against the specification) a duplicated key
    is resolved by picking the first row instead of raising. *)

From Stdlib Require Import String List Bool Arith Lia.
From S2P Require Import Prelude Store.
Import ListNotations.
Open Scope string_scope.

Module UserGet.

(** [interface IGetUserResult] *)
Record IGetUserResult := mkGetUserResult {
  about : string;
  domain : option string;
  enabled : bool;
  externalId : string;
  username : string
}.

(** [interface IFindUserArgs]: each selector is optional. *)
Record IFindUserArgs := mkFindUserArgs {
  arg_domain : option string;
  arg_externalId : option string;
  arg_username : option string
}.

(** JavaScript truthiness of an optional string: [undefined] and [""] are
    false. *)
Definition truthy (o : option string) : option string :=
  match o with
  | Some s => if s =? "" then None else Some s
  | None => None
  end.

(** Lines 42-66. *)
Definition getUserByExternalId (externalId : string) : M (ServiceResult (option IGetUserResult)) :=
  rows <- select scuttlespace_user_tbl (fun r => network_id r ==? externalId) ;;
  ret (ValidResult
    match rows with
    | r :: _ => Some {| about := Store.about r; domain := Store.domain r;
                        enabled := Store.enabled r; externalId := externalId;
                        username := Store.username r |}
    | [] => None
    end).

(** Lines 68-92.  SQL's [domain = $1] never matches a NULL domain. *)
Definition getUserByDomain (domain : string) : M (ServiceResult (option IGetUserResult)) :=
  rows <- select scuttlespace_user_tbl (fun r => Store.domain r ==? Some domain) ;;
  ret (ValidResult
    match rows with
    | r :: _ => Some {| about := Store.about r; domain := Store.domain r;
                        enabled := Store.enabled r; externalId := network_id r;
                        username := Store.username r |}
    | [] => None
    end).

(** Lines 94-118. *)
Definition getUserByUsername (username : string) : M (ServiceResult (option IGetUserResult)) :=
  rows <- select scuttlespace_user_tbl (fun r => Store.username r ==? username) ;;
  ret (ValidResult
    match rows with
    | r :: _ => Some {| about := Store.about r; domain := Store.domain r;
                        enabled := Store.enabled r; externalId := network_id r;
                        username := username |}
    | [] => None
    end).

(** Lines 25-40. *)
Definition findUser (args : IFindUserArgs) : M (ServiceResult (option IGetUserResult)) :=
  match truthy (arg_domain args) with
  | Some d => getUserByDomain d
  | None =>
      match truthy (arg_username args) with
      | Some u => getUserByUsername u
      | None =>
          match truthy (arg_externalId args) with
          | Some e => getUserByExternalId e
          | None => exception "INVALID_ARGS"
                      "One of username, domain or externalId needs to be specified."
          end
      end
  end.

(** The account a row describes. *)
Definition row_result (r : AccountRow) : IGetUserResult :=
  {| about := Store.about r; domain := Store.domain r; enabled := Store.enabled r;
     externalId := network_id r; username := Store.username r |}.

(** ** Specification of [findUser]

    The selector [findUser] acts on, by priority, and the rows it selects. *)
Inductive Selector :=
| ByDomain (d : string)
| ByUsername (u : string)
| ByExternalId (e : string).

Definition selector (args : IFindUserArgs) : option Selector :=
  match truthy (arg_domain args), truthy (arg_username args), truthy (arg_externalId args) with
  | Some d, _, _ => Some (ByDomain d)
  | None, Some u, _ => Some (ByUsername u)
  | None, None, Some e => Some (ByExternalId e)
  | None, None, None => None
  end.

Definition selects (s : Selector) (r : AccountRow) : bool :=
  match s with
  | ByDomain d => Store.domain r ==? Some d
  | ByUsername u => Store.username r ==? u
  | ByExternalId e => network_id r ==? e
  end.

Lemma filter_cons_true {A} (p : A -> bool) l r rs : filter p l = r :: rs -> p r = true.
Proof.
  induction l as [|x l IH]; simpl; [discriminate|].
  destruct (p x) eqn:E; [intros H; inv H; exact E | exact IH].
Qed.

(** Each lookup returns the first row its predicate selects. *)
Lemma lookup_first (s : Selector) db :
  match s with
  | ByDomain d => getUserByDomain d
  | ByUsername u => getUserByUsername u
  | ByExternalId e => getUserByExternalId e
  end db =
  (inr (ValidResult (option_map row_result (hd_error (filter (selects s) (scuttlespace_user db))))), db).
Proof.
  destruct s as [k|k|k]; cbv [selects];
    unfold getUserByDomain, getUserByUsername, getUserByExternalId, select, bind, ret; simpl;
    match goal with |- context [filter ?p ?l] => destruct (filter p l) as [|r rs] eqn:E end;
    try reflexivity;
    apply filter_cons_true in E; simpl in E; try (apply String.eqb_eq in E; subst); reflexivity.
Qed.

(** [findUser] only reads. *)
Lemma findUser_readonly args db : snd (findUser args db) = db.
Proof.
  unfold findUser.
  destruct (truthy (arg_domain args)) as [d|]; [rewrite (lookup_first (ByDomain d)); reflexivity|].
  destruct (truthy (arg_username args)) as [u|]; [rewrite (lookup_first (ByUsername u)); reflexivity|].
  destruct (truthy (arg_externalId args)) as [e|]; [rewrite (lookup_first (ByExternalId e)) |]; reflexivity.
Qed.

(** What [findUser] answers depends on [scuttlespace_user] alone. *)
Lemma findUser_view args db1 db2 :
  scuttlespace_user db1 = scuttlespace_user db2 -> fst (findUser args db1) = fst (findUser args db2).
Proof.
  intros H; unfold findUser.
  destruct (truthy (arg_domain args)) as [d|]; [rewrite !(lookup_first (ByDomain d)), H; reflexivity|].
  destruct (truthy (arg_username args)) as [u|]; [rewrite !(lookup_first (ByUsername u)), H; reflexivity|].
  destruct (truthy (arg_externalId args)) as [e|]; [rewrite !(lookup_first (ByExternalId e)), H |]; reflexivity.
Qed.

Definition invalid_args_message : string :=
  "One of username, domain or externalId needs to be specified.".

(** C24. [findUser] acts on the first non-empty selector among domain,
    username and external id, never writes, returns the first row of
    [scuttlespace_user] that selector matches (or [undefined]), and raises
    INVALID_ARGS when no selector is a non-empty string. *)
Theorem findUser_spec args db :
  findUser args db =
  match selector args with
  | None => (inl (ServiceException "INVALID_ARGS" invalid_args_message), db)
  | Some s => (inr (ValidResult (option_map row_result
                   (hd_error (filter (selects s) (scuttlespace_user db))))), db)
  end.
Proof.
  unfold findUser, selector.
  destruct (truthy (arg_domain args)) as [d|];
    [apply (lookup_first (ByDomain d))|].
  destruct (truthy (arg_username args)) as [u|];
    [apply (lookup_first (ByUsername u))|].
  destruct (truthy (arg_externalId args)) as [e|];
    [apply (lookup_first (ByExternalId e)) | reflexivity].
Qed.

Definition by_external_id (e : string) : IFindUserArgs :=
  {| arg_domain := None; arg_externalId := Some e; arg_username := None |}.

(** The lookup by external id that other components issue. *)
Lemma findUser_external_id e db :
  e <> "" ->
  findUser (by_external_id e) db =
  (inr (ValidResult (option_map row_result (hd_error (with_key network_id e (scuttlespace_user db))))), db).
Proof.
  intros Hne; unfold findUser, by_external_id, truthy; cbn -[String.eqb getUserByExternalId].
  apply String.eqb_neq in Hne; rewrite Hne; apply (lookup_first (ByExternalId e)).
Qed.

Lemma findUser_external_id_empty db :
  findUser (by_external_id "") db = (inl (ServiceException "INVALID_ARGS" invalid_args_message), db).
Proof. reflexivity. Qed.

(** C33. When external ids are unique in [scuttlespace_user], looking an
    account up by its (non-empty) external id returns exactly that account. *)
Theorem findUser_by_external_id db r :
  unique_key network_id (scuttlespace_user db) -> In r (scuttlespace_user db) ->
  network_id r <> "" ->
  findUser (by_external_id (network_id r)) db = (inr (ValidResult (Some (row_result r))), db).
Proof.
  intros Hu Hin Hne; rewrite (findUser_external_id _ _ Hne).
  rewrite (with_key_unique network_id _ r Hu Hin); reflexivity.
Qed.

Definition alice : AccountRow :=
  mkAccountRow "n1" "alice" (Some "alice.example") "hello" true.

Definition db_one_user : DB :=
  {| account := []; scuttlespace_user := [alice]; account_permissions := [];
     user_permissions := [] |}.

Lemma findUser_by_external_id_witness :
  unique_key network_id (scuttlespace_user db_one_user) /\
  findUser (by_external_id "n1") db_one_user = (inr (ValidResult (Some (row_result alice))), db_one_user).
Proof.
  split; [decide_unique|].
  apply (findUser_by_external_id db_one_user alice);
    [decide_unique | left; reflexivity | discriminate].
Defined.

(** Against the specification, which asks for an integrity error when
    a unique selector finds several rows, [getUserByExternalId] silently
    returns the first of two rows with the same external id. *)
Example findUser_duplicate_picks_first :
  let dup := mkAccountRow "n1" "mallory" None "" true in
  let db := {| account := []; scuttlespace_user := [alice; dup];
               account_permissions := []; user_permissions := [] |} in
  findUser (by_external_id "n1") db = (inr (ValidResult (Some (row_result alice))), db).
Proof. reflexivity. Qed.

End UserGet.
