(* ===== verification/AccountStatus.v ===== *)
(** * Username availability: src/account/get-status.ts

    [getUsernameAvailability] looks the username up in [account] and
    classifies it as AVAILABLE (no row), OWN (the one row belongs to the
    claimant) or TAKEN (it belongs to someone else); more than one row is an
    integrity error raised by [errors.singleOrNone].  The theorems: on a
    table with unique usernames the three outcomes are exactly the three
    cases of the specification, the lookup never writes, and duplicated
    usernames raise. *)

From Stdlib Require Import String List Bool Arith Lia.
From S2P Require Import Prelude Store.
Import ListNotations.
Open Scope string_scope.

Module AccountStatus.

(** [enum AccountStatus] *)
Inductive AccountStatus := Available | Taken | Own.

(** [interface IAccountStatusCheckResult] *)
Record IAccountStatusCheckResult := mkStatusResult { status : AccountStatus }.

(** Lines 21-46. *)
Definition getUsernameAvailability (username externalId : string)
  : M (ServiceResult IAccountStatusCheckResult) :=
  rows <- select account_tbl (fun r => Store.username r ==? username) ;;
  result <- (if Nat.eqb (length rows) 0 then ret {| status := Available |}
             else if Nat.ltb 1 (length rows) then singleOrNone_many rows
             else match rows with
                  | r :: _ => ret (if network_id r ==? externalId
                                   then {| status := Own |} else {| status := Taken |})
                  | [] => throw UndefinedRow
                  end) ;;
  ret (ValidResult result).

(** The outcome as a function of the rows holding the username. *)
Lemma availability_rows u e db :
  getUsernameAvailability u e db =
  match with_key Store.username u (account db) with
  | [] => (inr (ValidResult {| status := Available |}), db)
  | [r] => (inr (ValidResult {| status := if network_id r ==? e then Own else Taken |}), db)
  | rows => (inl (SingleOrNoneViolation (length rows)), db)
  end.
Proof.
  unfold getUsernameAvailability.
  rewrite (bind_inr _ _ db (with_key Store.username u (account db)) db) by reflexivity.
  destruct (with_key Store.username u (account db)) as [|r [|r' rows]];
    [reflexivity | destruct (network_id r ==? e); reflexivity | reflexivity].
Qed.

(** The check only reads. *)
Lemma availability_readonly u e db : snd (getUsernameAvailability u e db) = db.
Proof.
  rewrite availability_rows.
  destruct (with_key Store.username u (account db)) as [|r [|r' rows]]; reflexivity.
Qed.

(** C5. On an [account] table with unique usernames,
    [getUsernameAvailability u e] never writes and answers OWN exactly when
    an account holds [u] and its identity is [e], TAKEN exactly when an
    account holds [u] with another identity, and AVAILABLE exactly when no
    account holds [u]. *)
Theorem availability_cases u e db :
  unique_key Store.username (account db) ->
  exists s, getUsernameAvailability u e db = (inr (ValidResult {| status := s |}), db) /\
    (s = Own <-> exists r, In r (account db) /\ Store.username r = u /\ network_id r = e) /\
    (s = Taken <-> exists r, In r (account db) /\ Store.username r = u /\ network_id r <> e) /\
    (s = Available <-> forall r, In r (account db) -> Store.username r <> u).
Proof.
  intros Hu; rewrite availability_rows.
  pose proof (with_key_length Store.username u _ Hu) as Hlen.
  pose proof (fun r => in_with_key Store.username u (account db) r) as Hin.
  destruct (with_key Store.username u (account db)) as [|r [|r' rows]] eqn:E; simpl in Hlen; [| |lia].
  - assert (Hno : forall r, In r (account db) -> Store.username r <> u)
      by (intros r Hr Hru; apply (proj2 (Hin r)); auto).
    exists Available; split; [reflexivity|].
    split; [|split]; [| |split; [intros _; exact Hno | intros _; reflexivity]];
      (split; [discriminate | intros (r & Hr & Hru & _); exfalso; eapply Hno; eauto]).
  - assert (Hr : In r (account db) /\ Store.username r = u) by (apply Hin; left; auto).
    assert (Honly : forall r0, In r0 (account db) -> Store.username r0 = u -> r0 = r)
      by (intros r0 H0 H1; destruct (proj2 (Hin r0) (conj H0 H1)) as [->|[]]; reflexivity).
    assert (Hnot : ~ forall r0, In r0 (account db) -> Store.username r0 <> u)
      by (intros H; apply (H r); tauto).
    exists (if network_id r ==? e then Own else Taken); split; [reflexivity|].
    destr_key (network_id r) e; (split; [|split]); split; try discriminate;
      try (intros _; reflexivity); try (intros H; contradiction);
      try (intros _; exists r; tauto);
      intros (r0 & H0 & H1 & H2); rewrite (Honly r0 H0 H1) in H2; congruence.
Qed.

Definition db_alice : DB :=
  {| account := [mkAccountRow "n1" "alice" None "" false]; scuttlespace_user := [];
     account_permissions := []; user_permissions := [] |}.

Lemma availability_cases_witness :
  exists s, getUsernameAvailability "alice" "n1" db_alice = (inr (ValidResult {| status := s |}), db_alice) /\
    (s = Own <-> exists r, In r (account db_alice) /\ Store.username r = "alice" /\ network_id r = "n1") /\
    (s = Taken <-> exists r, In r (account db_alice) /\ Store.username r = "alice" /\ network_id r <> "n1") /\
    (s = Available <-> forall r, In r (account db_alice) -> Store.username r <> "alice").
Proof. apply availability_cases; decide_unique. Defined.

(** C31. Two or more accounts holding the same username make
    [getUsernameAvailability] raise the integrity error of
    [errors.singleOrNone], without writing. *)
Theorem availability_duplicate u e db :
  1 < length (with_key Store.username u (account db)) ->
  getUsernameAvailability u e db =
  (inl (SingleOrNoneViolation (length (with_key Store.username u (account db)))), db).
Proof.
  intros H; rewrite availability_rows.
  destruct (with_key Store.username u (account db)) as [|r [|r' rows]]; simpl in *; [lia | lia | reflexivity].
Qed.

Lemma availability_duplicate_witness :
  let db := {| account := [mkAccountRow "n1" "alice" None "" false; mkAccountRow "n2" "alice" None "" true];
               scuttlespace_user := []; account_permissions := []; user_permissions := [] |} in
  getUsernameAvailability "alice" "n1" db = (inl (SingleOrNoneViolation 2), db).
Proof. intros db; apply (availability_duplicate "alice" "n1" db); simpl; lia. Defined.

End AccountStatus.
