(* ===== verification/ModifyAccount.v ===== *)
(** * Account lifecycle guard: src/modify-account.ts

    Every editor first calls [ensureAccountExists], which raises
    USER_NOT_FOUND when no [account] row has the network id, then issues one
    UPDATE of one column.  [destroy] re-reads the row after the guard and
    deletes it only when it is disabled; an enabled account is refused with
    the error result CANNOT_DELETE_ACTIVE_ACCOUNT.  The theorems: on a
    missing account every operation raises without writing; otherwise each
    editor writes exactly its column of the matching rows; [destroy] refuses
    an enabled account and leaves the table as it was, deletes a disabled
    one, and never reads past the end of the re-read rows. *)

From Stdlib Require Import String List Bool Arith Lia.
From S2P Require Import Prelude Store.
Import ListNotations.
Open Scope string_scope.

Module ModifyAccount.

(** [WHERE network_id = $network_id] *)
Definition by_network_id (networkId : string) (r : AccountRow) : bool :=
  network_id r ==? networkId.

(** Lines 11-30. *)
Definition ensureAccountExists (networkId : string) : M unit :=
  existing <- select account_tbl (by_network_id networkId) ;;
  if Nat.eqb (length existing) 0
  then exception "USER_NOT_FOUND" ("The user " ++ networkId ++ " does not exist.")
  else ret tt.

(** The SET clauses. *)
Definition set_about (a : string) (r : AccountRow) : AccountRow :=
  mkAccountRow (network_id r) (username r) (domain r) a (enabled r).
Definition set_domain (d : string) (r : AccountRow) : AccountRow :=
  mkAccountRow (network_id r) (username r) (Some d) (about r) (enabled r).
Definition set_username (u : string) (r : AccountRow) : AccountRow :=
  mkAccountRow (network_id r) u (domain r) (about r) (enabled r).
Definition set_enabled (b : bool) (r : AccountRow) : AccountRow :=
  mkAccountRow (network_id r) (username r) (domain r) (about r) b.

(** Lines 32-48. *)
Definition editAbout (about networkId : string) : M (ServiceResult unit) :=
  ensureAccountExists networkId ;;
  update account_tbl (by_network_id networkId) (set_about about) ;;
  ret (ValidResult tt).

(** Lines 50-66. *)
Definition editDomain (domain networkId : string) : M (ServiceResult unit) :=
  ensureAccountExists networkId ;;
  update account_tbl (by_network_id networkId) (set_domain domain) ;;
  ret (ValidResult tt).

(** Lines 68-84. *)
Definition editUsername (username networkId : string) : M (ServiceResult unit) :=
  ensureAccountExists networkId ;;
  update account_tbl (by_network_id networkId) (set_username username) ;;
  ret (ValidResult tt).

(** Lines 86-100. *)
Definition enable (networkId : string) : M (ServiceResult unit) :=
  ensureAccountExists networkId ;;
  update account_tbl (by_network_id networkId) (set_enabled true) ;;
  ret (ValidResult tt).

(** Lines 102-116. *)
Definition disable (networkId : string) : M (ServiceResult unit) :=
  ensureAccountExists networkId ;;
  update account_tbl (by_network_id networkId) (set_enabled false) ;;
  ret (ValidResult tt).

(** Lines 118-141.  [rows[0].enabled] on an empty result is a TypeError,
    modelled as [UndefinedRow]. *)
Definition destroy (networkId : string) : M (ServiceResult unit) :=
  ensureAccountExists networkId ;;
  rows <- select account_tbl (by_network_id networkId) ;;
  match rows with
  | [] => throw UndefinedRow
  | r :: _ =>
      if negb (enabled r)
      then delete account_tbl (by_network_id networkId) ;; ret (ValidResult tt)
      else ret (ErrorResult "CANNOT_DELETE_ACTIVE_ACCOUNT"
                            "An account in active status cannot be deleted.")
  end.

(** The exported operations of the file, by the column they write. *)
Inductive AccountEdit :=
| EditAbout (a : string)
| EditDomain (d : string)
| EditUsername (u : string)
| Enable
| Disable.

Definition run_edit (op : AccountEdit) (networkId : string) : M (ServiceResult unit) :=
  match op with
  | EditAbout a => editAbout a networkId
  | EditDomain d => editDomain d networkId
  | EditUsername u => editUsername u networkId
  | Enable => enable networkId
  | Disable => disable networkId
  end.

Definition edit_set (op : AccountEdit) : AccountRow -> AccountRow :=
  match op with
  | EditAbout a => set_about a
  | EditDomain d => set_domain d
  | EditUsername u => set_username u
  | Enable => set_enabled true
  | Disable => set_enabled false
  end.

Definition user_not_found (networkId : string) : Exn :=
  ServiceException "USER_NOT_FOUND" ("The user " ++ networkId ++ " does not exist.").

(** ** The guard *)

Lemma ensure_missing nid db :
  with_key network_id nid (account db) = [] ->
  ensureAccountExists nid db = (inl (user_not_found nid), db).
Proof.
  intros H; unfold ensureAccountExists.
  rewrite (bind_inr _ _ db (with_key network_id nid (account db)) db) by reflexivity.
  rewrite H; reflexivity.
Qed.

Lemma ensure_present nid db r rs :
  with_key network_id nid (account db) = r :: rs -> ensureAccountExists nid db = (inr tt, db).
Proof.
  intros H; unfold ensureAccountExists.
  rewrite (bind_inr _ _ db (with_key network_id nid (account db)) db) by reflexivity.
  rewrite H; reflexivity.
Qed.

(** The guard reads only the rows of its network id, and never writes. *)
Lemma ensure_run nid db :
  ensureAccountExists nid db =
  (match with_key network_id nid (account db) with [] => inl (user_not_found nid) | _ => inr tt end, db).
Proof.
  destruct (with_key network_id nid (account db)) as [|r rs] eqn:E;
    [apply ensure_missing | eapply ensure_present]; exact E.
Qed.

Lemma edit_set_key op r : network_id (edit_set op r) = network_id r.
Proof. destruct op; reflexivity. Qed.

Lemma edit_missing op nid db :
  with_key network_id nid (account db) = [] -> run_edit op nid db = (inl (user_not_found nid), db).
Proof.
  intros H; destruct op; unfold run_edit, editAbout, editDomain, editUsername, enable, disable;
    erewrite bind_inl by (apply ensure_missing, H); reflexivity.
Qed.

Lemma destroy_missing nid db :
  with_key network_id nid (account db) = [] -> destroy nid db = (inl (user_not_found nid), db).
Proof. intros H; unfold destroy; erewrite bind_inl by (apply ensure_missing, H); reflexivity. Qed.

Lemma edit_run op nid db r rs :
  with_key network_id nid (account db) = r :: rs ->
  run_edit op nid db =
  (inr (ValidResult tt), tset account_tbl (update_rows (by_network_id nid) (edit_set op) (account db)) db).
Proof.
  intros H; destruct op;
    unfold run_edit, editAbout, editDomain, editUsername, enable, disable;
    erewrite bind_inr by (eapply ensure_present, H); reflexivity.
Qed.

(** C6. When no [account] row has the network id, every editor and
    [destroy] raise USER_NOT_FOUND and leave the database as it was. *)
Theorem guard_missing nid db :
  with_key network_id nid (account db) = [] ->
  (forall op, run_edit op nid db = (inl (user_not_found nid), db)) /\
  destroy nid db = (inl (user_not_found nid), db).
Proof.
  intros H; split; [intros op; apply edit_missing, H | apply destroy_missing, H].
Qed.

Lemma guard_missing_witness :
  let db := {| account := []; scuttlespace_user := []; account_permissions := [];
               user_permissions := [] |} in
  with_key network_id "n1" (account db) = [] /\
  (forall op, run_edit op "n1" db = (inl (user_not_found "n1"), db)) /\
  destroy "n1" db = (inl (user_not_found "n1"), db).
Proof. intros db; split; [reflexivity | apply (guard_missing "n1" db); reflexivity]. Defined.

(** What an editor does to a row of its network id, column by column:
    the column of the operation takes the new value, every other column
    keeps its value. *)
Definition edits_row (op : AccountEdit) (r r' : AccountRow) : Prop :=
  network_id r' = network_id r /\
  username r' = match op with EditUsername u => u | _ => username r end /\
  domain r' = match op with EditDomain d => Some d | _ => domain r end /\
  about r' = match op with EditAbout a => a | _ => about r end /\
  enabled r' = match op with Enable => true | Disable => false | _ => enabled r end.

Lemma edit_set_row op r : edits_row op r (edit_set op r).
Proof. destruct op; repeat split. Qed.

(** C25. When the account exists, each editor succeeds and writes exactly
    its column of the rows with that network id: row by row, a row of that
    network id gets the new value in the column of the operation and keeps
    every other column, every other row is unchanged; the other tables are
    unchanged. *)
Theorem edit_present op nid db r rs :
  with_key network_id nid (account db) = r :: rs ->
  exists db', run_edit op nid db = (inr (ValidResult tt), db') /\
    Forall2 (fun r r' => if by_network_id nid r then edits_row op r r' else r' = r) (account db) (account db') /\
    scuttlespace_user db' = scuttlespace_user db /\
    account_permissions db' = account_permissions db /\
    user_permissions db' = user_permissions db.
Proof.
  intros H; rewrite (edit_run op nid db r rs H); eexists; split; [reflexivity|].
  split; [apply update_rows_Forall2; intros; apply edit_set_row | repeat split].
Qed.

Definition db_n1 (en : bool) : DB :=
  {| account := [mkAccountRow "n1" "alice" None "" en; mkAccountRow "n2" "bob" None "" true];
     scuttlespace_user := []; account_permissions := []; user_permissions := [] |}.

Lemma edit_present_witness :
  exists db', run_edit (EditAbout "hi") "n1" (db_n1 false) = (inr (ValidResult tt), db') /\
    Forall2 (fun r r' => if by_network_id "n1" r then edits_row (EditAbout "hi") r r' else r' = r)
            (account (db_n1 false)) (account db') /\
    scuttlespace_user db' = scuttlespace_user (db_n1 false) /\
    account_permissions db' = account_permissions (db_n1 false) /\
    user_permissions db' = user_permissions (db_n1 false).
Proof. eapply (edit_present (EditAbout "hi") "n1" (db_n1 false)); reflexivity. Defined.

(** ** Destroy *)

Lemma destroy_rows nid db r rs :
  with_key network_id nid (account db) = r :: rs ->
  destroy nid db =
  (if negb (enabled r)
   then (inr (ValidResult tt), tset account_tbl (delete_rows (by_network_id nid) (account db)) db)
   else (inr (ErrorResult "CANNOT_DELETE_ACTIVE_ACCOUNT"
                          "An account in active status cannot be deleted."), db)).
Proof.
  intros H; unfold destroy.
  erewrite bind_inr by (eapply ensure_present, H).
  rewrite (bind_inr _ _ db (with_key network_id nid (account db)) db) by reflexivity.
  rewrite H; destruct (negb (enabled r)); reflexivity.
Qed.

(** C7. [destroy] refuses an enabled account: it returns the error result
    CANNOT_DELETE_ACTIVE_ACCOUNT and the database is unchanged. *)
Theorem destroy_active nid db r rs :
  with_key network_id nid (account db) = r :: rs -> enabled r = true ->
  destroy nid db = (inr (ErrorResult "CANNOT_DELETE_ACTIVE_ACCOUNT"
                                     "An account in active status cannot be deleted."), db).
Proof. intros H He; rewrite (destroy_rows nid db r rs H), He; reflexivity. Qed.

Lemma destroy_active_witness :
  with_key network_id "n1" (account (db_n1 true)) = [mkAccountRow "n1" "alice" None "" true] /\
  destroy "n1" (db_n1 true) = (inr (ErrorResult "CANNOT_DELETE_ACTIVE_ACCOUNT"
                                     "An account in active status cannot be deleted."), db_n1 true).
Proof. split; [reflexivity | eapply (destroy_active "n1" (db_n1 true)); reflexivity]. Defined.

(** C8. [destroy] of a disabled account succeeds, removes every row with
    that network id and keeps the other rows. *)
Theorem destroy_disabled nid db r rs :
  with_key network_id nid (account db) = r :: rs -> enabled r = false ->
  exists db', destroy nid db = (inr (ValidResult tt), db') /\
    account db' = delete_rows (by_network_id nid) (account db) /\
    with_key network_id nid (account db') = [] /\
    (forall r', In r' (account db) -> network_id r' <> nid -> In r' (account db')).
Proof.
  intros H He; rewrite (destroy_rows nid db r rs H), He; simpl.
  eexists; split; [reflexivity|]; simpl; split; [reflexivity|]; split.
  - apply with_key_delete_rows.
  - intros r' Hin Hne; unfold delete_rows; apply filter_In; split; [exact Hin|].
    unfold by_network_id; apply key_eqb_false in Hne; rewrite Hne; reflexivity.
Qed.

(** Scenario of the specification: the disabled account [n1] is deleted. *)
Lemma destroy_disabled_witness :
  exists db', destroy "n1" (db_n1 false) = (inr (ValidResult tt), db') /\
    account db' = delete_rows (by_network_id "n1") (account (db_n1 false)) /\
    with_key network_id "n1" (account db') = [] /\
    (forall r', In r' (account (db_n1 false)) -> network_id r' <> "n1" -> In r' (account db')).
Proof. eapply (destroy_disabled "n1" (db_n1 false)); reflexivity. Defined.

(** C32. [destroy] never reads a field of a missing row: the guard before
    the re-read guarantees [rows[0]] exists. *)
Theorem destroy_no_undefined nid db : fst (destroy nid db) <> inl UndefinedRow.
Proof.
  destruct (with_key network_id nid (account db)) as [|r rs] eqn:H.
  - rewrite (destroy_missing nid db H); discriminate.
  - rewrite (destroy_rows nid db r rs H); destruct (negb (enabled r)); discriminate.
Qed.

End ModifyAccount.
