(* ===== verification/AddPermissions.v ===== *)
(** * Replacing the permissions of an assignee: src/add-permissions.ts

    [addPermissions username assignee caller permissions] first checks that
    the caller owns [username] (one [account] row with that username and
    network id); none is NO_MANAGE_PERMISSION, several are an integrity
    error.  It then reads the [account_permissions] rows of
    [(username, assignee)]: none inserts a row, one is overwritten, several
    are an integrity error.  The stored string is [permissions.join(",")]:
    the new list replaces the old one, unsorted.

    The theorems cover each row count, show that at most one row per key
    is kept, and record where the code departs from the specification's
    merging, canonically encoded [grant]. *)

From Stdlib Require Import String List Bool Arith Lia.
From S2P Require Import Prelude Store Codec.
Import ListNotations.
Open Scope string_scope.

Module AddPermissions.

(** The key of an [account] row as the ownership check reads it. *)
Definition owner_key (r : AccountRow) : string * string := (username r, network_id r).

(** The key of an [account_permissions] row. *)
Definition ap_key (r : AccountPermissionRow) : string * string := (ap_username r, ap_network_id r).

(** [WHERE username = $username AND network_id = $network_id] on [account]. *)
Definition account_by (username networkId : string) (r : AccountRow) : bool :=
  (Store.username r ==? username) && (network_id r ==? networkId).

(** The same predicate on [account_permissions]. *)
Definition permissions_by (username networkId : string) (r : AccountPermissionRow) : bool :=
  (ap_username r ==? username) && (ap_network_id r ==? networkId).

(** [SET permissions = $permissions] *)
Definition set_ap_permissions (s : string) (r : AccountPermissionRow) : AccountPermissionRow :=
  mkAccountPermissionRow (ap_network_id r) (ap_username r) s.

Definition no_manage_message (callerNetworkId username : string) : string :=
  callerNetworkId ++ " cannot manage permissions for username " ++ username ++ ".".

(** Lines 7-84. *)
Definition addPermissions (username assigneeNetworkId callerNetworkId : string)
  (permissions : list string) : M unit :=
  accountRows <- select account_tbl (account_by username callerNetworkId) ;;
  if Nat.eqb (length accountRows) 1 then
    permissionsRows <- select account_permissions_tbl (permissions_by username assigneeNetworkId) ;;
    if Nat.eqb (length permissionsRows) 0 then
      insert_row account_permissions_tbl
        (mkAccountPermissionRow assigneeNetworkId username (join "," permissions))
    else if Nat.eqb (length permissionsRows) 1 then
      update account_permissions_tbl (permissions_by username assigneeNetworkId)
        (set_ap_permissions (join "," permissions))
    else
      singleOrNone permissionsRows ;; ret tt
  else if Nat.eqb (length accountRows) 0 then
    exception "NO_MANAGE_PERMISSION" (no_manage_message callerNetworkId username)
  else
    singleOrNone accountRows ;; ret tt.

(** ** How a call runs, by row counts *)

Lemma add_run u a c ps db :
  addPermissions u a c ps db =
  match with_key owner_key (u, c) (account db) with
  | [_] =>
      match with_key ap_key (u, a) (account_permissions db) with
      | [] => (inr tt, tset account_permissions_tbl
                          (account_permissions db ++ [mkAccountPermissionRow a u (join "," ps)])%list db)
      | [_] => (inr tt, tset account_permissions_tbl
                           (update_rows (permissions_by u a) (set_ap_permissions (join "," ps))
                                        (account_permissions db)) db)
      | rows => (inl (SingleOrNoneViolation (length rows)), db)
      end
  | [] => (inl (ServiceException "NO_MANAGE_PERMISSION" (no_manage_message c u)), db)
  | rows => (inl (SingleOrNoneViolation (length rows)), db)
  end.
Proof.
  unfold addPermissions.
  rewrite (bind_inr _ _ db (with_key owner_key (u, c) (account db)) db) by reflexivity.
  destruct (with_key owner_key (u, c) (account db)) as [|r [|r' rs]]; [reflexivity| |reflexivity].
  simpl; rewrite (bind_inr _ _ db (with_key ap_key (u, a) (account_permissions db)) db) by reflexivity.
  destruct (with_key ap_key (u, a) (account_permissions db)) as [|p [|p' qs]]; reflexivity.
Qed.

Lemma set_ap_permissions_key s r : ap_key (set_ap_permissions s r) = ap_key r.
Proof. reflexivity. Qed.

(** The successful branches, with what they leave in the table. *)
Lemma add_success u a c ps db r :
  with_key owner_key (u, c) (account db) = [r] ->
  length (with_key ap_key (u, a) (account_permissions db)) <= 1 ->
  exists db', addPermissions u a c ps db = (inr tt, db') /\
    with_key ap_key (u, a) (account_permissions db') = [mkAccountPermissionRow a u (join "," ps)] /\
    (forall k, k <> (u, a) ->
       with_key ap_key k (account_permissions db') = with_key ap_key k (account_permissions db)) /\
    account db' = account db /\ scuttlespace_user db' = scuttlespace_user db /\
    user_permissions db' = user_permissions db.
Proof.
  intros Hown Hle; rewrite add_run, Hown.
  destruct (with_key ap_key (u, a) (account_permissions db)) as [|p [|p' qs]] eqn:Hp;
    simpl in Hle; [| |lia]; eexists; (split; [reflexivity|]);
    cbn [account_permissions_tbl tset tget account_permissions account scuttlespace_user user_permissions];
    (split; [|split; [intros k Hk|repeat split]]).
  - rewrite with_key_app, Hp, key_eqb_refl; reflexivity.
  - rewrite with_key_app; change (ap_key (mkAccountPermissionRow a u (join "," ps))) with (u, a).
    destruct (key_eqb_spec (u, a) k); [congruence|]; apply app_nil_r.
  - assert (Hk : ap_key p = (u, a))
      by (refine (proj2 (proj1 (in_with_key ap_key (u, a) (account_permissions db) p) _));
          rewrite Hp; left; reflexivity).
    change (permissions_by u a) with (fun r => ap_key r ==? (u, a)).
    rewrite with_key_update_same, Hp by (intros; reflexivity); simpl.
    destruct p as [pn pu pp]; unfold ap_key in Hk; simpl in Hk; inv Hk; reflexivity.
  - change (permissions_by u a) with (fun r => ap_key r ==? (u, a)).
    apply with_key_update_other; [intros; reflexivity | exact Hk].
Qed.

(** [addPermissions] writes no table but [account_permissions]. *)
Lemma add_frame u a c ps db :
  let db' := snd (addPermissions u a c ps db) in
  account db' = account db /\ scuttlespace_user db' = scuttlespace_user db /\
  user_permissions db' = user_permissions db.
Proof.
  simpl; rewrite add_run.
  destruct (with_key owner_key (u, c) (account db)) as [|r [|r' rs]]; try (repeat split; reflexivity).
  destruct (with_key ap_key (u, a) (account_permissions db)) as [|p [|p' qs]]; repeat split.
Qed.

Lemma add_preserves_unique u a c ps db res db' :
  unique_key ap_key (account_permissions db) -> addPermissions u a c ps db = (res, db') ->
  unique_key ap_key (account_permissions db').
Proof.
  intros Hu H; rewrite add_run in H.
  destruct (with_key owner_key (u, c) (account db)) as [|r [|r' rs]]; [inv H; exact Hu| |inv H; exact Hu].
  destruct (with_key ap_key (u, a) (account_permissions db)) as [|p [|p' qs]] eqn:Hp; inv H; simpl;
    [| |exact Hu].
  - apply unique_key_insert; [exact Hu | exact Hp].
  - apply unique_key_update; [intros; reflexivity | exact Hu].
Qed.

(** C9. When the caller owns [username] and the table keeps one row per
    (username, assignee), [addPermissions] succeeds, keeps one row per key,
    stores [permissions.join(",")] as the only row of (username, assignee),
    and leaves every other key and every other table as it was. *)
Theorem add_stores u a c ps db r :
  with_key owner_key (u, c) (account db) = [r] ->
  unique_key ap_key (account_permissions db) ->
  exists db', addPermissions u a c ps db = (inr tt, db') /\
    unique_key ap_key (account_permissions db') /\
    with_key ap_key (u, a) (account_permissions db') = [mkAccountPermissionRow a u (join "," ps)] /\
    (forall k, k <> (u, a) ->
       with_key ap_key k (account_permissions db') = with_key ap_key k (account_permissions db)) /\
    account db' = account db /\ scuttlespace_user db' = scuttlespace_user db /\
    user_permissions db' = user_permissions db.
Proof.
  intros Hown Hu.
  destruct (add_success u a c ps db r Hown (with_key_length ap_key (u, a) _ Hu)) as (db' & Hrun & Hrest).
  exists db'; split; [exact Hrun | split; [eapply add_preserves_unique; eauto | exact Hrest]].
Qed.

Definition grant_db (stored : list (string * string)) : DB :=
  {| account := [mkAccountRow "alice-id" "alice" None "" true];
     scuttlespace_user := [];
     account_permissions := map (fun '(a, s) => mkAccountPermissionRow a "alice" s) stored;
     user_permissions := [] |}.

Lemma add_stores_witness :
  exists db', addPermissions "alice" "bob-id" "alice-id" ["docs:write"] (grant_db [("carol-id", "blog:read")]) = (inr tt, db') /\
    unique_key ap_key (account_permissions db') /\
    with_key ap_key ("alice", "bob-id") (account_permissions db') =
      [mkAccountPermissionRow "bob-id" "alice" (join "," ["docs:write"])] /\
    (forall k, k <> ("alice", "bob-id") ->
       with_key ap_key k (account_permissions db') =
       with_key ap_key k (account_permissions (grant_db [("carol-id", "blog:read")]))) /\
    account db' = account (grant_db [("carol-id", "blog:read")]) /\
    scuttlespace_user db' = scuttlespace_user (grant_db [("carol-id", "blog:read")]) /\
    user_permissions db' = user_permissions (grant_db [("carol-id", "blog:read")]).
Proof.
  apply (add_stores "alice" "bob-id" "alice-id" ["docs:write"] (grant_db [("carol-id", "blog:read")])
           (mkAccountRow "alice-id" "alice" None "" true));
    [reflexivity | decide_unique].
Defined.

(** C29. Granting twice to the same relationship leaves exactly one row,
    holding the second list. *)
Theorem add_twice u a c ps1 ps2 db r db1 :
  with_key owner_key (u, c) (account db) = [r] ->
  length (with_key ap_key (u, a) (account_permissions db)) <= 1 ->
  addPermissions u a c ps1 db = (inr tt, db1) ->
  exists db2, addPermissions u a c ps2 db1 = (inr tt, db2) /\
    with_key ap_key (u, a) (account_permissions db2) = [mkAccountPermissionRow a u (join "," ps2)].
Proof.
  intros Hown Hle H1.
  destruct (add_success u a c ps1 db r Hown Hle) as (db1' & Hrun1 & Hrow1 & _ & Hacc1 & _).
  rewrite Hrun1 in H1; inv H1.
  destruct (add_success u a c ps2 db1 r) as (db2 & Hrun2 & Hrow2 & _); [rewrite Hacc1; exact Hown | rewrite Hrow1; simpl; lia|].
  exists db2; split; [exact Hrun2 | exact Hrow2].
Qed.

Lemma add_twice_witness :
  exists db2, addPermissions "alice" "bob-id" "alice-id" ["docs:read"]
                (snd (addPermissions "alice" "bob-id" "alice-id" ["docs:write"] (grant_db []))) = (inr tt, db2) /\
    with_key ap_key ("alice", "bob-id") (account_permissions db2) =
      [mkAccountPermissionRow "bob-id" "alice" (join "," ["docs:read"])].
Proof.
  apply (add_twice "alice" "bob-id" "alice-id" ["docs:write"] ["docs:read"] (grant_db [])
           (mkAccountRow "alice-id" "alice" None "" true)); [reflexivity | simpl; lia | reflexivity].
Defined.

(** C30. A caller who does not own [username] is refused with
    NO_MANAGE_PERMISSION; several owner rows or several permission rows
    raise the integrity error of [errors.singleOrNone]; none of these
    writes. *)
Theorem add_refused u a c ps db :
  (with_key owner_key (u, c) (account db) = [] ->
   addPermissions u a c ps db =
   (inl (ServiceException "NO_MANAGE_PERMISSION" (no_manage_message c u)), db)) /\
  (1 < length (with_key owner_key (u, c) (account db)) ->
   addPermissions u a c ps db =
   (inl (SingleOrNoneViolation (length (with_key owner_key (u, c) (account db)))), db)) /\
  (length (with_key owner_key (u, c) (account db)) = 1 ->
   1 < length (with_key ap_key (u, a) (account_permissions db)) ->
   addPermissions u a c ps db =
   (inl (SingleOrNoneViolation (length (with_key ap_key (u, a) (account_permissions db)))), db)).
Proof.
  rewrite !add_run; split; [|split].
  - intros ->; reflexivity.
  - destruct (with_key owner_key (u, c) (account db)) as [|r [|r' rs]]; simpl; intros H; [lia | lia | reflexivity].
  - destruct (with_key owner_key (u, c) (account db)) as [|r [|r' rs]]; simpl; intros H; try lia.
    destruct (with_key ap_key (u, a) (account_permissions db)) as [|p [|p' qs]]; simpl; intros H'; [lia | lia | reflexivity].
Qed.

Lemma add_refused_witness :
  let db := grant_db [("bob-id", "a:b"); ("bob-id", "c:d")] in
  (with_key owner_key ("alice", "bob-id") (account db) = [] ->
   addPermissions "alice" "x" "bob-id" [] db =
   (inl (ServiceException "NO_MANAGE_PERMISSION" (no_manage_message "bob-id" "alice")), db)) /\
  (1 < length (with_key owner_key ("alice", "bob-id") (account db)) ->
   addPermissions "alice" "x" "bob-id" [] db =
   (inl (SingleOrNoneViolation (length (with_key owner_key ("alice", "bob-id") (account db)))), db)) /\
  (length (with_key owner_key ("alice", "bob-id") (account db)) = 1 ->
   1 < length (with_key ap_key ("alice", "x") (account_permissions db)) ->
   addPermissions "alice" "x" "bob-id" [] db =
   (inl (SingleOrNoneViolation (length (with_key ap_key ("alice", "x") (account_permissions db)))), db)).
Proof. intros db; apply (add_refused "alice" "x" "bob-id" [] db). Defined.

(** Against the specification's [grant], which merges one
    (module, level) pair into the stored set and writes the canonical
    sorted encoding, [addPermissions] overwrites the stored list with the
    caller's list joined as given: an existing [docs:write] is lost and the
    result is not the canonical encoding. *)
Example add_overwrites_unsorted :
  addPermissions "alice" "bob-id" "alice-id" ["blog:read"; "a:x"] (grant_db [("bob-id", "docs:write")]) =
  (inr tt, grant_db [("bob-id", "blog:read,a:x")]) /\
  "blog:read,a:x" <> encode [mkPermission "blog" "read"; mkPermission "a" "x"].
Proof. split; [reflexivity | discriminate]. Qed.

End AddPermissions.
