(* ===== verification/ClearPermissions.v ===== *)
(** * Clearing a module's permissions: src/permissions/clear.ts

    [clearPermissions module assignee assigner] looks the assigner up with
    [findUser({externalId: assigner})] (src/user/get.ts); without an account
    it returns the error result NO_ACCOUNT.  It then reads the relationship
    with [getPermissionsForUser] (src/permissions/get.ts, not under src/,
    modelled from the specification: a plain read of [user_permissions]
    decoded with [Codec.decode], more than one row being an integrity
    error); without a row it returns at once.  Otherwise it removes every
    entry of [module], re-encodes the rest with the canonical encoding and
    writes it back with one UPDATE.  Both successful branches return the
    username of the account found, which is the assigner's.

    The abstract specification is the operation "remove every entry of this
    module" on the decoded permission list ([clear_spec]); [clear_refines]
    shows that the stored string after the call decodes to that list (up to
    order), that the other relationships and tables are untouched, and what
    is returned. *)

From Stdlib Require Import String List Bool Arith Lia.
From Stdlib Require Import Sorting.Permutation.
From S2P Require Import Prelude Store Codec UserGet.
Import ListNotations.
Open Scope string_scope.

Module ClearPermissions.

(** The relationship key of a [user_permissions] row. *)
Definition pair_key (r : UserPermissionRow) : string * string :=
  (assignee_external_id r, assigner_external_id r).

(** [WHERE assignee_external_id = $1 AND assigner_external_id = $2] *)
Definition by_pair (assignee assigner : string) (r : UserPermissionRow) : bool :=
  (assignee_external_id r ==? assignee) && (assigner_external_id r ==? assigner).

(** [SET permissions = $permissions] *)
Definition set_permissions (s : string) (r : UserPermissionRow) : UserPermissionRow :=
  mkUserPermissionRow (assignee_external_id r) (assigner_external_id r) s.

(** The result of [getPermissionsForUser]: [{ permissions: IPermission[] }]. *)
Record IPermissionsResult := mkPermissionsResult { permissions : list IPermission }.

(** [getPermissionsForUser(assignee, assigner)] of src/permissions/get.ts. *)
Definition getPermissionsForUser (assignee assigner : string)
  : M (ServiceResult (option IPermissionsResult)) :=
  rows <- select user_permissions_tbl (by_pair assignee assigner) ;;
  row <- singleOrNone rows ;;
  match row with
  | None => ret (ValidResult None)
  | Some r =>
      match decode (up_permissions r) with
      | inl e => throw e
      | inr ps => ret (ValidResult (Some {| permissions := ps |}))
      end
  end.

(** [{ username: string }] *)
Record IUsernameResult := mkUsernameResult { username : string }.

(** Lines 14-68. *)
Definition clearPermissions (module assigneeExternalId assignerExternalId : string)
  : M (ServiceResult IUsernameResult) :=
  maybeUser <- parseServiceResult (UserGet.findUser (UserGet.by_external_id assignerExternalId)) ;;
  match maybeUser with
  | Some user =>
      maybePermissions <- parseServiceResult
                            (getPermissionsForUser assigneeExternalId assignerExternalId) ;;
      match maybePermissions with
      | None => ret (ValidResult {| username := UserGet.username user |})
      | Some mp =>
          update user_permissions_tbl (by_pair assigneeExternalId assignerExternalId)
            (set_permissions
               (encode (filter (fun x => negb (Codec.module x ==? module)) (permissions mp)))) ;;
          ret (ValidResult {| username := UserGet.username user |})
      end
  | None =>
      ret (ErrorResult "NO_ACCOUNT"
             (assignerExternalId ++ " does not have an user. Create an user first."))
  end.

(** ** Abstract specification *)

(** Remove every entry of module [m]. *)
Definition clear_spec (m : string) (ps : list IPermission) : list IPermission :=
  filter (fun x => negb (Codec.module x ==? m)) ps.

(** ** How the reads run *)

Lemma by_pair_key a b r : by_pair a b r = (pair_key r ==? (a, b)).
Proof. reflexivity. Qed.

Lemma set_permissions_key s r : pair_key (set_permissions s r) = pair_key r.
Proof. reflexivity. Qed.

Lemma getPermissions_none a b db :
  with_key pair_key (a, b) (user_permissions db) = [] ->
  getPermissionsForUser a b db = (inr (ValidResult None), db).
Proof.
  intros H; unfold getPermissionsForUser.
  rewrite (bind_inr _ _ db (with_key pair_key (a, b) (user_permissions db)) db) by reflexivity.
  rewrite H; reflexivity.
Qed.

Lemma getPermissions_one a b db row :
  with_key pair_key (a, b) (user_permissions db) = [row] ->
  getPermissionsForUser a b db =
  match decode (up_permissions row) with
  | inl e => (inl e, db)
  | inr ps => (inr (ValidResult (Some {| permissions := ps |})), db)
  end.
Proof.
  intros H; unfold getPermissionsForUser.
  rewrite (bind_inr _ _ db (with_key pair_key (a, b) (user_permissions db)) db) by reflexivity.
  rewrite H; unfold singleOrNone; rewrite bind_ret; destruct (decode (up_permissions row)); reflexivity.
Qed.

Lemma getPermissions_many a b db :
  1 < length (with_key pair_key (a, b) (user_permissions db)) ->
  getPermissionsForUser a b db =
  (inl (SingleOrNoneViolation (length (with_key pair_key (a, b) (user_permissions db)))), db).
Proof.
  intros H; unfold getPermissionsForUser.
  rewrite (bind_inr _ _ db (with_key pair_key (a, b) (user_permissions db)) db) by reflexivity.
  rewrite (bind_inl _ _ db (SingleOrNoneViolation (length (with_key pair_key (a, b) (user_permissions db)))) db);
    [reflexivity|].
  rewrite singleOrNone_many_spec by exact H; reflexivity.
Qed.

(** [getPermissionsForUser] only reads, and only the rows of its relationship. *)
Lemma getPermissions_view a b db1 db2 :
  with_key pair_key (a, b) (user_permissions db1) = with_key pair_key (a, b) (user_permissions db2) ->
  fst (getPermissionsForUser a b db1) = fst (getPermissionsForUser a b db2) /\
  snd (getPermissionsForUser a b db1) = db1.
Proof.
  intros H; destruct (with_key pair_key (a, b) (user_permissions db1)) as [|row [|row' rows]] eqn:E1.
  - rewrite (getPermissions_none _ _ _ E1), (getPermissions_none _ _ db2 (eq_sym H)); auto.
  - rewrite (getPermissions_one _ _ _ _ E1), (getPermissions_one _ _ db2 _ (eq_sym H)).
    destruct (decode (up_permissions row)); auto.
  - assert (M1 : 1 < length (with_key pair_key (a, b) (user_permissions db1))) by (rewrite E1; simpl; lia).
    assert (M2 : 1 < length (with_key pair_key (a, b) (user_permissions db2))) by (rewrite <- H; simpl; lia).
    rewrite (getPermissions_many _ _ _ M1), (getPermissions_many _ _ _ M2), E1, <- H; auto.
Qed.

(** The assigner's account, as [findUser] finds it. *)
Definition assigner_account (db : DB) (assigner : string) : option AccountRow :=
  hd_error (with_key network_id assigner (scuttlespace_user db)).

Lemma find_assigner b db :
  b <> "" ->
  parseServiceResult (UserGet.findUser (UserGet.by_external_id b)) db =
  (inr (option_map UserGet.row_result (assigner_account db b)), db).
Proof. intros Hb; apply parse_valid, UserGet.findUser_external_id, Hb. Qed.

Lemma clear_run m a b db :
  b <> "" ->
  clearPermissions m a b db =
  match assigner_account db b with
  | None => (inr (ErrorResult "NO_ACCOUNT" (b ++ " does not have an user. Create an user first.")), db)
  | Some u =>
      bind (parseServiceResult (getPermissionsForUser a b))
        (fun mp => match mp with
                   | None => ret (ValidResult {| username := Store.username u |})
                   | Some mp =>
                       update user_permissions_tbl (by_pair a b)
                         (set_permissions (encode (clear_spec m (permissions mp)))) ;;
                       ret (ValidResult {| username := Store.username u |})
                   end) db
  end.
Proof.
  intros Hb; unfold clearPermissions; rewrite (bind_inr _ _ _ _ _ (find_assigner b db Hb)).
  destruct (assigner_account db b); reflexivity.
Qed.

Lemma with_key_by_pair a b rows : with_key pair_key (a, b) rows = filter (by_pair a b) rows.
Proof. reflexivity. Qed.

Lemma clear_spec_wf m ps :
  Forall (fun p => wf_perm p = true) ps -> Forall (fun p => wf_perm p = true) (clear_spec m ps).
Proof. intros H; apply Forall_forall; intros x Hx%filter_In; rewrite Forall_forall in H; apply H, Hx. Qed.

(** The branch that writes. *)
Lemma clear_run_row m a b db u row ps :
  b <> "" -> assigner_account db b = Some u ->
  with_key pair_key (a, b) (user_permissions db) = [row] ->
  decode (up_permissions row) = inr ps ->
  clearPermissions m a b db =
  (inr (ValidResult {| username := Store.username u |}),
   tset user_permissions_tbl
        (update_rows (by_pair a b) (set_permissions (encode (clear_spec m ps))) (user_permissions db)) db).
Proof.
  intros Hb Hu Hrow Hdec; rewrite clear_run, Hu by exact Hb.
  assert (Hg : getPermissionsForUser a b db = (inr (ValidResult (Some {| permissions := ps |})), db))
    by (rewrite (getPermissions_one a b db row Hrow), Hdec; reflexivity).
  rewrite (bind_inr _ _ _ _ _ (parse_valid _ _ _ _ Hg)); reflexivity.
Qed.

(** After a clear that writes, the assigner is still found and the
    relationship holds the one row with the new encoding. *)
Lemma clear_after m a b db u row ps :
  b <> "" -> assigner_account db b = Some u ->
  with_key pair_key (a, b) (user_permissions db) = [row] ->
  decode (up_permissions row) = inr ps ->
  assigner_account (snd (clearPermissions m a b db)) b = Some u /\
  with_key pair_key (a, b) (user_permissions (snd (clearPermissions m a b db))) =
    [set_permissions (encode (clear_spec m ps)) row].
Proof.
  intros Hb Hu Hrow Hdec; rewrite (clear_run_row m a b db u row ps Hb Hu Hrow Hdec); split; [exact Hu|].
  cbn [snd tget tset user_permissions_tbl user_permissions].
  rewrite with_key_by_pair, filter_update_rows_same, <- with_key_by_pair, Hrow by (intros r; exact id).
  reflexivity.
Qed.

(** Updating the rows of one relationship leaves the rows of every other
    relationship as they were. *)
Lemma update_pair_other a b f rows k :
  (forall r, pair_key (f r) = pair_key r) -> k <> (a, b) ->
  with_key pair_key k (update_rows (by_pair a b) f rows) = with_key pair_key k rows.
Proof.
  intros Hf Hk; exact (with_key_update_other pair_key (a, b) k f rows Hf Hk).
Qed.

(** C1. Refinement: when the assigner has an account and the relationship
    has one stored row that decodes to [ps], [clearPermissions m] returns the
    username of the assigner's account, the stored row afterwards decodes to
    [clear_spec m ps] (every entry of module [m] removed) up to order, no
    other relationship changes and no other table is written. *)
Theorem clear_refines m a b db u row ps :
  b <> "" -> assigner_account db b = Some u ->
  with_key pair_key (a, b) (user_permissions db) = [row] ->
  decode (up_permissions row) = inr ps ->
  exists db' ps',
    clearPermissions m a b db = (inr (ValidResult {| username := Store.username u |}), db') /\
    map up_permissions (with_key pair_key (a, b) (user_permissions db')) = [encode (clear_spec m ps)] /\
    decode (encode (clear_spec m ps)) = inr ps' /\ Permutation (clear_spec m ps) ps' /\
    (forall k, k <> (a, b) ->
       with_key pair_key k (user_permissions db') = with_key pair_key k (user_permissions db)) /\
    account db' = account db /\ scuttlespace_user db' = scuttlespace_user db /\
    account_permissions db' = account_permissions db.
Proof.
  intros Hb Hu Hrow Hdec; rewrite (clear_run_row m a b db u row ps Hb Hu Hrow Hdec).
  destruct (roundtrip (clear_spec m ps) (clear_spec_wf m ps (decoded_wf _ _ Hdec))) as (ps' & Hd & Hp & _).
  eexists; exists ps'; split; [reflexivity|]; simpl.
  split; [|split; [exact Hd | split; [exact Hp | split; [|repeat split]]]].
  - rewrite with_key_by_pair, filter_update_rows_same, <- with_key_by_pair, Hrow by (intros r; exact id).
    reflexivity.
  - intros k Hk; apply update_pair_other; [intros r; reflexivity | exact Hk].
Qed.

Definition perm_row (a b s : string) : UserPermissionRow := mkUserPermissionRow a b s.

(** Accounts of the specification's scenario: [alice] grants [bob]. *)
Definition scenario_db (stored : string) : DB :=
  {| account := [];
     scuttlespace_user := [mkAccountRow "alice-id" "alice" None "" true;
                           mkAccountRow "bob-id" "bob" None "" true];
     account_permissions := [];
     user_permissions := [perm_row "bob-id" "alice-id" stored; perm_row "bob-id" "carol-id" "docs:write"] |}.

Lemma clear_refines_witness :
  exists db' ps',
    clearPermissions "docs" "bob-id" "alice-id" (scenario_db "docs:write,blog:read") =
      (inr (ValidResult {| username := "alice" |}), db') /\
    map up_permissions (with_key pair_key ("bob-id", "alice-id") (user_permissions db')) =
      [encode (clear_spec "docs" [mkPermission "docs" "write"; mkPermission "blog" "read"])] /\
    decode (encode (clear_spec "docs" [mkPermission "docs" "write"; mkPermission "blog" "read"])) = inr ps' /\
    Permutation (clear_spec "docs" [mkPermission "docs" "write"; mkPermission "blog" "read"]) ps' /\
    (forall k, k <> ("bob-id", "alice-id") ->
       with_key pair_key k (user_permissions db') =
       with_key pair_key k (user_permissions (scenario_db "docs:write,blog:read"))) /\
    account db' = account (scenario_db "docs:write,blog:read") /\
    scuttlespace_user db' = scuttlespace_user (scenario_db "docs:write,blog:read") /\
    account_permissions db' = account_permissions (scenario_db "docs:write,blog:read").
Proof.
  apply (clear_refines "docs" "bob-id" "alice-id" (scenario_db "docs:write,blog:read")
           (mkAccountRow "alice-id" "alice" None "" true) (perm_row "bob-id" "alice-id" "docs:write,blog:read"));
    [discriminate | reflexivity | reflexivity | reflexivity].
Defined.

(** C27. Without an account for the assigner, [clearPermissions] returns
    the error result NO_ACCOUNT and writes nothing. *)
Theorem clear_no_account m a b db :
  b <> "" -> assigner_account db b = None ->
  clearPermissions m a b db =
  (inr (ErrorResult "NO_ACCOUNT" (b ++ " does not have an user. Create an user first.")), db).
Proof. intros Hb Hu; rewrite clear_run, Hu by exact Hb; reflexivity. Qed.

Lemma clear_no_account_witness :
  clearPermissions "docs" "bob-id" "dave-id" (scenario_db "docs:read") =
  (inr (ErrorResult "NO_ACCOUNT" ("dave-id" ++ " does not have an user. Create an user first.")),
   scenario_db "docs:read").
Proof. apply clear_no_account; [discriminate | reflexivity]. Defined.

(** C26. Clearing a relationship that has no stored row is a no-op that
    still succeeds and returns the username of the assigner's account. *)
Theorem clear_no_row m a b db u :
  b <> "" -> assigner_account db b = Some u ->
  with_key pair_key (a, b) (user_permissions db) = [] ->
  clearPermissions m a b db = (inr (ValidResult {| username := Store.username u |}), db).
Proof.
  intros Hb Hu Hrow; rewrite clear_run, Hu by exact Hb.
  rewrite (bind_inr _ _ _ _ _ (parse_valid _ _ _ _ (getPermissions_none a b db Hrow))); reflexivity.
Qed.

Lemma clear_no_row_witness :
  clearPermissions "docs" "carol-id" "alice-id" (scenario_db "docs:read") =
  (inr (ValidResult {| username := "alice" |}), scenario_db "docs:read").
Proof.
  apply (clear_no_row "docs" "carol-id" "alice-id" (scenario_db "docs:read")
           (mkAccountRow "alice-id" "alice" None "" true)); [discriminate | reflexivity | reflexivity].
Defined.

(** C28. A stored string that does not decode makes [clearPermissions]
    raise [MalformedPermissionToken] before any write; several rows for one
    relationship raise the integrity error of [errors.singleOrNone]. *)
Theorem clear_corrupt m a b db u :
  b <> "" -> assigner_account db b = Some u ->
  (forall row t, with_key pair_key (a, b) (user_permissions db) = [row] ->
     decode (up_permissions row) = inl (MalformedPermissionToken t) ->
     clearPermissions m a b db = (inl (MalformedPermissionToken t), db)) /\
  (1 < length (with_key pair_key (a, b) (user_permissions db)) ->
     clearPermissions m a b db =
     (inl (SingleOrNoneViolation (length (with_key pair_key (a, b) (user_permissions db)))), db)).
Proof.
  intros Hb Hu; rewrite clear_run, Hu by exact Hb; split.
  - intros row t Hrow Hdec.
    assert (Hg : getPermissionsForUser a b db = (inl (MalformedPermissionToken t), db))
      by (rewrite (getPermissions_one a b db row Hrow), Hdec; reflexivity).
    rewrite (bind_inl _ _ _ _ _ (parse_exn _ _ _ _ Hg)); reflexivity.
  - intros Hmany.
    rewrite (bind_inl _ _ _ _ _ (parse_exn _ _ _ _ (getPermissions_many a b db Hmany))); reflexivity.
Qed.

Lemma clear_corrupt_witness :
  (forall row t, with_key pair_key ("bob-id", "alice-id") (user_permissions (scenario_db "docs")) = [row] ->
     decode (up_permissions row) = inl (MalformedPermissionToken t) ->
     clearPermissions "docs" "bob-id" "alice-id" (scenario_db "docs") =
     (inl (MalformedPermissionToken t), scenario_db "docs")) /\
  (1 < length (with_key pair_key ("bob-id", "alice-id") (user_permissions (scenario_db "docs"))) ->
     clearPermissions "docs" "bob-id" "alice-id" (scenario_db "docs") =
     (inl (SingleOrNoneViolation
             (length (with_key pair_key ("bob-id", "alice-id") (user_permissions (scenario_db "docs"))))),
      scenario_db "docs")).
Proof.
  apply (clear_corrupt "docs" "bob-id" "alice-id" (scenario_db "docs")
           (mkAccountRow "alice-id" "alice" None "" true)); [discriminate | reflexivity].
Defined.

(** After the write, the relationship holds one row with the new string. *)
Lemma clear_written_row a b rows row s :
  filter (by_pair a b) rows = [row] ->
  filter (by_pair a b) (update_rows (by_pair a b) (set_permissions s) rows) = [set_permissions s row].
Proof. intros H; rewrite filter_update_rows_same, H by (intros r; exact id); reflexivity. Qed.

(** Whatever happens, [clearPermissions] either writes nothing or rewrites
    the permissions column of the relationship's rows with the encoding of
    well-formed permissions. *)
Lemma clear_effect m a b db :
  snd (clearPermissions m a b db) = db \/
  exists ps, Forall (fun p => wf_perm p = true) ps /\
    snd (clearPermissions m a b db) =
    tset user_permissions_tbl (update_rows (by_pair a b) (set_permissions (encode ps)) (user_permissions db)) db.
Proof.
  destruct (String.eqb_spec b "") as [->|Hb].
  { left; unfold clearPermissions.
    rewrite (bind_inl _ _ _ _ _ (parse_exn _ _ _ _ (UserGet.findUser_external_id_empty db))); reflexivity. }
  destruct (assigner_account db b) as [u|] eqn:Hu; [|left; rewrite clear_run, Hu by exact Hb; reflexivity].
  destruct (with_key pair_key (a, b) (user_permissions db)) as [|row [|row' rows]] eqn:Hrow.
  - left; rewrite clear_run, Hu by exact Hb.
    rewrite (bind_inr _ _ _ _ _ (parse_valid _ _ _ _ (getPermissions_none a b db Hrow))); reflexivity.
  - destruct (decode (up_permissions row)) as [e|ps] eqn:Hdec.
    + left; rewrite clear_run, Hu by exact Hb.
      assert (Hg : getPermissionsForUser a b db = (inl e, db))
        by (rewrite (getPermissions_one a b db row Hrow), Hdec; reflexivity).
      rewrite (bind_inl _ _ _ _ _ (parse_exn _ _ _ _ Hg)); reflexivity.
    + right; exists (clear_spec m ps); split; [apply clear_spec_wf, (decoded_wf _ _ Hdec)|].
      rewrite (clear_run_row m a b db u row ps Hb Hu Hrow Hdec); reflexivity.
  - left; rewrite clear_run, Hu by exact Hb.
    assert (Hmany : 1 < length (with_key pair_key (a, b) (user_permissions db))) by (rewrite Hrow; simpl; lia).
    rewrite (bind_inl _ _ _ _ _ (parse_exn _ _ _ _ (getPermissions_many a b db Hmany))); reflexivity.
Qed.


(** C22. Clearing the same module twice is the same as clearing it once:
    the second call returns the same result and writes nothing new. *)
Theorem clear_idempotent m a b db res db1 :
  b <> "" -> clearPermissions m a b db = (inr res, db1) ->
  clearPermissions m a b db1 = (inr res, db1).
Proof.
  intros Hb H1; pose proof H1 as H0; rewrite clear_run in H1 by exact Hb.
  destruct (assigner_account db b) as [u|] eqn:Hu; [|inv H1; exact H0].
  destruct (with_key pair_key (a, b) (user_permissions db)) as [|row [|row' rows]] eqn:Hrow.
  - rewrite (bind_inr _ _ _ _ _ (parse_valid _ _ _ _ (getPermissions_none a b db Hrow))) in H1.
    inv H1; exact H0.
  - destruct (decode (up_permissions row)) as [e|ps] eqn:Hdec.
    + assert (Hg : getPermissionsForUser a b db = (inl e, db))
        by (rewrite (getPermissions_one a b db row Hrow), Hdec; reflexivity).
      rewrite (bind_inl _ _ _ _ _ (parse_exn _ _ _ _ Hg)) in H1; discriminate.
    + rewrite (clear_run_row m a b db u row ps Hb Hu Hrow Hdec) in H0; inv H0.
      set (s := encode (clear_spec m ps)).
      destruct (roundtrip (clear_spec m ps) (clear_spec_wf m ps (decoded_wf _ _ Hdec))) as (ps' & Hd & Hp & _).
      assert (Hs : encode (clear_spec m ps') = s).
      { unfold clear_spec at 1; rewrite filter_all_true; [unfold s; rewrite Hp; reflexivity|].
        intros x Hx; eapply Permutation_in in Hx; [|symmetry; exact Hp].
        apply filter_In in Hx as [_ Hx]; exact Hx. }
      rewrite (clear_run_row m a b _ u (set_permissions s row) ps'); simpl; auto.
      * rewrite Hs, update_rows_idem; [reflexivity | intros r; exact id | reflexivity].
      * rewrite with_key_by_pair; apply clear_written_row; rewrite <- with_key_by_pair; exact Hrow.
  - assert (Hmany : 1 < length (with_key pair_key (a, b) (user_permissions db))) by (rewrite Hrow; simpl; lia).
    rewrite (bind_inl _ _ _ _ _ (parse_exn _ _ _ _ (getPermissions_many a b db Hmany))) in H1; discriminate.
Qed.

Lemma clear_idempotent_witness :
  exists db1, clearPermissions "docs" "bob-id" "alice-id" (scenario_db "docs:write,blog:read") =
                (inr (ValidResult {| username := "alice" |}), db1) /\
              clearPermissions "docs" "bob-id" "alice-id" db1 = (inr (ValidResult {| username := "alice" |}), db1).
Proof.
  eexists; split; [reflexivity|].
  apply (clear_idempotent "docs" "bob-id" "alice-id" (scenario_db "docs:write,blog:read")); [discriminate | reflexivity].
Defined.

(** Scenario of the specification: clearing ["docs"] from the
    relationship [{docs:read}] stores the empty string and keeps the row.
    The call returns the username of the assigner ("alice"), where the
    specification says it returns the assignee's ("bob"). *)
Example clear_scenario :
  clearPermissions "docs" "bob-id" "alice-id" (scenario_db "docs:read") =
  (inr (ValidResult {| username := "alice" |}),
   {| account := []; scuttlespace_user := scuttlespace_user (scenario_db "docs:read");
      account_permissions := [];
      user_permissions := [perm_row "bob-id" "alice-id" ""; perm_row "bob-id" "carol-id" "docs:write"] |}).
Proof. reflexivity. Qed.

End ClearPermissions.
