(* ===== verification/System.v ===== *)
(** * The service as a whole

    Every exported operation of the sources as a constructor of [Op], the
    database it leaves behind ([run_op]; an operation that raises leaves the
    database it had reached, which for every operation here is the one it
    started from), the step relation of the store and reachability by any
    sequence of calls.  The invariant [WF] is the uniqueness the
    specification demands of every table key: network ids in [account] and
    [scuttlespace_user], (username, assignee) in [account_permissions] and
    (assignee, assigner) in [user_permissions].  [reachable_wf] shows it
    holds in every reachable database.  Username uniqueness is not such an
    invariant: [editUsername] does not check availability; it is preserved
    when the caller ran [getUsernameAvailability] first and the answer was
    AVAILABLE. *)

From Stdlib Require Import String List Bool Arith Lia.
From S2P Require Import Prelude Store Codec UserGet AccountStatus ModifyAccount AddPermissions ClearPermissions.
Import ListNotations.
Open Scope string_scope.

Module System.

Inductive Op :=
| FindUser (args : UserGet.IFindUserArgs)
| UsernameAvailability (username externalId : string)
| Edit (op : ModifyAccount.AccountEdit) (networkId : string)
| Destroy (networkId : string)
| AddPerms (username assignee caller : string) (permissions : list string)
| ClearPerms (module assignee assigner : string).

(** The database after one call. *)
Definition run_op (o : Op) (db : DB) : DB :=
  match o with
  | FindUser args => snd (UserGet.findUser args db)
  | UsernameAvailability u e => snd (AccountStatus.getUsernameAvailability u e db)
  | Edit op nid => snd (ModifyAccount.run_edit op nid db)
  | Destroy nid => snd (ModifyAccount.destroy nid db)
  | AddPerms u a c ps => snd (AddPermissions.addPermissions u a c ps db)
  | ClearPerms m a b => snd (ClearPermissions.clearPermissions m a b db)
  end.

Inductive step : DB -> DB -> Prop :=
| step_op o db : step db (run_op o db).

Section Reach.
Variable init : DB.

Inductive reachable : DB -> Prop :=
| reach_init : reachable init
| reach_step db db' : reachable db -> step db db' -> reachable db'.
End Reach.

Definition WF (db : DB) : Prop :=
  unique_key network_id (account db) /\
  unique_key network_id (scuttlespace_user db) /\
  unique_key AddPermissions.ap_key (account_permissions db) /\
  unique_key ClearPermissions.pair_key (user_permissions db).

(** ** Every call keeps the keys unique *)

Lemma edit_wf op nid db : WF db -> WF (snd (ModifyAccount.run_edit op nid db)).
Proof.
  intros (H1 & H2 & H3 & H4).
  destruct (with_key network_id nid (account db)) as [|r rs] eqn:E.
  - rewrite (ModifyAccount.edit_missing op nid db E); repeat split; assumption.
  - rewrite (ModifyAccount.edit_run op nid db r rs E); repeat split; try assumption.
    simpl; eauto using ModifyAccount.edit_set_key with auth.
Qed.

Lemma destroy_wf nid db : WF db -> WF (snd (ModifyAccount.destroy nid db)).
Proof.
  intros (H1 & H2 & H3 & H4).
  destruct (with_key network_id nid (account db)) as [|r rs] eqn:E.
  - rewrite (ModifyAccount.destroy_missing nid db E); repeat split; assumption.
  - rewrite (ModifyAccount.destroy_rows nid db r rs E).
    destruct (negb (enabled r)); repeat split; simpl; eauto with auth.
Qed.

Lemma add_wf u a c ps db : WF db -> WF (snd (AddPermissions.addPermissions u a c ps db)).
Proof.
  intros (H1 & H2 & H3 & H4); destruct (AddPermissions.add_frame u a c ps db) as (F1 & F2 & F4).
  repeat split; [rewrite F1 | rewrite F2 | | rewrite F4]; try assumption.
  eapply AddPermissions.add_preserves_unique; [exact H3 | apply surjective_pairing].
Qed.

Lemma clear_wf m a b db : WF db -> WF (snd (ClearPermissions.clearPermissions m a b db)).
Proof.
  intros Hwf; destruct (ClearPermissions.clear_effect m a b db) as [->|[ps [_ ->]]]; [exact Hwf|].
  destruct Hwf as (H1 & H2 & H3 & H4); repeat split; try assumption.
  simpl; eauto using ClearPermissions.set_permissions_key with auth.
Qed.

Lemma run_op_wf o db : WF db -> WF (run_op o db).
Proof.
  intros Hwf; destruct o; simpl.
  - rewrite UserGet.findUser_readonly; exact Hwf.
  - rewrite AccountStatus.availability_readonly; exact Hwf.
  - apply edit_wf, Hwf.
  - apply destroy_wf, Hwf.
  - apply add_wf, Hwf.
  - apply clear_wf, Hwf.
Qed.

(** C4. Key uniqueness of every table is an invariant of the service:
    from a database where it holds, every sequence of calls to the exported
    operations reaches only databases where it holds. *)
Theorem reachable_wf init db : WF init -> reachable init db -> WF db.
Proof.
  intros Hinit Hr; induction Hr as [|db db' _ IH Hstep]; [exact Hinit|].
  destruct Hstep as [o db]; apply run_op_wf, IH.
Qed.

(** An invariant of every call is an invariant of the service. *)
Lemma reachable_inv (P : DB -> Prop) init db :
  (forall o d, P d -> P (run_op o d)) -> P init -> reachable init db -> P db.
Proof. intros Hop Hinit Hr; induction Hr as [|d d' _ IH Hs]; [exact Hinit | destruct Hs; auto]. Qed.

(** ** Every stored permission string stays decodable *)

(** The column [user_permissions.permissions] holds strings that
    [getPermissionsForUser] can decode. *)
Definition perms_decodable (db : DB) : bool :=
  forallb (fun r => decodable (up_permissions r)) (user_permissions db).

(** Only [clearPermissions] writes [user_permissions]. *)
Lemma run_op_user_permissions o db :
  (exists m a b, o = ClearPerms m a b) \/ user_permissions (run_op o db) = user_permissions db.
Proof.
  destruct o as [args|u e|op nid|nid|u a c ps|m a b]; [right..|left; eauto]; simpl.
  - rewrite UserGet.findUser_readonly; reflexivity.
  - rewrite AccountStatus.availability_readonly; reflexivity.
  - destruct (with_key network_id nid (account db)) as [|r rs] eqn:E;
      [rewrite (ModifyAccount.edit_missing op nid db E) | rewrite (ModifyAccount.edit_run op nid db r rs E)];
      reflexivity.
  - destruct (with_key network_id nid (account db)) as [|r rs] eqn:E;
      [rewrite (ModifyAccount.destroy_missing nid db E) | rewrite (ModifyAccount.destroy_rows nid db r rs E)];
      [|destruct (negb (enabled r))]; reflexivity.
  - apply (AddPermissions.add_frame u a c ps db).
Qed.

Lemma clear_decodable m a b db :
  perms_decodable db = true -> perms_decodable (snd (ClearPermissions.clearPermissions m a b db)) = true.
Proof.
  intros H; destruct (ClearPermissions.clear_effect m a b db) as [->|[ps [Hwf ->]]]; [exact H|].
  apply forallb_update_rows; [exact H|]; intros r _; exact (decodable_encode ps Hwf).
Qed.

(** C11. Every stored permission string stays decodable: from a database
    whose [user_permissions] strings all decode, every sequence of calls
    reaches only databases where they all decode, because the one writer of
    the column, [clearPermissions], stores the canonical encoding of
    well-formed permissions. *)
Theorem reachable_decodable init db :
  perms_decodable init = true -> reachable init db -> perms_decodable db = true.
Proof.
  intros Hinit; apply (reachable_inv (fun d => perms_decodable d = true)); [|exact Hinit]; intros o d Hd.
  destruct (run_op_user_permissions o d) as [(m & a & b & ->)|E].
  - apply clear_decodable, Hd.
  - unfold perms_decodable; rewrite E; exact Hd.
Qed.

Lemma reachable_decodable_witness :
  let init := ClearPermissions.scenario_db "docs:read,docs:write" in
  let db := run_op (ClearPerms "docs" "bob-id" "alice-id") init in
  perms_decodable init = true /\ reachable init db /\ perms_decodable db = true.
Proof.
  intros init db; assert (Hi : perms_decodable init = true) by reflexivity.
  assert (Hr : reachable init db) by (eapply reach_step; [apply reach_init | apply step_op]).
  split; [exact Hi | split; [exact Hr | apply (reachable_decodable init db Hi Hr)]].
Defined.

(** ** How much the database grows *)

(** The number of rows of the four tables. *)
Definition db_size (db : DB) : nat :=
  length (account db) + length (scuttlespace_user db) +
  length (account_permissions db) + length (user_permissions db).

(** The rows a call may add: [addPermissions] inserts at most one; no
    other operation inserts. *)
Definition growth (o : Op) : nat :=
  match o with AddPerms _ _ _ _ => 1 | _ => 0 end.

(** A sequence of calls, one after the other. *)
Fixpoint run_ops (os : list Op) (db : DB) : DB :=
  match os with
  | [] => db
  | o :: os' => run_ops os' (run_op o db)
  end.

Lemma length_delete_rows {R} (p : R -> bool) rows : length (delete_rows p rows) <= length rows.
Proof. induction rows as [|r rows IH]; simpl; [|destruct (negb (p r)); simpl]; lia. Qed.

Lemma run_op_size o db : db_size (run_op o db) <= db_size db + growth o.
Proof.
  unfold db_size; destruct o as [args|u e|op nid|nid|u a c ps|m a b]; simpl.
  - rewrite UserGet.findUser_readonly; lia.
  - rewrite AccountStatus.availability_readonly; lia.
  - destruct (with_key network_id nid (account db)) as [|r rs] eqn:E;
      [rewrite (ModifyAccount.edit_missing op nid db E) | rewrite (ModifyAccount.edit_run op nid db r rs E)];
      simpl; rewrite ?length_update_rows; lia.
  - destruct (with_key network_id nid (account db)) as [|r rs] eqn:E;
      [rewrite (ModifyAccount.destroy_missing nid db E); simpl; lia
      | rewrite (ModifyAccount.destroy_rows nid db r rs E)].
    destruct (negb (enabled r)); simpl; [pose proof (length_delete_rows (ModifyAccount.by_network_id nid) (account db))|]; lia.
  - rewrite AddPermissions.add_run.
    destruct (with_key AddPermissions.owner_key (u, c) (account db)) as [|r [|r' rs]]; simpl; [lia| |lia].
    destruct (with_key AddPermissions.ap_key (u, a) (account_permissions db)) as [|p [|p' qs]];
      simpl; rewrite ?length_app, ?length_update_rows; simpl; lia.
  - destruct (ClearPermissions.clear_effect m a b db) as [->|[ps [_ ->]]]; simpl; rewrite ?length_update_rows; lia.
Qed.

(** C12. The database grows by at most one row per [addPermissions] call
    and by no row for any other call: after a sequence of calls the four
    tables hold at most as many rows as before plus the number of
    [addPermissions] calls. *)
Theorem run_ops_size os db :
  db_size (run_ops os db) <= db_size db + list_sum (map growth os).
Proof.
  revert db; induction os as [|o os IH]; intros db; simpl; [lia|].
  specialize (IH (run_op o db)); pose proof (run_op_size o db); lia.
Qed.

Definition empty_db : DB := mkDB [] [] [] [].

Lemma reachable_wf_witness :
  let db := run_op (AddPerms "alice" "bob-id" "alice-id" ["docs:write"]) empty_db in
  WF empty_db /\ reachable empty_db db /\ WF db.
Proof.
  intros db; assert (Hw : WF empty_db) by (repeat split; decide_unique).
  assert (Hr : reachable empty_db db) by (eapply reach_step; [apply reach_init | apply step_op]).
  split; [exact Hw | split; [exact Hr | apply (reachable_wf empty_db db Hw Hr)]].
Defined.

(** ** Usernames *)

(** C10. [editUsername] keeps usernames unique when
    [getUsernameAvailability] answered AVAILABLE for the new username,
    whatever identity it was asked with: under unique network ids and
    unique usernames, the edited table still has unique usernames.  (The
    OWN answer compares the [external_id] column of get-status.ts with the
    caller, while [editUsername] writes the row of [network_id]; it protects
    the edit only where the two columns agree, so it is not covered.) *)
Theorem edit_username_checked u nid e db :
  unique_key network_id (account db) -> unique_key Store.username (account db) ->
  fst (AccountStatus.getUsernameAvailability u e db) =
    inr (ValidResult {| AccountStatus.status := AccountStatus.Available |}) ->
  unique_key Store.username (account (run_op (Edit (ModifyAccount.EditUsername u) nid) db)).
Proof.
  intros Hid Hun Havail; cbn [run_op].
  destruct (with_key network_id nid (account db)) as [|r rs] eqn:E.
  - rewrite (ModifyAccount.edit_missing (ModifyAccount.EditUsername u) nid db E); exact Hun.
  - rewrite (ModifyAccount.edit_run (ModifyAccount.EditUsername u) nid db r rs E); simpl.
    apply unique_key_update_one; [exact Hun | apply (with_key_length network_id nid _ Hid) |].
    intros r1 r2 _ Hr2 _ _ Hclash; simpl in Hclash.
    rewrite AccountStatus.availability_rows in Havail; cbn [fst] in Havail.
    assert (Hin : In r2 (with_key Store.username u (account db)))
      by (apply in_with_key; split; [exact Hr2 | symmetry; exact Hclash]).
    destruct (with_key Store.username u (account db)) as [|r0 [|r0' rows]]; [contradiction| |discriminate].
    destruct (network_id r0 ==? e); discriminate.
Qed.

Definition two_accounts : DB :=
  {| account := [mkAccountRow "n1" "alice" None "" true; mkAccountRow "n2" "bob" None "" true];
     scuttlespace_user := []; account_permissions := []; user_permissions := [] |}.

Lemma edit_username_checked_witness :
  fst (AccountStatus.getUsernameAvailability "carol" "n2" two_accounts) =
    inr (ValidResult {| AccountStatus.status := AccountStatus.Available |}) /\
  unique_key Store.username (account (run_op (Edit (ModifyAccount.EditUsername "carol") "n2") two_accounts)).
Proof.
  split; [reflexivity|].
  apply (edit_username_checked "carol" "n2" "n2" two_accounts);
    [decide_unique | decide_unique | reflexivity].
Defined.

(** Without that check, [editUsername] gives an account a username
    another account holds: the table no longer has unique usernames. *)
Example edit_username_unchecked_duplicates :
  map Store.username (account (snd (ModifyAccount.editUsername "alice" "n2" two_accounts))) =
    ["alice"; "alice"] /\
  ~ unique_key Store.username (account (snd (ModifyAccount.editUsername "alice" "n2" two_accounts))).
Proof.
  split; [reflexivity|]; unfold unique_key; intros Hnd; inv Hnd; apply H1; left; reflexivity.
Qed.

End System.
