(* ===== verification/Interleave.v ===== *)
(** * Interleaving two calls on the shared store

    The handlers of [ClearPermissions.v], [AddPermissions.v] and [destroy]
    of [ModifyAccount.v] each issue
    several statements on the pool, and nothing makes the sequence atomic
    (specification section 5).  Here a handler is a [Prog]: a tree whose
    every node is one store round trip, [run_prog] runs it without
    interruption and is proved equal to the atomic model, and [istep] lets
    two programs take their round trips in any order on one database.
    Every sequential run is an interleaving ([sequential_interleaving]). *)

From Stdlib Require Import String List Bool Arith Lia.
From S2P Require Import Prelude Store Codec UserGet ModifyAccount AddPermissions ClearPermissions System.
Import ListNotations.
Open Scope string_scope.

Module Interleave.

(** A program: finished, failed, or one atomic store call and the rest. *)
Inductive Prog (A : Type) : Type :=
| Done (a : A)
| Fail (e : Exn)
| Step (B : Type) (s : M B) (k : B -> Prog A).
Arguments Done {A} _.
Arguments Fail {A} _.
Arguments Step {A B} _ _.

(** Running a program without interruption. *)
Fixpoint run_prog {A} (p : Prog A) : M A :=
  match p with
  | Done a => ret a
  | Fail e => throw e
  | Step s k => bind s (fun b => run_prog (k b))
  end.

(** One round trip of a program on the database. *)
Definition advance {A} (p : Prog A) (db : DB) : option (Prog A * DB) :=
  match p with
  | Step s k =>
      match s db with
      | (inr b, db') => Some (k b, db')
      | (inl e, db') => Some (Fail e, db')
      end
  | _ => None
  end.

(** Two programs sharing the database; either one moves. *)
Inductive istep {A B} : DB * Prog A * Prog B -> DB * Prog A * Prog B -> Prop :=
| istep_left db p q p' db' :
    advance p db = Some (p', db') -> istep (db, p, q) (db', p', q)
| istep_right db p q q' db' :
    advance q db = Some (q', db') -> istep (db, p, q) (db', p, q').

Inductive istar {A B} : DB * Prog A * Prog B -> DB * Prog A * Prog B -> Prop :=
| istar_refl c : istar c c
| istar_step c1 c2 c3 : istep c1 c2 -> istar c2 c3 -> istar c1 c3.

(** ** The handlers as programs, one node per statement *)

(** src/permissions/clear.ts lines 14-68: the [findUser] read, the
    [getPermissionsForUser] read and the UPDATE are three round trips. *)
Definition clear_prog (module assigneeExternalId assignerExternalId : string)
  : Prog (ServiceResult ClearPermissions.IUsernameResult) :=
  Step (parseServiceResult (UserGet.findUser (UserGet.by_external_id assignerExternalId)))
    (fun maybeUser =>
       match maybeUser with
       | Some user =>
           Step (parseServiceResult
                   (ClearPermissions.getPermissionsForUser assigneeExternalId assignerExternalId))
             (fun maybePermissions =>
                match maybePermissions with
                | None => Done (ValidResult {| ClearPermissions.username := UserGet.username user |})
                | Some mp =>
                    Step (update user_permissions_tbl
                            (ClearPermissions.by_pair assigneeExternalId assignerExternalId)
                            (ClearPermissions.set_permissions
                               (encode (filter (fun x => negb (Codec.module x ==? module))
                                               (ClearPermissions.permissions mp)))))
                      (fun _ => Done (ValidResult {| ClearPermissions.username := UserGet.username user |}))
                end)
       | None =>
           Done (ErrorResult "NO_ACCOUNT"
                   (assignerExternalId ++ " does not have an user. Create an user first."))
       end).

(** src/add-permissions.ts lines 7-84: two SELECTs, then the INSERT or
    UPDATE. *)
Definition add_prog (username assigneeNetworkId callerNetworkId : string)
  (permissions : list string) : Prog unit :=
  Step (select account_tbl (AddPermissions.account_by username callerNetworkId))
    (fun accountRows =>
       if Nat.eqb (length accountRows) 1 then
         Step (select account_permissions_tbl
                 (AddPermissions.permissions_by username assigneeNetworkId))
           (fun permissionsRows =>
              if Nat.eqb (length permissionsRows) 0 then
                Step (insert_row account_permissions_tbl
                        (mkAccountPermissionRow assigneeNetworkId username (join "," permissions)))
                  (fun _ => Done tt)
              else if Nat.eqb (length permissionsRows) 1 then
                Step (update account_permissions_tbl
                        (AddPermissions.permissions_by username assigneeNetworkId)
                        (AddPermissions.set_ap_permissions (join "," permissions)))
                  (fun _ => Done tt)
              else Step (singleOrNone permissionsRows) (fun _ => Done tt))
       else if Nat.eqb (length accountRows) 0 then
         Fail (ServiceException "NO_MANAGE_PERMISSION"
                 (AddPermissions.no_manage_message callerNetworkId username))
       else Step (singleOrNone accountRows) (fun _ => Done tt)).

(** src/modify-account.ts lines 118-141: the guard's SELECT, the re-read
    and the DELETE. *)
Definition destroy_prog (networkId : string) : Prog (ServiceResult unit) :=
  Step (ModifyAccount.ensureAccountExists networkId)
    (fun _ =>
       Step (select account_tbl (ModifyAccount.by_network_id networkId))
         (fun rows =>
            match rows with
            | [] => Fail UndefinedRow
            | r :: _ =>
                if negb (enabled r)
                then Step (delete account_tbl (ModifyAccount.by_network_id networkId))
                       (fun _ => Done (ValidResult tt))
                else Done (ErrorResult "CANNOT_DELETE_ACTIVE_ACCOUNT"
                                       "An account in active status cannot be deleted.")
            end)).

(** src/modify-account.ts lines 32-116: each editor awaits the guard's
    SELECT and then its UPDATE. *)
Definition edit_prog (op : ModifyAccount.AccountEdit) (networkId : string) : Prog (ServiceResult unit) :=
  Step (ModifyAccount.ensureAccountExists networkId)
    (fun _ =>
       Step (update account_tbl (ModifyAccount.by_network_id networkId) (ModifyAccount.edit_set op))
         (fun _ => Done (ValidResult tt))).

(** ** Running without interruption *)

Lemma istar_trans {A B} (c1 c2 c3 : DB * Prog A * Prog B) :
  istar c1 c2 -> istar c2 c3 -> istar c1 c3.
Proof. induction 1; eauto using istar. Qed.

(** The outcome of a run as the program it leaves. *)
Definition outcome_prog {A} (r : Exn + A) : Prog A :=
  match r with inl e => Fail e | inr a => Done a end.

(** A program that has stopped. *)
Definition final {A} (p : Prog A) : Prop :=
  match p with Step _ _ => False | _ => True end.

(** Running the left program alone to its end is one of the interleavings. *)
Lemma run_left {A B} (p : Prog A) (q : Prog B) db :
  istar (db, p, q) (snd (run_prog p db), outcome_prog (fst (run_prog p db)), q).
Proof.
  revert db; induction p as [a|e|C s k IH]; intros db; [apply istar_refl | apply istar_refl|].
  simpl; unfold bind; destruct (s db) as [[e|b] db'] eqn:E; simpl.
  - eapply istar_step; [apply istep_left; simpl; rewrite E; reflexivity | apply istar_refl].
  - eapply istar_step; [apply istep_left; simpl; rewrite E; reflexivity | apply IH].
Qed.

Lemma run_right {A B} (p : Prog A) (q : Prog B) db :
  istar (db, p, q) (snd (run_prog q db), p, outcome_prog (fst (run_prog q db))).
Proof.
  revert db; induction q as [a|e|C s k IH]; intros db; [apply istar_refl | apply istar_refl|].
  simpl; unfold bind; destruct (s db) as [[e|b] db'] eqn:E; simpl.
  - eapply istar_step; [apply istep_right; simpl; rewrite E; reflexivity | apply istar_refl].
  - eapply istar_step; [apply istep_right; simpl; rewrite E; reflexivity | apply IH].
Qed.

(** Running one call to its end and then the other is an interleaving:
    the concurrent semantics contains the sequential one. *)
Theorem sequential_interleaving {A B} (p : Prog A) (q : Prog B) db :
  istar (db, p, q)
        (snd (run_prog q (snd (run_prog p db))),
         outcome_prog (fst (run_prog p db)),
         outcome_prog (fst (run_prog q (snd (run_prog p db))))).
Proof. eapply istar_trans; [apply run_left | apply run_right]. Qed.

(** ** The programs are the handlers *)

(** Run without interruption, the three-step program of
    [clearPermissions] is the atomic model of [ClearPermissions.v]. *)
Lemma clear_prog_run m a b db :
  run_prog (clear_prog m a b) db = ClearPermissions.clearPermissions m a b db.
Proof.
  unfold clear_prog, ClearPermissions.clearPermissions; simpl; unfold bind.
  destruct (parseServiceResult _ db) as [[e|[u|]] db1]; [reflexivity | | reflexivity].
  simpl; unfold bind.
  destruct (parseServiceResult _ db1) as [[e|[mp|]] db2]; reflexivity.
Qed.

(** Run without interruption, the program of [addPermissions] is the
    atomic model of [AddPermissions.v]. *)
Lemma add_prog_run u a c ps db :
  run_prog (add_prog u a c ps) db = AddPermissions.addPermissions u a c ps db.
Proof.
  unfold add_prog, AddPermissions.addPermissions, select; cbn.
  repeat match goal with |- context [if ?t then _ else _] => destruct t; cbn end; try reflexivity.
  all: unfold singleOrNone; repeat match goal with |- context [match ?l with _ => _ end] => destruct l end;
    reflexivity.
Qed.

(** Run without interruption, the program of [destroy] is the atomic
    model of [ModifyAccount.v]. *)
Lemma destroy_prog_run nid db :
  run_prog (destroy_prog nid) db = ModifyAccount.destroy nid db.
Proof.
  unfold destroy_prog, ModifyAccount.destroy; cbn; unfold bind.
  destruct (ModifyAccount.ensureAccountExists nid db) as [[e|[]] db1]; [reflexivity|]; cbn.
  destruct (filter _ (account db1)) as [|r rows]; [reflexivity|].
  destruct (negb (enabled r)); reflexivity.
Qed.

(** Run without interruption, the two-step program of each editor
    ([editAbout], [editDomain], [editUsername], [enable], [disable]) is
    its atomic model of [ModifyAccount.v]. *)
Lemma edit_prog_run op nid db :
  run_prog (edit_prog op nid) db = ModifyAccount.run_edit op nid db.
Proof. destruct op; reflexivity. Qed.

Ltac left_step := eapply istar_step; [apply istep_left; reflexivity|].
Ltac right_step := eapply istar_step; [apply istep_right; reflexivity|].

End Interleave.
