(* ===== verification/Races.v ===== *)
(** * Races the code allows, on every database where they can happen

    The handlers issue their statements as separate round trips on the
    pool (specification section 5), so two concurrent calls may interleave
    as [Interleave.istep] allows.  A schedule is the list of the sides
    that take the next round trip; [run_schedule] follows one, and
    [run_schedule_istar] shows that what it reaches is an interleaving.
    Each theorem here names a schedule of the two programs of
    [Interleave.v] and proves, for every database meeting the conditions
    of the race, the configuration it reaches; each then
    sets it against the sequential runs of [ClearPermissions.v],
    [AddPermissions.v] and [ModifyAccount.v], which it differs from:
    - [clear_lost_update]: two clears of one relationship that both read
      before either writes end in the state of the second alone;
    - [add_race_duplicates]: two first grants of one relationship both see
      no row and both INSERT;
    - [destroy_race_undefined]: two destroys of one disabled account both
      pass the guard, and the second reads [rows[0]] of an empty result;
    - [enable_destroy_race]: [enable] passes its guard, [destroy] deletes
      the account, and [enable]'s UPDATE matches no row; both succeed. *)

From Stdlib Require Import String List Bool Arith Lia Sorting.Permutation.
From S2P Require Import Prelude Store Codec UserGet ModifyAccount AddPermissions ClearPermissions Interleave.
Import ListNotations.
Open Scope string_scope.

Module Races.
Import Interleave.

(** ** Schedules *)

(** Which of the two calls takes the next round trip. *)
Inductive Side := L | R.

Definition step_side {A B} (sd : Side) (c : DB * Prog A * Prog B) : option (DB * Prog A * Prog B) :=
  let '(db, p, q) := c in
  match sd with
  | L => match advance p db with Some (p', db') => Some (db', p', q) | None => None end
  | R => match advance q db with Some (q', db') => Some (db', p, q') | None => None end
  end.

(** Following a schedule, one round trip per entry; [None] when the call
    the schedule names has already stopped. *)
Fixpoint run_schedule {A B} (sch : list Side) (c : DB * Prog A * Prog B) : option (DB * Prog A * Prog B) :=
  match sch with
  | [] => Some c
  | sd :: sch' => match step_side sd c with Some c' => run_schedule sch' c' | None => None end
  end.

(** Every schedule that runs is an interleaving. *)
Lemma run_schedule_istar {A B} sch (c c' : DB * Prog A * Prog B) :
  run_schedule sch c = Some c' -> istar c c'.
Proof.
  revert c; induction sch as [|sd sch IH]; intros [[db p] q]; simpl; [intros H; inv H; apply istar_refl|].
  destruct sd; [destruct (advance p db) as [[p' db']|] eqn:E | destruct (advance q db) as [[q' db']|] eqn:E];
    try discriminate; intros H; eapply istar_step; [constructor; exact E | | constructor; exact E |];
    apply IH, H.
Qed.

Lemma sched_left {A B C} (s : M C) (k : C -> Prog A) (q : Prog B) db b db' sch c :
  s db = (inr b, db') -> run_schedule sch (db', k b, q) = c -> run_schedule (L :: sch) (db, Step s k, q) = c.
Proof. intros Hs H; simpl; rewrite Hs; exact H. Qed.

Lemma sched_right {A B C} (s : M C) (k : C -> Prog B) (p : Prog A) db b db' sch c :
  s db = (inr b, db') -> run_schedule sch (db', p, k b) = c -> run_schedule (R :: sch) (db, p, Step s k) = c.
Proof. intros Hs H; simpl; rewrite Hs; exact H. Qed.

Ltac sched_l H := eapply sched_left; [exact H|].
Ltac sched_r H := eapply sched_right; [exact H|].
Ltac sched_l_run := eapply sched_left; [reflexivity|].
Ltac sched_r_run := eapply sched_right; [reflexivity|].

(** ** Lost update of [clearPermissions] *)

(** The two reads of [clearPermissions] when the assigner has an account
    and the relationship one row decoding to [ps]. *)
Lemma clear_reads a b db u row ps :
  b <> "" -> ClearPermissions.assigner_account db b = Some u ->
  with_key ClearPermissions.pair_key (a, b) (user_permissions db) = [row] ->
  decode (up_permissions row) = inr ps ->
  parseServiceResult (UserGet.findUser (UserGet.by_external_id b)) db =
    (inr (Some (UserGet.row_result u)), db) /\
  parseServiceResult (ClearPermissions.getPermissionsForUser a b) db =
    (inr (Some {| ClearPermissions.permissions := ps |}), db).
Proof.
  intros Hb Hu Hrow Hdec; split; [rewrite ClearPermissions.find_assigner, Hu by exact Hb; reflexivity|].
  apply parse_valid; rewrite (ClearPermissions.getPermissions_one a b db row Hrow), Hdec; reflexivity.
Qed.

(** C18. Lost update (specification section 5): when the assigner has an
    account and the relationship one stored row decoding to [ps], two
    [clearPermissions] calls for modules [m] and [m'] that both read
    before either writes (the schedule: left read, right read, left read,
    right read, left write, right write) both succeed and end in exactly
    the state of the [m'] clear alone: every permission of module [m] is
    still stored.  Run one after the other, the two clears leave no
    permission of either module. *)
Theorem clear_lost_update m m' a b db u row ps :
  b <> "" -> ClearPermissions.assigner_account db b = Some u ->
  with_key ClearPermissions.pair_key (a, b) (user_permissions db) = [row] ->
  decode (up_permissions row) = inr ps ->
  run_schedule [L; R; L; R; L; R] (db, clear_prog m a b, clear_prog m' a b) =
    Some (snd (ClearPermissions.clearPermissions m' a b db),
          Done (ValidResult {| ClearPermissions.username := Store.username u |}),
          Done (ValidResult {| ClearPermissions.username := Store.username u |})) /\
  (forall p, In p ps -> Codec.module p = m -> m <> m' ->
     exists s ps', map up_permissions (with_key ClearPermissions.pair_key (a, b)
                     (user_permissions (snd (ClearPermissions.clearPermissions m' a b db)))) = [s] /\
                   decode s = inr ps' /\ In p ps') /\
  (exists s ps', map up_permissions (with_key ClearPermissions.pair_key (a, b)
                   (user_permissions (snd (ClearPermissions.clearPermissions m' a b
                      (snd (ClearPermissions.clearPermissions m a b db)))))) = [s] /\
                 decode s = inr ps' /\ Forall (fun p => Codec.module p <> m /\ Codec.module p <> m') ps').
Proof.
  intros Hb Hu Hrow Hdec; destruct (clear_reads a b db u row ps Hb Hu Hrow Hdec) as [Hf Hg].
  pose proof (decoded_wf _ _ Hdec) as Hwf.
  split; [|split].
  - sched_l Hf; sched_r Hf; sched_l Hg; sched_r Hg; sched_l_run; sched_r_run.
    apply (f_equal Some); rewrite (ClearPermissions.clear_run_row m' a b db u row ps Hb Hu Hrow Hdec).
    cbn [snd tset tget user_permissions_tbl user_permissions]; f_equal; f_equal; f_equal.
    exact (update_rows_absorb (ClearPermissions.by_pair a b)
             (ClearPermissions.set_permissions (encode (ClearPermissions.clear_spec m ps)))
             (ClearPermissions.set_permissions (encode (ClearPermissions.clear_spec m' ps)))
             (user_permissions db) (fun _ h => h) (fun _ => eq_refl)).
  - intros p Hp Hm Hmm'.
    destruct (ClearPermissions.clear_after m' a b db u row ps Hb Hu Hrow Hdec) as [_ Hr].
    destruct (roundtrip _ (ClearPermissions.clear_spec_wf m' ps Hwf)) as (ps' & Hd & Hperm & _).
    exists (encode (ClearPermissions.clear_spec m' ps)), ps'; split; [rewrite Hr; reflexivity | split; [exact Hd|]].
    eapply Permutation_in; [exact Hperm|]; apply filter_In; split; [exact Hp|].
    rewrite Hm; destruct (key_eqb_spec m m'); [contradiction | reflexivity].
  - destruct (ClearPermissions.clear_after m a b db u row ps Hb Hu Hrow Hdec) as [Hu1 Hr1].
    destruct (roundtrip _ (ClearPermissions.clear_spec_wf m ps Hwf)) as (ps1 & Hd1 & Hp1 & _).
    destruct (ClearPermissions.clear_after m' a b _ u _ ps1 Hb Hu1 Hr1 Hd1) as [_ Hr2].
    pose proof (ClearPermissions.clear_spec_wf m ps Hwf) as Hwf1.
    destruct (roundtrip _ (ClearPermissions.clear_spec_wf m' ps1 (Forall_perm _ _ _ Hp1 Hwf1)))
      as (ps2 & Hd & Hperm & _).
    exists (encode (ClearPermissions.clear_spec m' ps1)), ps2; split; [rewrite Hr2; reflexivity | split; [exact Hd|]].
    apply Forall_forall; intros x Hx.
    apply (Permutation_in _ (Permutation_sym Hperm)), filter_In in Hx as [Hx Hx'].
    apply (Permutation_in _ (Permutation_sym Hp1)), filter_In in Hx as [_ Hx].
    apply negb_true_iff, key_eqb_false in Hx, Hx'; auto.
Qed.

(** [alice] has granted [bob] two modules. *)
Definition race_db : DB :=
  {| account := [mkAccountRow "alice-id" "alice" None "" true];
     scuttlespace_user := [mkAccountRow "alice-id" "alice" None "" true];
     account_permissions := [];
     user_permissions := [ClearPermissions.perm_row "bob-id" "alice-id" "blog:read,docs:write"] |}.

Lemma clear_lost_update_witness :
  "alice-id" <> "" /\
  ClearPermissions.assigner_account race_db "alice-id" = Some (mkAccountRow "alice-id" "alice" None "" true) /\
  run_schedule [L; R; L; R; L; R]
    (race_db, clear_prog "docs" "bob-id" "alice-id", clear_prog "blog" "bob-id" "alice-id") =
    Some (snd (ClearPermissions.clearPermissions "blog" "bob-id" "alice-id" race_db),
          Done (ValidResult {| ClearPermissions.username := "alice" |}),
          Done (ValidResult {| ClearPermissions.username := "alice" |})).
Proof.
  split; [discriminate | split; [reflexivity|]].
  exact (proj1 (clear_lost_update "docs" "blog" "bob-id" "alice-id" race_db
                  (mkAccountRow "alice-id" "alice" None "" true)
                  (ClearPermissions.perm_row "bob-id" "alice-id" "blog:read,docs:write")
                  [mkPermission "blog" "read"; mkPermission "docs" "write"]
                  ltac:(discriminate) eq_refl eq_refl eq_refl)).
Defined.

(** ** Duplicate rows from two first grants *)

(** The two reads of [addPermissions] when the caller owns the username
    and the relationship has no row. *)
Lemma add_reads u a c db o :
  with_key AddPermissions.owner_key (u, c) (account db) = [o] ->
  with_key AddPermissions.ap_key (u, a) (account_permissions db) = [] ->
  select account_tbl (AddPermissions.account_by u c) db = (inr [o], db) /\
  select account_permissions_tbl (AddPermissions.permissions_by u a) db = (inr [], db).
Proof.
  intros Hown Hnone; split;
    [change (AddPermissions.account_by u c) with (fun r => AddPermissions.owner_key r ==? (u, c))
    |change (AddPermissions.permissions_by u a) with (fun r => AddPermissions.ap_key r ==? (u, a))];
    apply select_with_key; assumption.
Qed.

(** C19. Two first grants: when the caller owns the username and the
    relationship (username, assignee) has no row, two [addPermissions]
    calls that both read before either writes (left owner check, right
    owner check, left row count, right row count, left INSERT, right
    INSERT) both succeed and leave two rows for the relationship; after
    that every call for it by an owner raises the integrity error of
    [singleOrNone].  Run one after the other, the second call overwrites
    the first and one row is left. *)
Theorem add_race_duplicates u a c ps1 ps2 db o :
  with_key AddPermissions.owner_key (u, c) (account db) = [o] ->
  with_key AddPermissions.ap_key (u, a) (account_permissions db) = [] ->
  let dbf := tset account_permissions_tbl
               (account_permissions db ++ [mkAccountPermissionRow a u (join "," ps1);
                                           mkAccountPermissionRow a u (join "," ps2)]) db in
  run_schedule [L; R; L; R; L; R] (db, add_prog u a c ps1, add_prog u a c ps2) = Some (dbf, Done tt, Done tt) /\
  with_key AddPermissions.ap_key (u, a) (account_permissions dbf) =
    [mkAccountPermissionRow a u (join "," ps1); mkAccountPermissionRow a u (join "," ps2)] /\
  (forall c' ps o', with_key AddPermissions.owner_key (u, c') (account db) = [o'] ->
     AddPermissions.addPermissions u a c' ps dbf = (inl (SingleOrNoneViolation 2), dbf)) /\
  with_key AddPermissions.ap_key (u, a)
    (account_permissions (snd (AddPermissions.addPermissions u a c ps2
                                 (snd (AddPermissions.addPermissions u a c ps1 db))))) =
    [mkAccountPermissionRow a u (join "," ps2)].
Proof.
  intros Hown Hnone dbf; destruct (add_reads u a c db o Hown Hnone) as [S1 S2].
  assert (Hdup : with_key AddPermissions.ap_key (u, a) (account_permissions dbf) =
                 [mkAccountPermissionRow a u (join "," ps1); mkAccountPermissionRow a u (join "," ps2)]).
  { unfold dbf; cbn [tset account_permissions_tbl account_permissions].
    change (?l ++ [?x; ?y])%list with (l ++ [x] ++ [y])%list; rewrite app_assoc, !with_key_app, Hnone.
    change (AddPermissions.ap_key (mkAccountPermissionRow a u ?s)) with (u, a); rewrite key_eqb_refl.
    reflexivity. }
  split; [|split; [exact Hdup | split]].
  - sched_l S1; sched_r S1; sched_l S2; sched_r S2; sched_l_run; sched_r_run.
    apply (f_equal Some); unfold dbf; cbn [tset tget account_permissions_tbl account_permissions].
    rewrite <- app_assoc; reflexivity.
  - intros c' ps o' Hown'; assert (HA : account dbf = account db) by reflexivity.
    rewrite AddPermissions.add_run, HA, Hown', Hdup; reflexivity.
  - destruct (AddPermissions.add_success u a c ps1 db o Hown ltac:(rewrite Hnone; simpl; lia))
      as (db1 & E1 & H1 & _ & A1 & _).
    rewrite E1; cbn [snd]; rewrite <- A1 in Hown.
    destruct (AddPermissions.add_success u a c ps2 db1 o Hown ltac:(rewrite H1; simpl; lia))
      as (db2 & E2 & H2 & _).
    rewrite E2; cbn [snd]; exact H2.
Qed.

(** [alice] owns the username [alice] and has granted nobody. *)
Definition grant0 : DB :=
  {| account := [mkAccountRow "alice-id" "alice" None "" true];
     scuttlespace_user := []; account_permissions := []; user_permissions := [] |}.

Lemma add_race_duplicates_witness :
  with_key AddPermissions.owner_key ("alice", "alice-id") (account grant0) =
    [mkAccountRow "alice-id" "alice" None "" true] /\
  with_key AddPermissions.ap_key ("alice", "bob-id") (account_permissions grant0) = [] /\
  AddPermissions.addPermissions "alice" "bob-id" "alice-id" ["blog:read"]
    (tset account_permissions_tbl
       [mkAccountPermissionRow "bob-id" "alice" "docs:write"; mkAccountPermissionRow "bob-id" "alice" "docs:read"]
       grant0) =
  (inl (SingleOrNoneViolation 2),
   tset account_permissions_tbl
     [mkAccountPermissionRow "bob-id" "alice" "docs:write"; mkAccountPermissionRow "bob-id" "alice" "docs:read"]
     grant0).
Proof.
  split; [reflexivity | split; [reflexivity|]].
  exact (proj1 (proj2 (proj2 (add_race_duplicates "alice" "bob-id" "alice-id" ["docs:write"] ["docs:read"]
                                grant0 (mkAccountRow "alice-id" "alice" None "" true) eq_refl eq_refl)))
           "alice-id" ["blog:read"] (mkAccountRow "alice-id" "alice" None "" true) eq_refl).
Defined.

(** ** Check-then-act in [destroy] *)

Section Destroy.
Variables (nid : string) (db : DB) (r : AccountRow) (rs : list AccountRow).
Hypothesis Hrow : with_key network_id nid (account db) = r :: rs.
Hypothesis Hdis : enabled r = false.

(** The database after [destroy] of a disabled account. *)
Let deleted : DB := tset account_tbl (delete_rows (ModifyAccount.by_network_id nid) (account db)) db.

Lemma destroy_deletes : ModifyAccount.destroy nid db = (inr (ValidResult tt), deleted).
Proof. rewrite (ModifyAccount.destroy_rows nid db r rs Hrow), Hdis; reflexivity. Qed.

Lemma deleted_gone : with_key network_id nid (account deleted) = [].
Proof. apply with_key_delete_rows. Qed.

(** The guard and the re-read before the DELETE, and the re-read after it. *)
Lemma destroy_reads :
  ModifyAccount.ensureAccountExists nid db = (inr tt, db) /\
  select account_tbl (ModifyAccount.by_network_id nid) db = (inr (r :: rs), db) /\
  select account_tbl (ModifyAccount.by_network_id nid) deleted = (inr [], deleted).
Proof.
  split; [apply (ModifyAccount.ensure_present nid db r rs Hrow)|].
  change (ModifyAccount.by_network_id nid) with (fun x => network_id x ==? nid).
  split; apply select_with_key; [exact Hrow | exact deleted_gone].
Qed.

(** C21. Check-then-act in [destroy]: for every account whose first row
    is disabled, two [destroy] calls can both pass the existence guard
    (left guard, right guard, left re-read, left DELETE, right re-read):
    the first deletes the account and succeeds, the second reads
    [rows[0]] of an empty result, a TypeError.  Run one after the other,
    the second call raises USER_NOT_FOUND instead. *)
Theorem destroy_race_undefined :
  run_schedule [L; R; L; L; R] (db, destroy_prog nid, destroy_prog nid) =
    Some (snd (ModifyAccount.destroy nid db), Done (ValidResult tt), Fail UndefinedRow) /\
  ModifyAccount.destroy nid (snd (ModifyAccount.destroy nid db)) =
    (inl (ModifyAccount.user_not_found nid), snd (ModifyAccount.destroy nid db)).
Proof.
  destruct destroy_reads as (G & S1 & S2); rewrite destroy_deletes; cbn [snd]; split.
  - sched_l G; sched_r G; sched_l S1; cbv beta iota; rewrite Hdis; cbn [negb].
    sched_l_run; sched_r S2; reflexivity.
  - apply ModifyAccount.destroy_missing, deleted_gone.
Qed.

(** C20. [enable] and [destroy] of one account whose first row is
    disabled are not serializable: with the schedule left guard, right
    guard, right re-read, right DELETE, left UPDATE, both calls report
    success and the account is gone, [enable]'s UPDATE having matched no
    row.  Run one after the other, [enable] then [destroy] refuses the
    now enabled account, and [destroy] then [enable] raises
    USER_NOT_FOUND. *)
Theorem enable_destroy_race :
  run_schedule [L; R; R; R; L] (db, edit_prog ModifyAccount.Enable nid, destroy_prog nid) =
    Some (snd (ModifyAccount.destroy nid db), Done (ValidResult tt), Done (ValidResult tt)) /\
  with_key network_id nid (account (snd (ModifyAccount.destroy nid db))) = [] /\
  fst (ModifyAccount.destroy nid (snd (ModifyAccount.run_edit ModifyAccount.Enable nid db))) =
    inr (ErrorResult "CANNOT_DELETE_ACTIVE_ACCOUNT" "An account in active status cannot be deleted.") /\
  fst (ModifyAccount.run_edit ModifyAccount.Enable nid (snd (ModifyAccount.destroy nid db))) =
    inl (ModifyAccount.user_not_found nid).
Proof.
  destruct destroy_reads as (G & S1 & S2); rewrite destroy_deletes; cbn [snd].
  split; [|split; [exact deleted_gone | split]].
  - sched_l G; sched_r G; sched_r S1; cbv beta iota; rewrite Hdis; cbn [negb].
    sched_r_run; sched_l_run.
    apply (f_equal Some); unfold deleted; cbn [tset tget account_tbl account].
    rewrite update_rows_delete; reflexivity.
  - rewrite (ModifyAccount.edit_run ModifyAccount.Enable nid db r rs Hrow); cbn [snd].
    assert (E : with_key network_id nid
                  (account (tset account_tbl (update_rows (ModifyAccount.by_network_id nid)
                                                (ModifyAccount.edit_set ModifyAccount.Enable) (account db)) db)) =
                ModifyAccount.set_enabled true r :: map (ModifyAccount.set_enabled true) rs).
    { cbn [tset account_tbl account]; change (ModifyAccount.by_network_id nid) with (fun x => network_id x ==? nid).
      rewrite with_key_update_same, Hrow by (intros; reflexivity); reflexivity. }
    rewrite (ModifyAccount.destroy_rows _ _ _ _ E); reflexivity.
  - rewrite (ModifyAccount.edit_missing _ _ _ deleted_gone); reflexivity.
Qed.

End Destroy.

Lemma destroy_race_undefined_witness :
  with_key network_id "n1" (account (ModifyAccount.db_n1 false)) = [mkAccountRow "n1" "alice" None "" false] /\
  run_schedule [L; R; L; L; R] (ModifyAccount.db_n1 false, destroy_prog "n1", destroy_prog "n1") =
    Some (snd (ModifyAccount.destroy "n1" (ModifyAccount.db_n1 false)), Done (ValidResult tt), Fail UndefinedRow).
Proof.
  split; [reflexivity|].
  exact (proj1 (destroy_race_undefined "n1" (ModifyAccount.db_n1 false) (mkAccountRow "n1" "alice" None "" false) []
                  eq_refl eq_refl)).
Defined.

Lemma enable_destroy_race_witness :
  with_key network_id "n1" (account (ModifyAccount.db_n1 false)) = [mkAccountRow "n1" "alice" None "" false] /\
  run_schedule [L; R; R; R; L] (ModifyAccount.db_n1 false, edit_prog ModifyAccount.Enable "n1", destroy_prog "n1") =
    Some (snd (ModifyAccount.destroy "n1" (ModifyAccount.db_n1 false)), Done (ValidResult tt), Done (ValidResult tt)).
Proof.
  split; [reflexivity|].
  exact (proj1 (enable_destroy_race "n1" (ModifyAccount.db_n1 false) (mkAccountRow "n1" "alice" None "" false) []
                  eq_refl eq_refl)).
Defined.

End Races.
