(* ===== verification/Locality.v ===== *)
(** * Locality: programs on separate footprints commute

    Section [Footprint] is the abstract framework.  A statement has a
    footprint [k]: what it returns depends only on what [agrees k] keeps
    equal, and its one write is [applies k w] for a write [w] allowed by
    [writes k].  A program is local to [k] when all its statements are.
    Given an independence relation on footprints and an equivalence [eqv]
    on databases, under five hypotheses (independence is symmetric, a
    write on [k] is invisible to a reader of an independent [k'], writes on
    independent footprints commute up to [eqv], writes respect [eqv], and
    [eqv] databases look the same to every reader), two local programs on
    independent footprints commute step by step, so every interleaving that
    runs both to their end reaches, up to [eqv], the state and exactly the
    results of running one and then the other ([local_interleavings]).

    Section [Table] instantiates footprints with the keys of one table:
    readers see a view of the rest of the database and the rows of their
    key, writers UPDATE, DELETE or INSERT rows of their key.  Section
    [InPlace] discharges the hypotheses for different keys when the writes
    are UPDATEs and DELETEs, with equality ([local_interleavings_eq]);
    Section [KeyWise] when INSERTs are allowed, with the equivalence
    [keywise] (equal rows key by key, equal other tables;
    [keywise_Equivalence]), since two INSERTs leave rows in the order they
    ran.  Section [Pair] combines two footprint systems whose writes are
    invisible to each other's readers and commute, such as two tables:
    programs of the two systems commute exactly ([pair_interleavings]). *)

From Stdlib Require Import String List Bool Arith Lia.
From Stdlib Require Import Classes.RelationClasses Classes.Morphisms.
From S2P Require Import Prelude Store Interleave.
Import ListNotations.

Module Locality.
Import Interleave.

(** The result of running the left program and then the right one. *)
Definition seq_result {A B} (c : DB * Prog A * Prog B) : DB * Prog A * Prog B :=
  let '(db, p, q) := c in
  (snd (run_prog q (snd (run_prog p db))),
   outcome_prog (fst (run_prog p db)),
   outcome_prog (fst (run_prog q (snd (run_prog p db))))).

Lemma seq_result_eq {A B} db (p : Prog A) (q : Prog B) :
  seq_result (db, p, q) =
  (snd (run_prog q (snd (run_prog p db))), outcome_prog (fst (run_prog p db)),
   outcome_prog (fst (run_prog q (snd (run_prog p db))))).
Proof. reflexivity. Qed.

Lemma seq_result_final {A B} db (p : Prog A) (q : Prog B) :
  final p -> final q -> seq_result (db, p, q) = (db, p, q).
Proof. destruct p, q; simpl; try contradiction; reflexivity. Qed.

(** One round trip of a program, and what is left to run. *)
Lemma advance_step {A} (p : Prog A) db p' db' :
  advance p db = Some (p', db') ->
  exists B (t : M B) kont, p = Step t kont /\ db' = snd (t db) /\
    forall db2, fst (t db2) = fst (t db) -> run_prog p db2 = run_prog p' (snd (t db2)).
Proof.
  destruct p as [a|e|B t kont]; simpl; try discriminate.
  intros H; exists B, t, kont; split; [reflexivity|].
  destruct (t db) as [[e|b] d]; inv H; split; [reflexivity| |reflexivity|];
    intros db2; simpl; unfold bind; destruct (t db2) as [r d2]; simpl; intros ->; reflexivity.
Qed.

(** The writes of a statement on the rows of one key. *)
Inductive KeyWrite {R : Type} :=
| WUpdate (f : R -> R)
| WDelete
| WInsert (r : R).
Arguments KeyWrite : clear implicits.

Section Footprint.
Context {Key Wr : Type} (agrees : Key -> DB -> DB -> Prop) (applies : Key -> Wr -> DB -> DB)
        (writes : Key -> Wr -> Prop).

(** The statement's only write is [w] on footprint [k]. *)
Definition writes_only {B} (k : Key) (s : M B) (w : Wr) : Prop :=
  writes k w /\ forall db, snd (s db) = applies k w db.

Definition Local {B} (k : Key) (s : M B) : Prop :=
  (exists w, writes_only k s w) /\ (forall db1 db2, agrees k db1 db2 -> fst (s db1) = fst (s db2)).

Inductive LocalProg {A} (k : Key) : Prog A -> Prop :=
| lp_done a : LocalProg k (Done a)
| lp_fail e : LocalProg k (Fail e)
| lp_step B (s : M B) kont :
    Local k s -> (forall b, LocalProg k (kont b)) -> LocalProg k (Step s kont).

(** A statement that only reads is local when some allowed write of its
    footprint changes nothing. *)
Lemma footprint_readonly {B} k w0 (s : M B) :
  writes k w0 -> (forall db, applies k w0 db = db) ->
  (forall db, snd (s db) = db) -> (forall db1 db2, agrees k db1 db2 -> fst (s db1) = fst (s db2)) ->
  Local k s.
Proof.
  intros Hw0 Hid Hr Hv; split; [|exact Hv].
  exists w0; split; [exact Hw0|]; intros db; rewrite Hr, Hid; reflexivity.
Qed.

Lemma parse_local {A} k (m : M (ServiceResult A)) : Local k m -> Local k (parseServiceResult m).
Proof.
  intros [[w [Hw Hs]] Hv]; split.
  - exists w; split; [exact Hw|]; intros db; rewrite parse_run; exact (Hs db).
  - intros db1 db2 Ha; rewrite !parse_run; cbn [fst]; rewrite (Hv db1 db2 Ha); reflexivity.
Qed.

Definition head_local {A} k (p : Prog A) : Prop :=
  match p with Step t kont => Local k t /\ forall b, LocalProg k (kont b) | _ => True end.

Lemma local_head {A} k (p : Prog A) : LocalProg k p -> head_local k p.
Proof. destruct 1; simpl; auto. Qed.

Lemma advance_local {A} k (p : Prog A) db p' db' :
  LocalProg k p -> advance p db = Some (p', db') -> LocalProg k p'.
Proof.
  destruct 1 as [a|e|B s kont Hs Hk]; simpl; try discriminate.
  destruct (s db) as [[e|b] d]; intros Ha; inv Ha; [constructor | apply Hk].
Qed.

Context (indep : Key -> Key -> Prop) (eqv : DB -> DB -> Prop) `{eqv_equiv : Equivalence DB eqv}.
Hypothesis indep_sym : forall k k', indep k k' -> indep k' k.
Hypothesis apply_agree : forall k k' w db, indep k k' -> writes k w -> agrees k' (applies k w db) db.
Hypothesis apply_comm : forall k k' w w' db, indep k k' -> writes k w -> writes k' w' ->
  eqv (applies k w (applies k' w' db)) (applies k' w' (applies k w db)).
Hypothesis apply_proper : forall k w db1 db2, writes k w -> eqv db1 db2 ->
  eqv (applies k w db1) (applies k w db2).
Hypothesis eqv_agree : forall k db1 db2, eqv db1 db2 -> agrees k db1 db2.

(** Two outcomes with the same result and [eqv] databases. *)
Definition res_eqv {A} (x y : (Exn + A) * DB) : Prop := fst x = fst y /\ eqv (snd x) (snd y).

(** ** Local statements and programs respect [eqv] *)

Lemma local_respects {B} k (s : M B) db1 db2 : Local k s -> eqv db1 db2 -> res_eqv (s db1) (s db2).
Proof.
  intros [[w [Hw Hs]] Hr] E; split; [apply Hr, eqv_agree, E|].
  rewrite !Hs; apply apply_proper; assumption.
Qed.

Lemma run_proper {A} k (p : Prog A) :
  LocalProg k p -> forall db1 db2, eqv db1 db2 -> res_eqv (run_prog p db1) (run_prog p db2).
Proof.
  induction 1 as [a|e|B s kont Hs Hk IH]; intros db1 db2 E; [split; [reflexivity|exact E] ..|].
  simpl; unfold bind; destruct (local_respects k s db1 db2 Hs E) as [F S].
  destruct (s db1) as [r1 d1], (s db2) as [r2 d2]; simpl in F, S; subst r2.
  destruct r1 as [e|b]; [split; [reflexivity|exact S] | apply IH, S].
Qed.

(** ** Commuting local steps *)

(** A write on [k] is invisible to a reader of an independent [k']. *)
Lemma agree_after {B} k k' (s : M B) w db :
  indep k k' -> writes_only k s w -> agrees k' (snd (s db)) db.
Proof. intros Hk [Hw Hs]; rewrite Hs; apply apply_agree; assumption. Qed.

Lemma step_comm {B C} k k' (s : M B) (t : M C) db :
  indep k k' -> Local k s -> Local k' t ->
  fst (t (snd (s db))) = fst (t db) /\ fst (s (snd (t db))) = fst (s db) /\
  eqv (snd (t (snd (s db)))) (snd (s (snd (t db)))).
Proof.
  intros Hk [[w Hw] Rs] [[w' Hw'] Rt]; split; [|split].
  - apply Rt, (agree_after k k' s w); assumption.
  - apply Rs, (agree_after k' k t w'); [apply indep_sym|]; assumption.
  - rewrite (proj2 Hw'), (proj2 Hw), (proj2 Hw), (proj2 Hw').
    apply apply_comm; [apply indep_sym; exact Hk | apply Hw' | apply Hw].
Qed.

(** Running a whole local program commutes with a local statement on an
    independent footprint. *)
Lemma run_comm {A C} k k' (p : Prog A) (t : M C) :
  LocalProg k p -> Local k' t -> indep k k' -> forall db,
  fst (t (snd (run_prog p db))) = fst (t db) /\
  res_eqv (run_prog p (snd (t db))) (fst (run_prog p db), snd (t (snd (run_prog p db)))).
Proof.
  intros Hp Ht Hk; induction Hp as [a|e|B s kont Hs Hkont IH]; intros db;
    [split; [reflexivity | split; reflexivity] ..|].
  destruct (step_comm k k' s t db Hk Hs Ht) as (C1 & C2 & C3).
  simpl; unfold bind; rewrite (surjective_pairing (s (snd (t db)))), C2.
  destruct (s db) as [[e|b] db1]; simpl in *.
  - split; [exact C1 | split; [reflexivity | symmetry; exact C3]].
  - destruct (IH b db1) as [I1 [I2 I3]].
    destruct (run_proper k (kont b) (Hkont b) _ _ (symmetry C3)) as [P1 P2].
    split; [congruence | split; [congruence | etransitivity; eassumption]].
Qed.

(** ** Interleavings of two local programs *)

(** Configurations with [eqv] databases and the same programs. *)
Definition cfg_eqv {A B} (c1 c2 : DB * Prog A * Prog B) : Prop :=
  eqv (fst (fst c1)) (fst (fst c2)) /\ snd (fst c1) = snd (fst c2) /\ snd c1 = snd c2.

#[export] Instance cfg_eqv_Equivalence {A B} : Equivalence (@cfg_eqv A B).
Proof.
  split.
  - intros c; split; [reflexivity | split; reflexivity].
  - intros c1 c2 (E1 & E2 & E3); split; [symmetry; exact E1 | split; congruence].
  - intros c1 c2 c3 (E1 & E2 & E3) (F1 & F2 & F3); split; [etransitivity; eassumption | split; congruence].
Qed.

(** Every move of either program keeps the sequential result, up to
    [eqv], and the locality of both programs. *)
Lemma istep_seq {A B} k k' db (p : Prog A) (q : Prog B) db2 p2 q2 :
  indep k k' -> LocalProg k p -> LocalProg k' q -> istep (db, p, q) (db2, p2, q2) ->
  cfg_eqv (seq_result (db, p, q)) (seq_result (db2, p2, q2)) /\ LocalProg k p2 /\ LocalProg k' q2.
Proof.
  intros Hk Hp Hq Hs; inversion Hs as [? ? ? p' ? Ha | ? ? ? q' ? Ha]; subst.
  - pose proof (advance_local k _ _ _ _ Hp Ha) as Hp'.
    destruct (advance_step _ _ _ _ Ha) as (C & t & kont & -> & -> & Hrun).
    rewrite !seq_result_eq, (Hrun db eq_refl); split; [reflexivity | auto].
  - pose proof (advance_local k' _ _ _ _ Hq Ha) as Hq'.
    destruct (advance_step _ _ _ _ Ha) as (C & t & kont & -> & -> & Hrun).
    destruct (run_comm k k' _ t Hp (proj1 (local_head _ _ Hq)) Hk db) as [R1 [E1 E2]].
    cbn [fst snd] in E1, E2; destruct (run_proper k' _ Hq' _ _ E2) as [P1 P2].
    rewrite !seq_result_eq, (Hrun _ R1); split; [|auto].
    split; [symmetry; exact P2 | split; cbn [snd fst]; congruence].
Qed.

(** Two programs local to independent footprints: every interleaving
    that runs both to their end gives, up to [eqv], the state and exactly
    the results of the sequential run. *)
Lemma local_interleavings {A B} k k' db (p : Prog A) (q : Prog B) dbf pf qf :
  indep k k' -> LocalProg k p -> LocalProg k' q ->
  istar (db, p, q) (dbf, pf, qf) -> final pf -> final qf ->
  cfg_eqv (dbf, pf, qf) (seq_result (db, p, q)).
Proof.
  intros Hk Hp Hq Hst; remember (db, p, q) as c eqn:Ec; remember (dbf, pf, qf) as c' eqn:Ec'.
  revert db p q Ec Hp Hq; induction Hst as [c|c1 [[db2 p2] q2] c3 Hs Hst IH];
    intros db p q -> Hp Hq Hpf Hqf; subst.
  - inv Ec'; rewrite seq_result_final by assumption; reflexivity.
  - destruct (istep_seq k k' db p q db2 p2 q2 Hk Hp Hq Hs) as (E & Hp2 & Hq2).
    rewrite E; apply (IH eq_refl db2 p2 q2 eq_refl Hp2 Hq2 Hpf Hqf).
Qed.

End Footprint.

(** With equality as [eqv], [cfg_eqv] is equality. *)
Lemma cfg_eqv_eq {A B} (c1 c2 : DB * Prog A * Prog B) : cfg_eqv eq c1 c2 -> c1 = c2.
Proof. destruct c1 as [[d1 p1] q1], c2 as [[d2 p2] q2]; intros (E1 & E2 & E3); simpl in *; congruence. Qed.

(** ** Footprints that are keys of one table *)

Section Table.
Context {R K V : Type} `{KeyEq K} (T : Table R) (key : R -> K) (view : DB -> V).

Definition key_preserving (k : K) (w : KeyWrite R) : Prop :=
  match w with
  | WUpdate f => forall r, key (f r) = key r
  | WDelete => True
  | WInsert r => key r = k
  end.

Definition apply_write (k : K) (w : KeyWrite R) (rows : list R) : list R :=
  match w with
  | WUpdate f => update_rows (fun r => key r ==? k) f rows
  | WDelete => delete_rows (fun r => key r ==? k) rows
  | WInsert r => rows ++ [r]
  end.

(** The part of the database a statement local to [k] may read. *)
Definition agree (k : K) (db1 db2 : DB) : Prop :=
  view db1 = view db2 /\ with_key key k (tget T db1) = with_key key k (tget T db2).

(** A write on the rows of [k]. *)
Definition apply_at (k : K) (w : KeyWrite R) (db : DB) : DB :=
  tset T (apply_write k w (tget T db)) db.

Lemma apply_write_other k k' w rows :
  k <> k' -> key_preserving k w -> with_key key k' (apply_write k w rows) = with_key key k' rows.
Proof.
  destruct w as [f| |r]; simpl; intros Hk Hw; [apply with_key_update_other | apply with_key_delete_other |];
    auto.
  unfold with_key; rewrite filter_app; simpl; rewrite Hw.
  destruct (key_eqb_spec k k'); [contradiction | apply app_nil_r].
Qed.

(** Two writes on the table are one [tset] of both row updates. *)
Lemma apply_at_twice k k' w w' db :
  apply_at k w (apply_at k' w' db) = tset T (apply_write k w (apply_write k' w' (tget T db))) db.
Proof. unfold apply_at; rewrite tget_tset, tset_tset; reflexivity. Qed.

Lemma agree_refl k db : agree k db db.
Proof. split; reflexivity. Qed.

Lemma apply_at_id k db : apply_at k (WUpdate (fun r => r)) db = db.
Proof. unfold apply_at; cbn [apply_write]; rewrite update_rows_id; apply tset_tget. Qed.

(** A write on key [k] is invisible to a reader of key [k'] when
    [k <> k'] and no write to [T] changes the view. *)
Lemma table_apply_agree k k' w db :
  (forall rows db, view (tset T rows db) = view db) ->
  k <> k' -> key_preserving k w -> agree k' (apply_at k w db) db.
Proof.
  intros Hv Hk Hw; unfold apply_at; split; [apply Hv|].
  rewrite tget_tset; apply apply_write_other; assumption.
Qed.

Context (writes : K -> KeyWrite R -> Prop).

Lemma local_readonly {B} k (s : M B) :
  writes k (WUpdate (fun r => r)) ->
  (forall db, snd (s db) = db) -> (forall db1 db2, agree k db1 db2 -> fst (s db1) = fst (s db2)) ->
  Local agree apply_at writes k s.
Proof. intros Hid; apply footprint_readonly with (WUpdate (fun r => r)); [exact Hid | apply apply_at_id]. Qed.

(** [SELECT * FROM T WHERE key = k] *)
Lemma select_local k :
  writes k (WUpdate (fun r => r)) -> Local agree apply_at writes k (select T (fun r => key r ==? k)).
Proof.
  intros Hid; apply local_readonly; [exact Hid | reflexivity |].
  intros db1 db2 [_ Ha]; cbn [select fst]; f_equal; exact Ha.
Qed.

(** [UPDATE T SET ... WHERE key = k] *)
Lemma update_local k f :
  writes k (WUpdate f) -> Local agree apply_at writes k (update T (fun r => key r ==? k) f).
Proof. intros Hf; split; [exists (WUpdate f); split; [exact Hf | reflexivity] | reflexivity]. Qed.

(** [DELETE FROM T WHERE key = k] *)
Lemma delete_local k : writes k WDelete -> Local agree apply_at writes k (delete T (fun r => key r ==? k)).
Proof. intros Hd; split; [exists WDelete; split; [exact Hd | reflexivity] | reflexivity]. Qed.

(** [INSERT INTO T VALUES (r)] for a row of key [k] *)
Lemma insert_local k r : writes k (WInsert r) -> Local agree apply_at writes k (insert_row T r).
Proof. intros Hi; split; [exists (WInsert r); split; [exact Hi | reflexivity] | reflexivity]. Qed.

End Table.

(** ** Writes in place: equality *)

Section InPlace.
Context {R K V : Type} `{KeyEq K} (T : Table R) (key : R -> K) (view : DB -> V).
Hypothesis view_tset : forall rows db, view (tset T rows db) = view db.

(** Key-preserving UPDATEs and DELETEs. *)
Definition in_place (k : K) (w : KeyWrite R) : Prop :=
  key_preserving key k w /\ match w with WInsert _ => False | _ => True end.

Lemma in_place_key k w : in_place k w -> key_preserving key k w.
Proof. intros [Hw _]; exact Hw. Qed.

Lemma in_place_id k : in_place k (WUpdate (fun r => r)).
Proof. split; [intros r; reflexivity | exact I]. Qed.

Lemma in_place_comm k k' w w' db :
  k <> k' -> in_place k w -> in_place k' w' ->
  apply_at T key k w (apply_at T key k' w' db) = apply_at T key k' w' (apply_at T key k w db).
Proof.
  rewrite !apply_at_twice; intros Hk [Hw Hw0] [Hw' Hw0']; f_equal.
  destruct w as [f| |r], w' as [g| |r']; try contradiction; simpl in *.
  - apply update_rows_comm; auto.
  - apply update_delete_comm; auto.
  - symmetry; apply update_delete_comm; auto.
  - apply delete_rows_comm.
Qed.

Lemma eq_write_proper k w (db1 db2 : DB) :
  in_place k w -> db1 = db2 ->
  apply_at T key k w db1 = apply_at T key k w db2.
Proof. intros _ ->; reflexivity. Qed.

Lemma eq_agree k (db1 db2 : DB) : db1 = db2 -> agree T key view k db1 db2.
Proof. intros ->; split; reflexivity. Qed.

Lemma in_place_agree k k' w db :
  k <> k' -> in_place k w -> agree T key view k' (apply_at T key k w db) db.
Proof. intros Hk Hw; apply table_apply_agree; [exact view_tset | exact Hk | apply in_place_key, Hw]. Qed.

(** Programs that only UPDATE and DELETE the rows of their keys: every
    complete interleaving of two of them on different keys is exactly the
    sequential run. *)
Lemma local_interleavings_eq {A B} k k' db (p : Prog A) (q : Prog B) dbf pf qf :
  k <> k' -> LocalProg (agree T key view) (apply_at T key) in_place k p ->
  LocalProg (agree T key view) (apply_at T key) in_place k' q ->
  istar (db, p, q) (dbf, pf, qf) -> final pf -> final qf ->
  (dbf, pf, qf) = seq_result (db, p, q).
Proof.
  intros Hk Hp Hq Hs Hpf Hqf.
  apply cfg_eqv_eq.
  apply (local_interleavings (agree T key view) (apply_at T key) in_place (fun k k' => k <> k') eq
           (fun k k' H => not_eq_sym H) in_place_agree in_place_comm eq_write_proper eq_agree
           k k' db p q dbf pf qf Hk Hp Hq Hs Hpf Hqf).
Qed.

End InPlace.

(** ** Writes that insert: equality key by key *)

Section KeyWise.
Context {R K V : Type} `{KeyEq K} (T : Table R) (key : R -> K) (view : DB -> V).
Hypothesis view_tset : forall rows db, view (tset T rows db) = view db.

(** The same rows for every key, in the same order within a key, and the
    same other tables: SQL does not order the rows of a table. *)
Definition keywise (db1 db2 : DB) : Prop :=
  (forall k, with_key key k (tget T db1) = with_key key k (tget T db2)) /\
  tset T [] db1 = tset T [] db2.

#[export] Instance keywise_Equivalence : Equivalence keywise.
Proof.
  split.
  - intros db; split; [intros k|]; reflexivity.
  - intros x y [H1 H2]; split; [intros k; symmetry; apply H1 | symmetry; exact H2].
  - intros x y z [H1 H2] [G1 G2]; split; [intros k; rewrite H1; apply G1 | congruence].
Qed.

(** The rows of key [j] after a write on key [k]. *)
Lemma with_key_apply_write k w rows j :
  key_preserving key k w ->
  with_key key j (apply_write key k w rows) =
  if j ==? k then apply_write key k w (with_key key j rows) else with_key key j rows.
Proof.
  intros Hw; destr_key j k; [|apply apply_write_other; auto].
  destruct w as [f| |r]; simpl in *.
  - unfold with_key; rewrite filter_update_rows_same by (intros r Hr; rewrite Hw; exact Hr).
    unfold update_rows; apply map_ext_in; intros r Hr; apply filter_In in Hr as [_ ->]; reflexivity.
  - rewrite with_key_delete_rows; unfold with_key, delete_rows; symmetry.
    apply filter_all_false; intros r Hr; apply filter_In in Hr as [_ ->]; reflexivity.
  - unfold with_key; rewrite filter_app; simpl; rewrite Hw, key_eqb_refl; reflexivity.
Qed.

Lemma keywise_write k w db1 db2 :
  key_preserving key k w -> keywise db1 db2 ->
  keywise (apply_at T key k w db1) (apply_at T key k w db2).
Proof.
  unfold apply_at; intros Hw [E1 E2]; split; [|rewrite !tset_tset; exact E2].
  intros j; rewrite !tget_tset, (with_key_apply_write k w (tget T db1) j Hw),
    (with_key_apply_write k w (tget T db2) j Hw), (E1 j); reflexivity.
Qed.

Lemma keywise_comm k k' w w' db :
  k <> k' -> key_preserving key k w -> key_preserving key k' w' ->
  keywise (apply_at T key k w (apply_at T key k' w' db)) (apply_at T key k' w' (apply_at T key k w db)).
Proof.
  rewrite !apply_at_twice; intros Hk Hw Hw'; split; [|rewrite !tset_tset; reflexivity].
  intros j; rewrite !tget_tset; repeat rewrite with_key_apply_write by assumption.
  destruct (key_eqb_spec j k), (key_eqb_spec j k'); try congruence; reflexivity.
Qed.

Lemma keywise_apply_agree k k' w db :
  k <> k' -> key_preserving key k w -> agree T key view k' (apply_at T key k w db) db.
Proof. apply table_apply_agree, view_tset. Qed.

Lemma keywise_agree k db1 db2 : keywise db1 db2 -> agree T key view k db1 db2.
Proof.
  intros [E1 E2]; split; [|apply E1].
  rewrite <- (view_tset [] db1), <- (view_tset [] db2), E2; reflexivity.
Qed.

(** Programs that may also INSERT rows of their keys: every complete
    interleaving of two of them on different keys has exactly the results
    of the sequential run and its rows, key by key. *)
Lemma local_interleavings_keywise {A B} k k' db (p : Prog A) (q : Prog B) dbf pf qf :
  k <> k' -> LocalProg (agree T key view) (apply_at T key) (key_preserving key) k p ->
  LocalProg (agree T key view) (apply_at T key) (key_preserving key) k' q ->
  istar (db, p, q) (dbf, pf, qf) -> final pf -> final qf ->
  cfg_eqv keywise (dbf, pf, qf) (seq_result (db, p, q)).
Proof.
  apply (local_interleavings (agree T key view) (apply_at T key) (key_preserving key)
           (fun k k' => k <> k') keywise (fun k k' H => not_eq_sym H) keywise_apply_agree
           keywise_comm keywise_write keywise_agree).
Qed.

End KeyWise.

(** ** Two footprint systems that do not see each other's writes *)

Section Pair.
Context {K1 W1 K2 W2 : Type}
        (agree1 : K1 -> DB -> DB -> Prop) (apply1 : K1 -> W1 -> DB -> DB) (writes1 : K1 -> W1 -> Prop)
        (agree2 : K2 -> DB -> DB -> Prop) (apply2 : K2 -> W2 -> DB -> DB) (writes2 : K2 -> W2 -> Prop).
Hypothesis agree1_refl : forall k db, agree1 k db db.
Hypothesis agree2_refl : forall k db, agree2 k db db.
Hypothesis cross12 : forall k1 k2 w db, writes1 k1 w -> agree2 k2 (apply1 k1 w db) db.
Hypothesis cross21 : forall k2 k1 w db, writes2 k2 w -> agree1 k1 (apply2 k2 w db) db.
Hypothesis cross_comm : forall k1 k2 w1 w2 db, writes1 k1 w1 -> writes2 k2 w2 ->
  apply1 k1 w1 (apply2 k2 w2 db) = apply2 k2 w2 (apply1 k1 w1 db).

Definition pair_agree (k : K1 + K2) : DB -> DB -> Prop :=
  match k with inl k1 => agree1 k1 | inr k2 => agree2 k2 end.

Definition pair_apply (k : K1 + K2) (w : W1 + W2) (db : DB) : DB :=
  match k, w with
  | inl k1, inl w1 => apply1 k1 w1 db
  | inr k2, inr w2 => apply2 k2 w2 db
  | _, _ => db
  end.

Definition pair_writes (k : K1 + K2) (w : W1 + W2) : Prop :=
  match k, w with
  | inl k1, inl w1 => writes1 k1 w1
  | inr k2, inr w2 => writes2 k2 w2
  | _, _ => False
  end.

(** Footprints of the two systems are independent of each other. *)
Definition sides_differ (k k' : K1 + K2) : Prop :=
  match k, k' with inl _, inr _ | inr _, inl _ => True | _, _ => False end.

Lemma pair_prog_left {A} k1 (p : Prog A) :
  LocalProg agree1 apply1 writes1 k1 p -> LocalProg pair_agree pair_apply pair_writes (inl k1) p.
Proof.
  induction 1 as [a|e|B s kont [[w [Hw Hs]] Hr] _ IH]; constructor; auto.
  split; [exists (inl w); split; assumption | exact Hr].
Qed.

Lemma pair_prog_right {A} k2 (p : Prog A) :
  LocalProg agree2 apply2 writes2 k2 p -> LocalProg pair_agree pair_apply pair_writes (inr k2) p.
Proof.
  induction 1 as [a|e|B s kont [[w [Hw Hs]] Hr] _ IH]; constructor; auto.
  split; [exists (inr w); split; assumption | exact Hr].
Qed.

(** A program of the first system and a program of the second, whatever
    their footprints: every complete interleaving is exactly the
    sequential run. *)
Lemma pair_interleavings {A B} k1 k2 db (p : Prog A) (q : Prog B) dbf pf qf :
  LocalProg agree1 apply1 writes1 k1 p -> LocalProg agree2 apply2 writes2 k2 q ->
  istar (db, p, q) (dbf, pf, qf) -> final pf -> final qf ->
  (dbf, pf, qf) = seq_result (db, p, q).
Proof.
  intros Hp Hq Hs Hpf Hqf; apply cfg_eqv_eq.
  apply (local_interleavings pair_agree pair_apply pair_writes sides_differ eq) with (inl k1) (inr k2);
    auto using pair_prog_left, pair_prog_right; simpl; auto.
  - intros [] []; simpl; auto.
  - intros [] [] [] d; simpl; try contradiction; auto.
  - intros [] [] [] [] d; simpl; try contradiction; auto.
    intros; symmetry; auto.
  - intros k w d1 d2 _ ->; reflexivity.
  - intros [] d1 d2 ->; simpl; auto.
Qed.

End Pair.

End Locality.
