(* ===== verification/Independence.v ===== *)
(** * Instances of locality: calls on different keys do not interfere

    The framework of [Locality.v] applied to the handlers of the service.
    Every [clearPermissions] program is local to its relationship of
    [user_permissions], reading also [scuttlespace_user], and writes in
    place ([clear_prog_local]); every editor and [destroy] program is local
    to its network id of [account] ([account_prog_local]); every
    [addPermissions] program is local to its (username, assignee) key of
    [account_permissions], reading also [account], and may INSERT
    ([add_prog_local]).  Hence concurrent calls on different keys are
    [serializable] (every complete interleaving is the sequential run):
    exactly for clears ([clear_independent]) and account operations
    ([account_independent]), and for grants with the same results and the
    same rows key by key, the order of rows across keys being that of the
    INSERTs ([add_independent]).  This confines the races of
    [Races.v] to calls on one key.  A [clearPermissions] call works on
    tables that [addPermissions] and the account operations neither read
    nor write, so it commutes exactly with both, whatever the keys
    ([clear_add_independent], [clear_account_independent]). *)

From Stdlib Require Import String List Bool Arith Lia.
From S2P Require Import Prelude Store Codec UserGet ModifyAccount AddPermissions ClearPermissions Interleave Locality.
Import ListNotations.
Open Scope string_scope.

Module Independence.
Import Interleave Locality.

(** Two calls started on [db] are serializable when every interleaving
    that runs both to their end reaches exactly the database and the
    results of running the first call and then the second. *)
Definition serializable {A B} (db : DB) (p : Prog A) (q : Prog B) : Prop :=
  forall dbf pf qf, istar (db, p, q) (dbf, pf, qf) -> final pf -> final qf ->
  (dbf, pf, qf) = seq_result (db, p, q).

(** The same, with the database of the sequential run up to [eqv]. *)
Definition serializable_upto {A B} (eqv : DB -> DB -> Prop) (db : DB) (p : Prog A) (q : Prog B) : Prop :=
  forall dbf pf qf, istar (db, p, q) (dbf, pf, qf) -> final pf -> final qf ->
  cfg_eqv eqv (dbf, pf, qf) (seq_result (db, p, q)).

(** ** The statements of [clearPermissions] are local to its relationship *)

(** Locality for [user_permissions], keyed by (assignee, assigner), where
    readers may also read [scuttlespace_user]. *)
Definition ClearLocal {B} :=
  @Local _ _ (agree user_permissions_tbl ClearPermissions.pair_key scuttlespace_user)
    (apply_at user_permissions_tbl ClearPermissions.pair_key) (in_place ClearPermissions.pair_key) B.
Definition ClearLocalProg {A} :=
  @LocalProg _ _ (agree user_permissions_tbl ClearPermissions.pair_key scuttlespace_user)
    (apply_at user_permissions_tbl ClearPermissions.pair_key) (in_place ClearPermissions.pair_key) A.

Lemma findUser_local k args : ClearLocal k (UserGet.findUser args).
Proof.
  apply local_readonly; [apply in_place_id | apply UserGet.findUser_readonly|].
  intros db1 db2 [H _]; apply UserGet.findUser_view, H.
Qed.

Lemma getPermissions_local a b : ClearLocal (a, b) (ClearPermissions.getPermissionsForUser a b).
Proof.
  apply local_readonly; [apply in_place_id | |].
  - intros db; apply (ClearPermissions.getPermissions_view a b db db eq_refl).
  - intros db1 db2 [_ H]; apply (ClearPermissions.getPermissions_view a b db1 db2 H).
Qed.

Lemma clear_prog_local m a b : ClearLocalProg (a, b) (clear_prog m a b).
Proof.
  apply lp_step; [apply parse_local, findUser_local | intros [user|]; [|apply lp_done]].
  apply lp_step; [apply parse_local, getPermissions_local | intros [mp|]; [|apply lp_done]].
  change (ClearPermissions.by_pair a b) with (fun r => ClearPermissions.pair_key r ==? (a, b)).
  apply lp_step; [apply update_local; split; [intros r; apply ClearPermissions.set_permissions_key | exact I]
                 | intros; apply lp_done].
Qed.

(** C13. Concurrent [clearPermissions] calls on different relationships
    (assignee, assigner) do not interfere: however their round trips to
    the database interleave, once both have finished the database and both
    results are those of running one call and then the other. *)
Theorem clear_independent m a b m' a' b' db :
  (a, b) <> (a', b') -> serializable db (clear_prog m a b) (clear_prog m' a' b').
Proof.
  intros Hk dbf pf qf; apply (local_interleavings_eq user_permissions_tbl ClearPermissions.pair_key scuttlespace_user
                      (fun _ _ => eq_refl) (a, b) (a', b'));
    [exact Hk | apply clear_prog_local ..].
Qed.

(** [alice] grants both [bob] and [carol]. *)
Definition two_grants_db : DB :=
  {| account := [];
     scuttlespace_user := [mkAccountRow "alice-id" "alice" None "" true];
     account_permissions := [];
     user_permissions := [ClearPermissions.perm_row "bob-id" "alice-id" "blog:read,docs:write";
                          ClearPermissions.perm_row "carol-id" "alice-id" "blog:write,docs:read"] |}.

Lemma clear_independent_witness :
  exists dbf pf qf,
    istar (two_grants_db, clear_prog "docs" "bob-id" "alice-id", clear_prog "blog" "carol-id" "alice-id")
          (dbf, pf, qf) /\ final pf /\ final qf /\
    (dbf, pf, qf) =
      seq_result (two_grants_db, clear_prog "docs" "bob-id" "alice-id", clear_prog "blog" "carol-id" "alice-id").
Proof.
  do 3 eexists.
  match goal with |- istar ?c ?c' /\ _ => assert (H : istar c c') end.
  { left_step; right_step; left_step; right_step; left_step; right_step; apply istar_refl. }
  refine (conj H (conj I (conj I _))).
  apply (clear_independent "docs" "bob-id" "alice-id" "blog" "carol-id" "alice-id" _
           ltac:(discriminate) _ _ _ H I I).
Defined.

(** ** Account operations are local to their network id *)

(** Locality for [account], keyed by network id; readers read nothing
    else. *)
Definition AccountLocal {B} :=
  @Local _ _ (agree account_tbl network_id (fun _ : DB => tt)) (apply_at account_tbl network_id) (in_place network_id) B.
Definition AccountLocalProg {A} :=
  @LocalProg _ _ (agree account_tbl network_id (fun _ : DB => tt)) (apply_at account_tbl network_id) (in_place network_id) A.

Lemma ensure_local nid : AccountLocal nid (ModifyAccount.ensureAccountExists nid).
Proof.
  apply local_readonly; [apply in_place_id | intros db; rewrite ModifyAccount.ensure_run; reflexivity|].
  intros db1 db2 [_ Ha]; change (tget account_tbl ?d) with (account d) in Ha.
  rewrite !ModifyAccount.ensure_run, Ha; reflexivity.
Qed.

(** The operations of src/modify-account.ts on one account. *)
Inductive AccountOp :=
| AEdit (op : ModifyAccount.AccountEdit)
| ADestroy.

Definition account_prog (o : AccountOp) (networkId : string) : Prog (ServiceResult unit) :=
  match o with
  | AEdit op => edit_prog op networkId
  | ADestroy => destroy_prog networkId
  end.

Lemma account_prog_local o nid : AccountLocalProg nid (account_prog o nid).
Proof.
  destruct o as [op|]; unfold account_prog, edit_prog, destroy_prog;
    change (ModifyAccount.by_network_id nid) with (fun r => network_id r ==? nid);
    (apply lp_step; [apply ensure_local | intros _]).
  - apply lp_step; [apply update_local; split; [intros r; apply ModifyAccount.edit_set_key | exact I]
                   | intros; apply lp_done].
  - apply lp_step; [apply select_local, in_place_id | intros [|r rows]; [apply lp_fail|]].
    destruct (negb (enabled r)); [|apply lp_done].
    apply lp_step; [apply delete_local; split; exact I | intros; apply lp_done].
Qed.

(** C14. Concurrent account operations ([editAbout], [editDomain],
    [editUsername], [enable], [disable], [destroy]) on different network
    ids do not interfere: however their round trips interleave, once both
    have finished the database and both results are those of running one
    and then the other. *)
Theorem account_independent o o' nid nid' db :
  nid <> nid' -> serializable db (account_prog o nid) (account_prog o' nid').
Proof.
  intros Hk dbf pf qf; apply (local_interleavings_eq account_tbl network_id (fun _ : DB => tt)
                               (fun _ _ => eq_refl) nid nid');
    [exact Hk | apply account_prog_local ..].
Qed.

Lemma account_independent_witness :
  exists dbf pf qf,
    istar (ModifyAccount.db_n1 false, account_prog ADestroy "n1",
           account_prog (AEdit (ModifyAccount.EditAbout "hi")) "n2") (dbf, pf, qf) /\
    final pf /\ final qf /\
    (dbf, pf, qf) = seq_result (ModifyAccount.db_n1 false, account_prog ADestroy "n1",
                                account_prog (AEdit (ModifyAccount.EditAbout "hi")) "n2").
Proof.
  do 3 eexists.
  match goal with |- istar ?c ?c' /\ _ => assert (H : istar c c') end.
  { left_step; right_step; left_step; right_step; left_step; apply istar_refl. }
  refine (conj H (conj I (conj I _))).
  apply (account_independent ADestroy (AEdit (ModifyAccount.EditAbout "hi")) "n1" "n2" _
           ltac:(discriminate) _ _ _ H I I).
Defined.

(** ** Grants are local to their (username, assignee) key *)

(** Locality for [account_permissions], keyed by (username, assignee),
    where readers may also read [account]; the writes may INSERT. *)
Definition AddLocal {B} :=
  @Local _ _ (agree account_permissions_tbl AddPermissions.ap_key account)
    (apply_at account_permissions_tbl AddPermissions.ap_key) (key_preserving AddPermissions.ap_key) B.
Definition AddLocalProg {A} :=
  @LocalProg _ _ (agree account_permissions_tbl AddPermissions.ap_key account)
    (apply_at account_permissions_tbl AddPermissions.ap_key) (key_preserving AddPermissions.ap_key) A.

(** The ownership check reads [account] only. *)
Lemma account_select_local k p : AddLocal k (select account_tbl p).
Proof.
  apply local_readonly; [intros r; reflexivity | reflexivity |].
  intros db1 db2 [Hv _]; unfold select; cbn [fst].
  change (tget account_tbl ?d) with (account d); rewrite Hv; reflexivity.
Qed.

Lemma singleOrNone_local {X} k (rows : list X) : AddLocal k (singleOrNone rows).
Proof.
  apply local_readonly; [intros r; reflexivity | |];
    [intros db | intros db1 db2 _]; destruct rows as [|x [|y l]]; reflexivity.
Qed.

Lemma add_prog_local u a c ps : AddLocalProg (u, a) (add_prog u a c ps).
Proof.
  unfold add_prog.
  change (AddPermissions.permissions_by u a) with (fun r => AddPermissions.ap_key r ==? (u, a)).
  apply lp_step; [apply account_select_local | intros accountRows].
  destruct (Nat.eqb (length accountRows) 1).
  - apply lp_step; [apply select_local; intros r; reflexivity | intros permissionsRows].
    destruct (Nat.eqb (length permissionsRows) 0); [|destruct (Nat.eqb (length permissionsRows) 1)].
    + apply lp_step; [apply insert_local; reflexivity | intros; apply lp_done].
    + apply lp_step; [apply update_local; intros r; reflexivity | intros; apply lp_done].
    + apply lp_step; [apply singleOrNone_local | intros; apply lp_done].
  - destruct (Nat.eqb (length accountRows) 0); [apply lp_fail|].
    apply lp_step; [apply singleOrNone_local | intros; apply lp_done].
Qed.

(** C15. Concurrent [addPermissions] calls for different (username,
    assignee) keys do not interfere: however their round trips
    interleave, once both have finished each call has the result it has in
    the sequential run, the other tables are those of the sequential run,
    and [account_permissions] holds the same rows for every key; only the
    order of the rows of the two keys may differ, as the INSERTs happened. *)
Theorem add_independent u a c ps u' a' c' ps' db :
  (u, a) <> (u', a') ->
  serializable_upto (keywise account_permissions_tbl AddPermissions.ap_key) db
    (add_prog u a c ps) (add_prog u' a' c' ps').
Proof.
  intros Hk dbf pf qf; apply (local_interleavings_keywise account_permissions_tbl AddPermissions.ap_key account
                      (fun _ _ => eq_refl) (u, a) (u', a'));
    [exact Hk | apply add_prog_local ..].
Qed.

(** [alice] owns the username [alice]. *)
Definition owner_db : DB :=
  {| account := [mkAccountRow "alice-id" "alice" None "" true];
     scuttlespace_user := []; account_permissions := []; user_permissions := [] |}.

(** Two grants of [alice], to [bob] and to [carol]; the second INSERT
    runs first, so the rows are in the other order than sequentially. *)
Lemma add_independent_witness :
  exists dbf pf qf,
    istar (owner_db, add_prog "alice" "bob-id" "alice-id" ["docs:read"],
                     add_prog "alice" "carol-id" "alice-id" ["blog:write"]) (dbf, pf, qf) /\
    final pf /\ final qf /\
    cfg_eqv (keywise account_permissions_tbl AddPermissions.ap_key) (dbf, pf, qf)
            (seq_result (owner_db, add_prog "alice" "bob-id" "alice-id" ["docs:read"],
                                   add_prog "alice" "carol-id" "alice-id" ["blog:write"])) /\
    dbf <> fst (fst (seq_result (owner_db, add_prog "alice" "bob-id" "alice-id" ["docs:read"],
                                           add_prog "alice" "carol-id" "alice-id" ["blog:write"]))).
Proof.
  do 3 eexists.
  match goal with |- istar ?c ?c' /\ _ => assert (H : istar c c') end.
  { left_step; right_step; left_step; right_step; right_step; left_step; apply istar_refl. }
  refine (conj H (conj I (conj I (conj _ _)))).
  - apply (add_independent "alice" "bob-id" "alice-id" ["docs:read"] "alice" "carol-id" "alice-id"
             ["blog:write"] _ ltac:(discriminate) _ _ _ H I I).
  - vm_compute; discriminate.
Defined.

(** ** Calls on different tables *)

(** Writes to [user_permissions] and to [account_permissions] or [account]
    are invisible to each other's readers and commute exactly. *)
Lemma clear_add_footprints :
  (forall k db, agree user_permissions_tbl ClearPermissions.pair_key scuttlespace_user k db db) /\
  (forall k db, agree account_permissions_tbl AddPermissions.ap_key account k db db) /\
  (forall k1 k2 w db, in_place ClearPermissions.pair_key k1 w ->
     agree account_permissions_tbl AddPermissions.ap_key account k2
       (apply_at user_permissions_tbl ClearPermissions.pair_key k1 w db) db) /\
  (forall k2 k1 w db, key_preserving AddPermissions.ap_key k2 w ->
     agree user_permissions_tbl ClearPermissions.pair_key scuttlespace_user k1
       (apply_at account_permissions_tbl AddPermissions.ap_key k2 w db) db) /\
  (forall k1 k2 w1 w2 db, in_place ClearPermissions.pair_key k1 w1 -> key_preserving AddPermissions.ap_key k2 w2 ->
     apply_at user_permissions_tbl ClearPermissions.pair_key k1 w1
       (apply_at account_permissions_tbl AddPermissions.ap_key k2 w2 db) =
     apply_at account_permissions_tbl AddPermissions.ap_key k2 w2
       (apply_at user_permissions_tbl ClearPermissions.pair_key k1 w1 db)).
Proof. repeat split; intros; reflexivity. Qed.

Lemma clear_account_footprints :
  (forall k db, agree account_tbl network_id (fun _ : DB => tt) k db db) /\
  (forall k1 k2 w db, in_place ClearPermissions.pair_key k1 w ->
     agree account_tbl network_id (fun _ : DB => tt) k2
       (apply_at user_permissions_tbl ClearPermissions.pair_key k1 w db) db) /\
  (forall k2 k1 w db, in_place network_id k2 w ->
     agree user_permissions_tbl ClearPermissions.pair_key scuttlespace_user k1
       (apply_at account_tbl network_id k2 w db) db) /\
  (forall k1 k2 w1 w2 db, in_place ClearPermissions.pair_key k1 w1 -> in_place network_id k2 w2 ->
     apply_at user_permissions_tbl ClearPermissions.pair_key k1 w1 (apply_at account_tbl network_id k2 w2 db) =
     apply_at account_tbl network_id k2 w2 (apply_at user_permissions_tbl ClearPermissions.pair_key k1 w1 db)).
Proof. repeat split; intros; reflexivity. Qed.

(** C16. A [clearPermissions] call and a concurrent [addPermissions] call
    do not interfere, whatever their users: the first reads
    [scuttlespace_user] and writes [user_permissions], the second reads
    [account] and writes [account_permissions], so however their round
    trips interleave, once both have finished the database and both results
    are those of running one call and then the other. *)
Theorem clear_add_independent m a b u a' c ps db :
  serializable db (clear_prog m a b) (add_prog u a' c ps).
Proof.
  intros dbf pf qf.
  destruct clear_add_footprints as (R1 & R2 & X12 & X21 & XC).
  apply (pair_interleavings _ _ _ _ _ _ R1 R2 X12 X21 XC (a, b) (u, a'));
    [apply clear_prog_local | apply add_prog_local].
Qed.

(** [alice] has an account and has granted [bob]. *)
Definition alice_db : DB :=
  {| account := [mkAccountRow "alice-id" "alice" None "" true];
     scuttlespace_user := [mkAccountRow "alice-id" "alice" None "" true];
     account_permissions := [];
     user_permissions := [ClearPermissions.perm_row "bob-id" "alice-id" "blog:read,docs:write"] |}.

Lemma clear_add_independent_witness :
  exists dbf pf qf,
    istar (alice_db, clear_prog "docs" "bob-id" "alice-id", add_prog "alice" "carol-id" "alice-id" ["blog:write"])
          (dbf, pf, qf) /\ final pf /\ final qf /\
    (dbf, pf, qf) =
      seq_result (alice_db, clear_prog "docs" "bob-id" "alice-id",
                  add_prog "alice" "carol-id" "alice-id" ["blog:write"]).
Proof.
  do 3 eexists.
  match goal with |- istar ?c ?c' /\ _ => assert (H : istar c c') end.
  { right_step; left_step; right_step; left_step; right_step; left_step; apply istar_refl. }
  refine (conj H (conj I (conj I _))).
  apply (clear_add_independent "docs" "bob-id" "alice-id" "alice" "carol-id" "alice-id" ["blog:write"]
           _ _ _ _ H I I).
Defined.

(** C17. A [clearPermissions] call and a concurrent account operation
    ([editAbout], [editDomain], [editUsername], [enable], [disable],
    [destroy]) do not interfere, whatever the accounts: the account
    operation reads and writes [account] only, which [clearPermissions]
    neither reads nor writes, so every complete interleaving gives the
    database and results of the sequential run. *)
Theorem clear_account_independent m a b o nid db :
  serializable db (clear_prog m a b) (account_prog o nid).
Proof.
  intros dbf pf qf.
  destruct clear_add_footprints as (R1 & _).
  destruct clear_account_footprints as (R2 & X12 & X21 & XC).
  apply (pair_interleavings _ _ _ _ _ _ R1 R2 X12 X21 XC (a, b) nid);
    [apply clear_prog_local | apply account_prog_local].
Qed.

Lemma clear_account_independent_witness :
  exists dbf pf qf,
    istar (alice_db, clear_prog "docs" "bob-id" "alice-id", account_prog ADestroy "alice-id")
          (dbf, pf, qf) /\ final pf /\ final qf /\
    (dbf, pf, qf) = seq_result (alice_db, clear_prog "docs" "bob-id" "alice-id", account_prog ADestroy "alice-id").
Proof.
  do 3 eexists.
  match goal with |- istar ?c ?c' /\ _ => assert (H : istar c c') end.
  { left_step; right_step; left_step; right_step; left_step; apply istar_refl. }
  refine (conj H (conj I (conj I _))).
  apply (clear_account_independent "docs" "bob-id" "alice-id" ADestroy "alice-id" _ _ _ _ H I I).
Defined.

End Independence.
