(* ===== verification/Progress.v ===== *)
(** * Termination, bounds and completion of interleavings

    Every handler of the service is a finite sequence of awaited store
    calls with no loop, so a handler program makes a bounded number of
    round trips ([within]).  Here the handlers that write are gathered as
    [Call]s with one reply type, and the theorems show, for two concurrent
    calls: no interleaving goes on forever (accessibility of the converse
    of [istep]), every interleaving has at most as many steps as the two
    bounds together, and from every configuration an interleaving can
    reach one where both calls have finished; a configuration where
    neither call can move is one where both have finished. *)

From Stdlib Require Import String List Bool Arith Lia.
From S2P Require Import Prelude Store Codec UserGet ModifyAccount AddPermissions ClearPermissions Interleave.
Import ListNotations.
Open Scope string_scope.

Module Progress.
Import Interleave.

(** A program that makes at most [n] more round trips. *)
Fixpoint within {A} (n : nat) (p : Prog A) {struct p} : Prop :=
  match p with
  | Step _ k => match n with 0 => False | S n' => forall b, within n' (k b) end
  | _ => True
  end.

(** Interleavings counted in steps. *)
Inductive isteps {A B} : nat -> DB * Prog A * Prog B -> DB * Prog A * Prog B -> Prop :=
| isteps_refl c : isteps 0 c c
| isteps_step n c1 c2 c3 : istep c1 c2 -> isteps n c2 c3 -> isteps (S n) c1 c3.

(** The converse of [istep]: a configuration is accessible when no
    infinite interleaving starts from it. *)
Definition istep_from {A B} (c2 c1 : DB * Prog A * Prog B) : Prop := istep c1 c2.

(** ** One round trip *)

Lemma advance_cases {A} (p : Prog A) db p' db' :
  advance p db = Some (p', db') ->
  exists B (s : M B) k, p = Step s k /\ ((exists b, p' = k b) \/ exists e, p' = Fail e).
Proof.
  destruct p as [a|e|B s k]; simpl; try discriminate.
  destruct (s db) as [[e|b] d]; intros H; inv H; exists B, s, k; eauto.
Qed.

Lemma advance_final {A} (p : Prog A) db : final p -> advance p db = None.
Proof. destruct p; simpl; tauto. Qed.

Lemma advance_within {A} n (p : Prog A) db p' db' :
  within n p -> advance p db = Some (p', db') -> exists n', n = S n' /\ within n' p'.
Proof.
  intros Hw Ha; destruct (advance_cases _ _ _ _ Ha) as (B & s & k & -> & [[b ->]|[e ->]]);
    destruct n as [|n']; simpl in Hw; try contradiction; exists n'; split; auto; exact I.
Qed.

(** Two stopped programs cannot move. *)
Lemma istep_final {A B} db (p : Prog A) (q : Prog B) c :
  final p -> final q -> ~ istep (db, p, q) c.
Proof.
  intros Hp Hq H; inversion H; subst;
    [rewrite advance_final in *; [discriminate|] ..]; assumption.
Qed.

(** The round trip of a program about to move. *)
Ltac advance_step Ha :=
  simpl in Ha; match type of Ha with (match ?x with _ => _ end) = _ => destruct x as [[?e|?b] ?d] end;
  inv Ha.

Lemma advance_some {A B} (s : M B) (k : B -> Prog A) db : exists p' db', advance (Step s k) db = Some (p', db').
Proof. simpl; destruct (s db) as [[e|b] d]; eauto. Qed.

(** ** Bounds *)

(** An interleaving of two programs with at most [n] and [m] round trips
    has at most [n + m] steps. *)
Lemma isteps_bound {A B} k (c c' : DB * Prog A * Prog B) :
  isteps k c c' -> forall n m db p q, c = (db, p, q) -> within n p -> within m q -> k <= n + m.
Proof.
  induction 1 as [c|k c1 [[db2 p2] q2] c3 Hs _ IH]; intros n m db p q -> Hp Hq; [lia|].
  inversion Hs as [? ? ? p' ? Ha | ? ? ? q' ? Ha]; subst.
  - destruct (advance_within _ _ _ _ _ Hp Ha) as (n' & -> & Hp').
    specialize (IH n' m _ _ _ eq_refl Hp' Hq); lia.
  - destruct (advance_within _ _ _ _ _ Hq Ha) as (m' & -> & Hq').
    specialize (IH n m' _ _ _ eq_refl Hp Hq'); lia.
Qed.

(** ** Termination *)

Lemma acc_stopped {A B} db (p : Prog A) (q : Prog B) :
  final p -> final q -> Acc istep_from (db, p, q).
Proof. intros Hp Hq; constructor; intros c H; destruct (istep_final db p q c Hp Hq H). Qed.

Lemma acc_left_stopped {A B} (p : Prog A) :
  final p -> forall (q : Prog B) db, Acc istep_from (db, p, q).
Proof.
  intros Hp q; induction q as [b|e|C s k IH]; intros db; [apply acc_stopped; simpl; auto ..|].
  constructor; intros c H; inversion H as [? ? ? p' ? Ha | ? ? ? q' ? Ha]; subst.
  - rewrite advance_final in Ha by exact Hp; discriminate.
  - advance_step Ha; [apply acc_stopped; simpl; auto | apply IH].
Qed.

Lemma acc_right_stopped {A B} (q : Prog B) :
  final q -> forall (p : Prog A) db, Acc istep_from (db, p, q).
Proof.
  intros Hq p; induction p as [a|e|C s k IH]; intros db; [apply acc_stopped; simpl; auto ..|].
  constructor; intros c H; inversion H as [? ? ? p' ? Ha | ? ? ? q' ? Ha]; subst.
  - advance_step Ha; [apply acc_stopped; simpl; auto | apply IH].
  - rewrite advance_final in Ha by exact Hq; discriminate.
Qed.

(** No interleaving of two programs goes on forever. *)
Lemma acc_all {A B} (p : Prog A) : forall (q : Prog B) db, Acc istep_from (db, p, q).
Proof.
  induction p as [a|e|C s k IHp]; [apply acc_left_stopped; exact I ..|].
  intros q; induction q as [b|e|C' s' k' IHq]; intros db; [apply acc_right_stopped; exact I ..|].
  constructor; intros c H; inversion H as [? ? ? p' ? Ha | ? ? ? q' ? Ha]; subst.
  - advance_step Ha; [apply acc_left_stopped; exact I | apply IHp].
  - advance_step Ha; [apply acc_right_stopped; exact I | apply IHq].
Qed.

(** ** Completion *)

(** A configuration where some program has not stopped can move. *)
Lemma progress {A B} db (p : Prog A) (q : Prog B) :
  (final p /\ final q) \/ exists c', istep (db, p, q) c'.
Proof.
  destruct p as [a|e|C s k].
  1,2: destruct q as [b|e'|C' s' k']; [left; simpl; auto ..|right];
         destruct (advance_some s' k' db) as (q' & d & Ha); eexists; apply istep_right, Ha.
  right; destruct (advance_some s k db) as (p' & d & Ha); eexists; apply istep_left, Ha.
Qed.

(** From every configuration, some interleaving runs both programs to
    their end. *)
Lemma completes {A B} (c : DB * Prog A * Prog B) :
  exists c', istar c c' /\ final (snd (fst c')) /\ final (snd c').
Proof.
  destruct c as [[db p] q]; induction (acc_all p q db) as [[[db1 p1] q1] _ IH].
  destruct (progress db1 p1 q1) as [[Hp Hq]|[[[db2 p2] q2] Hs]].
  - exists (db1, p1, q1); split; [apply istar_refl | simpl; auto].
  - destruct (IH _ Hs) as (c' & Hst & Hf); exists c'; split; [eapply istar_step; eauto | exact Hf].
Qed.

(** ** The handlers that write, as calls with one reply type *)

(** What a call answers: [clearPermissions] an [IUsernameResult],
    [addPermissions] nothing, the account operations [undefined]. *)
Inductive Reply :=
| ClearReply (r : ServiceResult ClearPermissions.IUsernameResult)
| AddReply
| AccountReply (r : ServiceResult unit).

Fixpoint prog_map {A C} (f : A -> C) (p : Prog A) : Prog C :=
  match p with
  | Done a => Done (f a)
  | Fail e => Fail e
  | Step s k => Step s (fun b => prog_map f (k b))
  end.

Inductive Call :=
| CClear (module assignee assigner : string)
| CAdd (username assignee caller : string) (permissions : list string)
| CDestroy (networkId : string)
| CEdit (op : ModifyAccount.AccountEdit) (networkId : string).

Definition call_prog (c : Call) : Prog Reply :=
  match c with
  | CClear m a b => prog_map ClearReply (clear_prog m a b)
  | CAdd u a c ps => prog_map (fun _ => AddReply) (add_prog u a c ps)
  | CDestroy nid => prog_map AccountReply (destroy_prog nid)
  | CEdit op nid => prog_map AccountReply (edit_prog op nid)
  end.

(** The number of awaited store calls of each handler. *)
Definition call_bound (c : Call) : nat :=
  match c with CEdit _ _ => 2 | _ => 3 end.

Lemma within_map {A C} (f : A -> C) n (p : Prog A) : within n p -> within n (prog_map f p).
Proof.
  revert n; induction p as [a|e|B s k IH]; intros n; simpl; auto.
  destruct n; auto.
Qed.

Ltac solve_within :=
  repeat (cbn [within]; intros;
          repeat match goal with |- context [match ?x with _ => _ end] => destruct x end);
  exact I.

Lemma call_within c : within (call_bound c) (call_prog c).
Proof.
  destruct c as [m a b|u a c ps|nid|op nid]; cbn [call_bound call_prog]; apply within_map;
    [unfold clear_prog | unfold add_prog | unfold destroy_prog | unfold edit_prog]; solve_within.
Qed.

(** No interleaving of two concurrent calls of the service goes on
    forever, and each has at most as many steps as the two calls have
    awaited store calls: three for [clearPermissions], [addPermissions] and
    [destroy], two for an editor, so at most six. *)
Lemma calls_terminate c1 c2 db :
  Acc istep_from (db, call_prog c1, call_prog c2) /\
  forall n cfg, isteps n (db, call_prog c1, call_prog c2) cfg -> n <= call_bound c1 + call_bound c2.
Proof.
  split; [apply acc_all|].
  intros n cfg H; apply (isteps_bound n _ _ H _ _ db _ _ eq_refl); apply call_within.
Qed.

End Progress.
